(** * Mewt quick model: a shallow embedding of the fusion engine

    The development follows the JavaScript sources of the repository.

    Part I, the embedding:
    - [Debounce]         the four-state table [determineState] and the
                         debounce block of [MewtEngine.updateState];
    - [RateLimiter]      [class RateLimiter] (vlm-manager.js);
    - [Js]               strings, [Map] and [Array.prototype.slice];
    - [LRUCache]         [class LRUCache], the trust cache;
    - [ContextManager]   [class ContextManager]: window aggregation and
                         the tick that feeds the trust cache;
    - [TrustOverride]    [hasVisual] of [MewtEngine.updateState] and
                         [WindowProcessor.calculateFocusState];
    - [Emotions]         the rule table and [classifyEmotion];
    - [Effects]          state passing with exceptions, for [try],
                         [catch], [finally] and [forEach];
    - [ObserverManager]  [class StateChangeObserverManager];
    - [VLMChannel]       [class VLMChannel]: [analyze], the result lock
                         and [callVisionAPI].

    Part II, the properties: one [...Facts] module per module above.

    Conventions.  [Date.now()] is an integer number of milliseconds and
    is passed explicitly to every function that reads the clock.  Other
    numbers (scores, features, confidences) are exact rationals.  Calls
    to a handler ([_notifyStateChange], [console.error], ...) are
    returned as a list of records, in call order.  An [async] function
    is cut at its [await]: the part before it and the part after it are
    separate functions, the second taking the settled promise. *)

From Stdlib Require Import Ascii String DecimalString.
From Stdlib Require Import ZArith QArith List Bool Lia Lqa Sorted Permutation.
Import ListNotations.
Open Scope string_scope.
Open Scope list_scope.
Open Scope Z_scope.

(* ================================================================== *)
(** * Part I: the embedding                                            *)
(* ================================================================== *)

(** ** The debounced state machine of [MewtEngine] *)

Module Debounce.

(** The four state strings ['idle'], ['cat_visual'], ['cat_audio'],
    ['cat_both']. *)
Inductive StateValue : Type :=
| idle
| cat_visual
| cat_audio
| cat_both.

Definition StateValue_eqb (a b : StateValue) : bool :=
  match a, b with
  | idle, idle | cat_visual, cat_visual
  | cat_audio, cat_audio | cat_both, cat_both => true
  | _, _ => false
  end.

(** [ContextManager.determineState] / [StateManager.determineState]. *)
Definition determineState (hasVisual hasAudio : bool) : StateValue :=
  if hasVisual && hasAudio then cat_both
  else if hasVisual then cat_visual
  else if hasAudio then cat_audio
  else idle.

(** [this.state] of the engine. *)
Record EngineState : Type := mkEngineState {
  stable : StateValue;
  pending : StateValue;
  lastStable : StateValue;
  changeTime : Z
}.

(** The constructor's initial [this.state]. *)
Definition initialState : EngineState :=
  {| stable := idle; pending := idle; lastStable := idle; changeTime := 0 |}.

(** [this.STATE_DEBOUNCE_MS = config.stateDebounceMs || 2000]: an absent
    or zero setting falls back to 2000. *)
Definition STATE_DEBOUNCE_MS (stateDebounceMs : option Z) : Z :=
  match stateDebounceMs with
  | Some d => if d =? 0 then 2000 else d
  | None => 2000
  end.

(** One call of [handleStateChange(newState, oldState)] (mewt-engine.js)
    or [_notifyStateChange(newState, oldState, ...)] (the observer
    version of the engine). *)
Record TransitionEvent : Type := mkTransition {
  newState : StateValue;
  oldState : StateValue
}.

(** The debounce block of [updateState], from [const now = Date.now()]
    to the end of the commit test.  The result lists the transition
    events fired by this call. *)
Definition debounce (debounceMs : Z) (rawState : StateValue) (now : Z)
    (s : EngineState) : EngineState * list TransitionEvent :=
  let s1 :=
    if negb (StateValue_eqb rawState (pending s))
    then {| stable := stable s; pending := rawState;
            lastStable := lastStable s; changeTime := now |}
    else s in
  if debounceMs <=? now - changeTime s1 then
    let s2 := {| stable := pending s1; pending := pending s1;
                 lastStable := lastStable s1; changeTime := changeTime s1 |} in
    if negb (StateValue_eqb (stable s2) (lastStable s2)) then
      ({| stable := stable s2; pending := pending s2;
          lastStable := stable s2; changeTime := changeTime s2 |},
       [ {| newState := stable s2; oldState := lastStable s2 |} ])
    else (s2, [])
  else (s1, []).

(** A sequence of [updateState] calls, each with the raw state it
    computed and the clock value it read. *)
Fixpoint run (debounceMs : Z) (s : EngineState)
    (updates : list (StateValue * Z)) : EngineState * list TransitionEvent :=
  match updates with
  | [] => (s, [])
  | (raw, now) :: rest =>
      let '(s1, fired1) := debounce debounceMs raw now s in
      let '(s2, fired2) := run debounceMs s1 rest in
      (s2, fired1 ++ fired2)
  end.

(** The raw state flaps faster than the debounce interval: any stretch
    of consecutive updates that all carry the same raw state spans less
    than [debounceMs]. *)
Definition flaps (debounceMs : Z) (updates : list (StateValue * Z)) : Prop :=
  forall i j ri ti rj tj,
    (i <= j)%nat ->
    nth_error updates i = Some (ri, ti) ->
    nth_error updates j = Some (rj, tj) ->
    (forall k rk tk, (i <= k <= j)%nat ->
                     nth_error updates k = Some (rk, tk) -> rk = ri) ->
    tj - ti < debounceMs.

End Debounce.

(** ** The rate limiter of the deep-analysis channel (vlm-manager.js) *)

Module RateLimiter.

(** The fields of [class RateLimiter]. *)
Record t : Type := mkRateLimiter {
  minIntervalMs : Z;
  maxPerMinute : Z;
  lastCallTime : Z;
  callsInLastMinute : list Z
}.

(** [constructor(minIntervalMs = 15000, maxPerMinute = 3)]. *)
Definition create (minIntervalMs maxPerMinute : option Z) : t :=
  {| minIntervalMs := match minIntervalMs with Some m => m | None => 15000 end;
     maxPerMinute := match maxPerMinute with Some m => m | None => 3 end;
     lastCallTime := 0;
     callsInLastMinute := [] |}.

(** [t => now - t < 60000], the test that keeps a recorded call. *)
Definition withinMinute (now t : Z) : bool := now - t <? 60000.

(** [canCall()]: the answer and the limiter after the call (the second
    test first trims [callsInLastMinute] in place). *)
Definition canCall (now : Z) (r : t) : t * bool :=
  if now - lastCallTime r <? minIntervalMs r then (r, false)
  else
    let kept := filter (withinMinute now) (callsInLastMinute r) in
    let r' := {| minIntervalMs := minIntervalMs r;
                 maxPerMinute := maxPerMinute r;
                 lastCallTime := lastCallTime r;
                 callsInLastMinute := kept |} in
    if maxPerMinute r <=? Z.of_nat (length kept) then (r', false)
    else (r', true).

(** [recordCall()]. *)
Definition recordCall (now : Z) (r : t) : t :=
  {| minIntervalMs := minIntervalMs r;
     maxPerMinute := maxPerMinute r;
     lastCallTime := now;
     callsInLastMinute := callsInLastMinute r ++ [now] |}.

(** [reset()]. *)
Definition reset (r : t) : t :=
  {| minIntervalMs := minIntervalMs r;
     maxPerMinute := maxPerMinute r;
     lastCallTime := 0;
     callsInLastMinute := [] |}.

(** An invocation on the limiter, with the value [Date.now()] returns
    inside it. *)
Inductive Op : Type :=
| CanCall (now : Z)
| RecordCall (now : Z).

Definition time_of (o : Op) : Z :=
  match o with CanCall now => now | RecordCall now => now end.

(** What an invocation did: the answer of a [canCall()], or the
    timestamp a [recordCall()] stored. *)
Inductive Event : Type :=
| Asked (now : Z) (answer : bool)
| Recorded (now : Z).

(** A sequence of invocations on one limiter. *)
Fixpoint exec (r : t) (ops : list Op) : t * list Event :=
  match ops with
  | [] => (r, [])
  | CanCall now :: rest =>
      let '(r1, answer) := canCall now r in
      let '(r2, log) := exec r1 rest in
      (r2, Asked now answer :: log)
  | RecordCall now :: rest =>
      let '(r2, log) := exec (recordCall now r) rest in
      (r2, Recorded now :: log)
  end.

(** The timestamps of the recorded calls, oldest first. *)
Fixpoint recorded (log : list Event) : list Z :=
  match log with
  | [] => []
  | Asked _ _ :: rest => recorded rest
  | Recorded now :: rest => now :: recorded rest
  end.

(** The caller's discipline (the one [VLMChannel.analyze] follows): a
    call is recorded only directly after a [canCall()] that answered
    [true].  [permit] tells whether the previous invocation was such an
    answer. *)
Fixpoint guarded_from (permit : bool) (log : list Event) : Prop :=
  match log with
  | [] => True
  | Asked _ answer :: rest => guarded_from answer rest
  | Recorded _ :: rest => permit = true /\ guarded_from false rest
  end.

Definition guarded (log : list Event) : Prop := guarded_from false log.

(** Invocation times never run backwards. *)
Definition chronological (ops : list Op) : Prop :=
  forall i j a b,
    (i <= j)%nat -> nth_error ops i = Some a -> nth_error ops j = Some b ->
    time_of a <= time_of b.

(** The calls among [calls] in the 60000 ms that end at [now]. *)
Definition trailing (now : Z) (calls : list Z) : list Z :=
  filter (fun t => (now - 60000 <? t) && (t <=? now)) calls.

(** The limiter's stored list against the history [recs] of all calls
    recorded so far, at a time [lo] that no later invocation precedes. *)
Definition agrees (lo : Z) (r : t) (recs : list Z) : Prop :=
  Forall (fun t => t <= lo) recs /\
  lastCallTime r = last recs 0 /\
  Forall (fun t => t <= lastCallTime r) recs /\
  forall now, lo <= now ->
    filter (withinMinute now) (callsInLastMinute r) =
    filter (withinMinute now) recs.

(** Any two of the calls [recs] (oldest first) lie at least [minI]
    apart. *)
Definition spaced (minI : Z) (recs : list Z) : Prop :=
  forall i j a b,
    (i < j)%nat -> nth_error recs i = Some a -> nth_error recs j = Some b ->
    minI <= b - a.

End RateLimiter.

(** ** JavaScript values shared by the modules below *)

Module Js.

(** [a < b] on numbers that are exact rationals. *)
Definition Qltb (a b : Q) : bool := negb (Qle_bool b a).

(** [String.prototype.toLowerCase] on ASCII letters (class labels are
    ASCII). *)
Definition lower_ascii (c : ascii) : ascii :=
  let n := nat_of_ascii c in
  if ((65 <=? n) && (n <=? 90))%nat then ascii_of_nat (n + 32) else c.

Fixpoint toLowerCase (s : string) : string :=
  match s with
  | EmptyString => EmptyString
  | String c rest => String (lower_ascii c) (toLowerCase rest)
  end.

(** [s.includes(sub)]. *)
Fixpoint includes (s sub : string) : bool :=
  String.prefix sub s ||
  match s with
  | EmptyString => false
  | String _ rest => includes rest sub
  end.

(** The template literal [`${n}`] for an integer [n]. *)
Definition string_of_Z (n : Z) : string :=
  NilZero.string_of_int (Z.to_int n).

(** A [Map] with string keys: its entries in insertion order, keys
    unique. *)
Definition Map (V : Type) : Type := list (string * V).

Definition map_has {V : Type} (key : string) (m : Map V) : bool :=
  existsb (fun kv => String.eqb (fst kv) key) m.

Definition map_get {V : Type} (key : string) (m : Map V) : option V :=
  option_map snd (find (fun kv => String.eqb (fst kv) key) m).

Definition map_delete {V : Type} (key : string) (m : Map V) : Map V :=
  filter (fun kv => negb (String.eqb (fst kv) key)) m.

(** [Map.prototype.set]: a present key keeps its place, a new key goes
    to the end. *)
Fixpoint map_set {V : Type} (key : string) (value : V) (m : Map V) : Map V :=
  match m with
  | [] => [(key, value)]
  | (k, v) :: rest =>
      if String.eqb k key then (key, value) :: rest
      else (k, v) :: map_set key value rest
  end.

(** [m.keys().next().value]; [None] stands for [undefined]. *)
Definition map_first_key {V : Type} (m : Map V) : option string :=
  match m with
  | [] => None
  | (k, _) :: _ => Some k
  end.

(** [Array.prototype.slice(start)] for an integer [start]: a negative
    [start] counts from the end, and both ends clamp. *)
Definition slice_from {A : Type} (start : Z) (l : list A) : list A :=
  let len := Z.of_nat (length l) in
  let k := if start <? 0 then Z.max (len + start) 0 else Z.min start len in
  skipn (Z.to_nat k) l.

End Js.

(** ** The trust cache: [class LRUCache] *)

Module LRUCache.
Import Js.

Record t (V : Type) : Type := mkLRUCache {
  maxSize : Z;
  cache : Map V
}.
Arguments mkLRUCache {V} _ _.
Arguments maxSize {V} _.
Arguments cache {V} _.

(** [new LRUCache(maxSize)]. *)
Definition create {V : Type} (maxSize : Z) : t V :=
  {| maxSize := maxSize; cache := [] |}.

(** [get(key)]: the value, moved to the most-recent end; [None] stands
    for [undefined]. *)
Definition get {V : Type} (key : string) (c : t V) : t V * option V :=
  if negb (map_has key (cache c)) then (c, None)
  else
    match map_get key (cache c) with
    | Some value =>
        ({| maxSize := maxSize c;
            cache := map_set key value (map_delete key (cache c)) |},
         Some value)
    | None => (c, None)
    end.

(** [set(key, value)].  On an empty map [firstKey] is [undefined] and
    deleting it does nothing. *)
Definition set {V : Type} (key : string) (value : V) (c : t V) : t V :=
  let m := cache c in
  let m1 :=
    if map_has key m then map_delete key m
    else if maxSize c <=? Z.of_nat (length m) then
      match map_first_key m with
      | Some firstKey => map_delete firstKey m
      | None => m
      end
    else m in
  {| maxSize := maxSize c; cache := map_set key value m1 |}.

Definition has {V : Type} (key : string) (c : t V) : bool :=
  map_has key (cache c).

Definition clear {V : Type} (c : t V) : t V :=
  {| maxSize := maxSize c; cache := [] |}.

Definition size {V : Type} (c : t V) : Z := Z.of_nat (length (cache c)).

(** [getAllValues()], least recently used first. *)
Definition getAllValues {V : Type} (c : t V) : list V := map snd (cache c).

Definition getAllKeys {V : Type} (c : t V) : list string := map fst (cache c).

(** [recent(count)]: [values.slice(-count)]. *)
Definition recent {V : Type} (count : Z) (c : t V) : list V :=
  slice_from (- count) (getAllValues c).

(** [set] applied to a list of entries, first to last. *)
Definition set_all {V : Type} (entries : list (string * V)) (c : t V) : t V :=
  fold_left (fun acc kv => set (fst kv) (snd kv) acc) entries c.

End LRUCache.

(** ** The context manager behind the engine ([class ContextManager]) *)

Module ContextManager.
Import Js Debounce.

(** An entry of [image_lru]. *)
Record TrustEntry : Type := mkTrustEntry {
  class : string;
  score : Q;
  timestamp : Z;
  isCat : bool
}.

Record Config : Type := mkConfig {
  CAT_DETECTION_THRESHOLD : Q;
  CAT_SOUND_THRESHOLD : Q;
  WINDOW_INTERVAL : Z;
  LRU_TRUST_COUNT : Z
}.

Definition defaultConfig : Config :=
  {| CAT_DETECTION_THRESHOLD := 3 # 10;
     CAT_SOUND_THRESHOLD := 2 # 10;
     WINDOW_INTERVAL := 1000;
     LRU_TRUST_COUNT := 10 |}.

(** [this.context] and [this.config]; the two audio-analysis slots of
    the window are left out, no function below reads them. *)
Record t : Type := mkContext {
  is_now_focusing_cat : bool;
  last_mewt_time : Z;
  image_lru : LRUCache.t TrustEntry;
  current_image : Map Q;
  current_audio : Map Q;
  config : Config
}.

(** The constructor; it builds [new LRUCache(20)], the capacity is a
    parameter here. *)
Definition create (lruCapacity : Z) : t :=
  {| is_now_focusing_cat := false;
     last_mewt_time := 0;
     image_lru := LRUCache.create lruCapacity;
     current_image := [];
     current_audio := [];
     config := defaultConfig |}.

(** The body of the [forEach] of [addImageResult] / [addAudioResult]:
    keep the highest score per class. *)
Definition keepMax (m : Map Q) (item : string * Q) : Map Q :=
  let '(cls, sc) := item in
  if negb (map_has cls m) ||
     match map_get cls m with
     | Some old => Qltb old sc
     | None => false
     end
  then map_set cls sc m
  else m.

Definition addImageResult (classResults : list (string * Q)) (c : t) : t :=
  {| is_now_focusing_cat := is_now_focusing_cat c;
     last_mewt_time := last_mewt_time c;
     image_lru := image_lru c;
     current_image := fold_left keepMax classResults (current_image c);
     current_audio := current_audio c;
     config := config c |}.

(** [addAudioResult(classResults)] without an audio buffer. *)
Definition addAudioResult (classResults : list (string * Q)) (c : t) : t :=
  {| is_now_focusing_cat := is_now_focusing_cat c;
     last_mewt_time := last_mewt_time c;
     image_lru := image_lru c;
     current_image := current_image c;
     current_audio := fold_left keepMax classResults (current_audio c);
     config := config c |}.

Definition hasCatSound (c : t) : bool :=
  existsb (fun kv =>
             (includes (toLowerCase (fst kv)) "cat" ||
              includes (toLowerCase (fst kv)) "meow") &&
             Qltb (CAT_SOUND_THRESHOLD (config c)) (snd kv))
          (current_audio c).

Definition hasVisualCat (c : t) : bool :=
  existsb (fun kv =>
             includes (toLowerCase (fst kv)) "cat" &&
             Qltb (CAT_DETECTION_THRESHOLD (config c)) (snd kv))
          (current_image c).

(** [updateImageLRU()], reading the clock as [now]. *)
Definition updateImageLRU (now : Z) (c : t) : t :=
  {| is_now_focusing_cat := is_now_focusing_cat c;
     last_mewt_time := last_mewt_time c;
     image_lru :=
       fold_left
         (fun lru kv =>
            LRUCache.set (fst kv ++ "_" ++ string_of_Z now)%string
              {| class := fst kv; score := snd kv; timestamp := now;
                 isCat := includes (toLowerCase (fst kv)) "cat" |}
              lru)
         (current_image c) (image_lru c);
     current_image := current_image c;
     current_audio := current_audio c;
     config := config c |}.

Definition calculateTrustBasedFocus (currentState : StateValue) (c : t)
  : bool :=
  match currentState with
  | idle =>
      (0 <? length (filter isCat
                      (LRUCache.recent (LRU_TRUST_COUNT (config c))
                                       (image_lru c))))%nat
  | _ => true
  end.

Definition clearCurrentWindow (c : t) : t :=
  {| is_now_focusing_cat := is_now_focusing_cat c;
     last_mewt_time := last_mewt_time c;
     image_lru := image_lru c;
     current_image := [];
     current_audio := [];
     config := config c |}.

(** [processWindow()], the once-per-window tick: [now] is the clock it
    reads itself, [nowLRU] the clock [updateImageLRU] reads.  The result
    carries the state and focus flag of the response. *)
Definition processWindow (now nowLRU : Z) (c : t) : t * (StateValue * bool) :=
  let c1 := updateImageLRU nowLRU c in
  let currentState := determineState (hasVisualCat c1) (hasCatSound c1) in
  let focus := calculateTrustBasedFocus currentState c1 in
  let c2 := {| is_now_focusing_cat := focus;
               last_mewt_time := now;
               image_lru := image_lru c1;
               current_image := current_image c1;
               current_audio := current_audio c1;
               config := config c1 |} in
  (clearCurrentWindow c2, (currentState, focus)).

(** Windows in which nothing is detected: one tick after another. *)
Definition emptyWindows (ticks : list (Z * Z)) (c : t) : t :=
  fold_left (fun acc tk => fst (processWindow (fst tk) (snd tk) acc)) ticks c.

End ContextManager.

(** ** The trust override of [MewtEngine.updateState] and of
       [WindowProcessor.calculateFocusState] *)

Module TrustOverride.
Import Js Debounce ContextManager.

(** [hasVisual] as [updateState] computes it: the direct detection of
    the current window, else the ten most recent trust entries. *)
Definition hasVisual (c : t) : bool :=
  if hasVisualCat c then true
  else
    let recent10 := LRUCache.recent 10 (image_lru c) in
    let catCount := length (filter isCat recent10) in
    (0 <? catCount)%nat.

(** [updateState()] up to the end of the debounce block. *)
Definition updateState (debounceMs : Z) (now : Z) (c : t) (s : EngineState)
  : EngineState * list TransitionEvent :=
  let rawState := determineState (hasVisual c) (hasCatSound c) in
  debounce debounceMs rawState now s.

(** [WindowProcessor.calculateFocusState(currentState)]; [lruCache] is
    [None] when the processor was built without one. *)
Definition calculateFocusState (currentState : StateValue)
    (lruCache : option (LRUCache.t TrustEntry)) : bool :=
  if negb (StateValue_eqb currentState idle) then true
  else
    match lruCache with
    | None => false
    | Some lru =>
        (0 <? length (filter isCat (LRUCache.recent 10 lru)))%nat
    end.

End TrustOverride.

(** ** The emotion rule engine ([classifyEmotion]) *)

Module Emotions.
Import Js.
Local Open Scope Q_scope.

(** Numbers are exact rationals: a decimal literal of the source is the
    rational it denotes, and [*], [/], [-] are exact. *)

Record EmotionCategory : Type := mkCategory {
  categoryKey : string
}.

(** [emotionCategories], by [id]. *)
Definition emotionCategories : list EmotionCategory :=
  [ {| categoryKey := "friendly" |};
    {| categoryKey := "attention" |};
    {| categoryKey := "warning" |} ].

(** An entry of [emotions]: its [id] and [categoryId] (icon, title and
    description are presentation only). *)
Record Emotion : Type := mkEmotion {
  id : string;
  categoryId : string
}.

Definition emotions : list Emotion :=
  [ {| id := "call"; categoryId := "friendly" |};
    {| id := "comfortable"; categoryId := "friendly" |};
    {| id := "flighty"; categoryId := "friendly" |};
    {| id := "satisfy"; categoryId := "friendly" |};
    {| id := "yummy"; categoryId := "friendly" |};
    {| id := "hello"; categoryId := "attention" |};
    {| id := "for_food"; categoryId := "attention" |};
    {| id := "ask_for_play"; categoryId := "attention" |};
    {| id := "ask_for_hunting"; categoryId := "attention" |};
    {| id := "discomfort"; categoryId := "attention" |};
    {| id := "find_mom"; categoryId := "attention" |};
    {| id := "anxious"; categoryId := "attention" |};
    {| id := "courtship"; categoryId := "attention" |};
    {| id := "curious"; categoryId := "attention" |};
    {| id := "goaway"; categoryId := "warning" |};
    {| id := "goout"; categoryId := "warning" |};
    {| id := "dieaway"; categoryId := "warning" |};
    {| id := "warning"; categoryId := "warning" |};
    {| id := "unhappy"; categoryId := "warning" |};
    {| id := "alert"; categoryId := "warning" |};
    {| id := "for_fight"; categoryId := "warning" |} ].

(** [emotions.find(e => e.id === id)]. *)
Definition getEmotion (key : string) : option Emotion :=
  find (fun e => String.eqb (id e) key) emotions.

(** [emotionCategories.find(c => c.id === id)]. *)
Definition getCategory (key : string) : option EmotionCategory :=
  find (fun c => String.eqb (categoryKey c) key) emotionCategories.

Record AudioFeatures : Type := mkFeatures {
  zeroCrossingRate : Q;
  spectralCentroid : Q;
  spectralRolloff : Q;
  energy : Q;
  rms : Q
}.

(** The five [normalized...] constants of [classifyEmotion]. *)
Record Normalized : Type := mkNormalized {
  normalizedZCR : Q;
  normalizedCentroid : Q;
  normalizedRolloff : Q;
  normalizedEnergy : Q;
  normalizedRMS : Q
}.

(** [Math.min(a, b)]. *)
Definition jsMin (a b : Q) : Q := if Qltb b a then b else a.

Definition normalize (features : AudioFeatures) : Normalized :=
  {| normalizedZCR := jsMin (zeroCrossingRate features * 10) 1;
     normalizedCentroid := jsMin (spectralCentroid features / 5000) 1;
     normalizedRolloff := jsMin (spectralRolloff features * 2) 1;
     normalizedEnergy := jsMin (energy features * 1000000) 1;
     normalizedRMS := jsMin (rms features * 1000) 1 |}.

(** [x > k] and [x < k] of the rule bodies. *)
Definition gt (x k : Q) : bool := Qltb k x.
Definition lt (x k : Q) : bool := Qltb x k.

(** An entry of the [rules] array; the closure [rule] reads the
    normalized features. *)
Record Rule : Type := mkRule {
  emotionId : string;
  rule : Normalized -> Q
}.

Definition rules : list Rule :=
  [ {| emotionId := "comfortable";
       rule := fun n =>
         if lt (normalizedEnergy n) 0.2 && lt (normalizedRMS n) 0.3
            && lt (normalizedZCR n) 0.3
         then 0.9 - normalizedEnergy n else 0 |};
    {| emotionId := "satisfy";
       rule := fun n =>
         if gt (normalizedEnergy n) 0.1 && lt (normalizedEnergy n) 0.4
            && gt (normalizedRMS n) 0.2 && lt (normalizedRMS n) 0.5
            && lt (normalizedZCR n) 0.4
         then 0.8 else 0 |};
    {| emotionId := "call";
       rule := fun n =>
         if gt (normalizedEnergy n) 0.2 && lt (normalizedEnergy n) 0.6
            && gt (normalizedCentroid n) 0.3
            && lt (normalizedCentroid n) 0.7
            && gt (normalizedZCR n) 0.2 && lt (normalizedZCR n) 0.6
         then 0.75 else 0 |};
    {| emotionId := "flighty";
       rule := fun n =>
         if gt (normalizedEnergy n) 0.3 && lt (normalizedEnergy n) 0.6
            && gt (normalizedRMS n) 0.3 && lt (normalizedRMS n) 0.6
            && gt (normalizedCentroid n) 0.4
         then 0.7 else 0 |};
    {| emotionId := "yummy";
       rule := fun n =>
         if gt (normalizedEnergy n) 0.2 && lt (normalizedEnergy n) 0.5
            && gt (normalizedZCR n) 0.3 && lt (normalizedZCR n) 0.6
            && gt (normalizedRolloff n) 0.3
         then 0.75 else 0 |};
    {| emotionId := "hello";
       rule := fun n =>
         if gt (normalizedEnergy n) 0.3 && lt (normalizedEnergy n) 0.7
            && gt (normalizedCentroid n) 0.4
            && lt (normalizedCentroid n) 0.8
            && gt (normalizedRMS n) 0.3
         then 0.8 else 0 |};
    {| emotionId := "for_food";
       rule := fun n =>
         if gt (normalizedEnergy n) 0.4 && lt (normalizedEnergy n) 0.8
            && gt (normalizedRMS n) 0.4 && lt (normalizedRMS n) 0.8
            && gt (normalizedZCR n) 0.3 && lt (normalizedZCR n) 0.7
         then 0.85 else 0 |};
    {| emotionId := "ask_for_play";
       rule := fun n =>
         if gt (normalizedEnergy n) 0.5 && lt (normalizedEnergy n) 0.8
            && gt (normalizedCentroid n) 0.5
            && gt (normalizedZCR n) 0.4
            && gt (normalizedRMS n) 0.4
         then 0.8 else 0 |};
    {| emotionId := "ask_for_hunting";
       rule := fun n =>
         if gt (normalizedEnergy n) 0.6
            && gt (normalizedCentroid n) 0.6
            && gt (normalizedZCR n) 0.5 && gt (normalizedRMS n) 0.5
         then 0.85 else 0 |};
    {| emotionId := "curious";
       rule := fun n =>
         if gt (normalizedEnergy n) 0.2 && lt (normalizedEnergy n) 0.6
            && gt (normalizedCentroid n) 0.3
            && lt (normalizedCentroid n) 0.7
            && gt (normalizedZCR n) 0.3 && lt (normalizedZCR n) 0.7
         then 0.6 else 0 |};
    {| emotionId := "find_mom";
       rule := fun n =>
         if gt (normalizedEnergy n) 0.7 && gt (normalizedRMS n) 0.6
            && gt (normalizedCentroid n) 0.6
            && gt (normalizedZCR n) 0.6
         then 0.9 else 0 |};
    {| emotionId := "anxious";
       rule := fun n =>
         if gt (normalizedCentroid n) 0.7 && gt (normalizedZCR n) 0.6
            && gt (normalizedEnergy n) 0.4
            && gt (normalizedRolloff n) 0.6
         then 0.85 else 0 |};
    {| emotionId := "discomfort";
       rule := fun n =>
         if gt (normalizedEnergy n) 0.3 && lt (normalizedEnergy n) 0.7
            && gt (normalizedZCR n) 0.5
            && gt (normalizedCentroid n) 0.5
            && gt (normalizedRMS n) 0.3
         then 0.7 else 0 |};
    {| emotionId := "courtship";
       rule := fun n =>
         if gt (normalizedEnergy n) 0.5
            && gt (normalizedCentroid n) 0.4
            && lt (normalizedCentroid n) 0.8
            && gt (normalizedRolloff n) 0.4
            && gt (normalizedRMS n) 0.4
         then 0.75 else 0 |};
    {| emotionId := "for_fight";
       rule := fun n =>
         if gt (normalizedEnergy n) 0.8
            && gt (normalizedCentroid n) 0.8
            && gt (normalizedZCR n) 0.8 && gt (normalizedRMS n) 0.8
            && gt (normalizedRolloff n) 0.7
         then 0.95 else 0 |};
    {| emotionId := "dieaway";
       rule := fun n =>
         if gt (normalizedEnergy n) 0.85
            && gt (normalizedCentroid n) 0.7
            && gt (normalizedZCR n) 0.7 && gt (normalizedRMS n) 0.7
         then 0.9 else 0 |};
    {| emotionId := "goout";
       rule := fun n =>
         if gt (normalizedEnergy n) 0.75
            && gt (normalizedCentroid n) 0.6
            && gt (normalizedZCR n) 0.6 && gt (normalizedRMS n) 0.6
         then 0.85 else 0 |};
    {| emotionId := "warning";
       rule := fun n =>
         if gt (normalizedCentroid n) 0.7 && gt (normalizedZCR n) 0.7
            && gt (normalizedEnergy n) 0.6 && gt (normalizedRMS n) 0.5
         then 0.8 else 0 |};
    {| emotionId := "alert";
       rule := fun n =>
         if gt (normalizedCentroid n) 0.8 && gt (normalizedZCR n) 0.6
            && gt (normalizedEnergy n) 0.5
            && gt (normalizedRolloff n) 0.7
         then 0.8 else 0 |};
    {| emotionId := "goaway";
       rule := fun n =>
         if gt (normalizedEnergy n) 0.6
            && gt (normalizedCentroid n) 0.6
            && gt (normalizedZCR n) 0.5 && gt (normalizedRMS n) 0.5
         then 0.75 else 0 |};
    {| emotionId := "unhappy";
       rule := fun n =>
         if gt (normalizedEnergy n) 0.4 && lt (normalizedEnergy n) 0.8
            && gt (normalizedCentroid n) 0.5
            && gt (normalizedZCR n) 0.4
            && gt (normalizedRMS n) 0.4
         then 0.7 else 0 |} ].

(** [bestMatch]. *)
Record Match : Type := mkMatch {
  matchId : string;
  matchConfidence : Q
}.

(** The body of the [for ... of rules] loop. *)
Definition consider (n : Normalized) (bestMatch : option Match) (r : Rule)
  : option Match :=
  let confidence := rule r n in
  if Qltb 0 confidence &&
     match bestMatch with
     | None => true
     | Some b => Qltb (matchConfidence b) confidence
     end
  then Some {| matchId := emotionId r; matchConfidence := confidence |}
  else bestMatch.

Definition findBest (n : Normalized) : option Match :=
  fold_left (consider n) rules None.

(** The object [classifyEmotion] returns. *)
Record Classification : Type := mkClassification {
  resultId : string;
  emotion : Emotion;
  confidence : Q;
  category : EmotionCategory
}.

(** [classifyEmotion(features)]; [None] stands for [null]. *)
Definition classifyEmotion (features : AudioFeatures)
  : option Classification :=
  match findBest (normalize features) with
  | Some bestMatch =>
      if Qltb 0.5 (matchConfidence bestMatch) then
        match getEmotion (matchId bestMatch) with
        | Some emo =>
            match getCategory (categoryId emo) with
            | Some cat =>
                Some {| resultId := matchId bestMatch;
                        emotion := emo;
                        confidence := matchConfidence bestMatch;
                        category := cat |}
            | None => None
            end
        | None => None
        end
      else None
  | None => None
  end.

(** The claim that every rule yields either 0 or one fixed confidence
    constant, as a statement about [rules]. *)
Definition each_rule_zero_or_constant : Prop :=
  forall r : Rule, In r rules ->
    exists k : Q, forall n : Normalized, rule r n == 0 \/ rule r n == k.

(** [best] is what the selection loop must hold after the rules [seen]:
    nothing when no rule of [seen] gave a positive confidence, else the
    id and confidence of a rule of [seen] that no rule of [seen] beats
    and that every earlier rule stays strictly below. *)
Definition firstBest (n : Normalized) (seen : list Rule)
    (best : option Match) : Prop :=
  match best with
  | None => forall r, In r seen -> rule r n <= 0
  | Some b =>
      exists (i : nat) (r : Rule),
        nth_error seen i = Some r /\
        matchId b = emotionId r /\
        matchConfidence b = rule r n /\
        0 < matchConfidence b /\
        (forall r', In r' seen -> rule r' n <= matchConfidence b) /\
        (forall j r', (j < i)%nat -> nth_error seen j = Some r' ->
                      rule r' n < matchConfidence b)
  end.

(** Sample vectors.  [quietSample] is the first entry of [testFeatures]
    in the repository's emotion test script ("Very quiet/comfortable
    sound"); the others are quieter still. *)
Definition quietSample : AudioFeatures :=
  {| zeroCrossingRate := 0.01; spectralCentroid := 800;
     spectralRolloff := 0.2; energy := 0.00001; rms := 0.001 |}.

Definition faintSample : AudioFeatures :=
  {| zeroCrossingRate := 0.01; spectralCentroid := 800;
     spectralRolloff := 0.2; energy := 0.0000001; rms := 0.0001 |}.

Definition silentSample : AudioFeatures :=
  {| zeroCrossingRate := 0.01; spectralCentroid := 800;
     spectralRolloff := 0.2; energy := 0; rms := 0 |}.

End Emotions.

(** ** Statements that may throw: state passing with exceptions *)

Module Effects.

(** A thrown value. *)
Record JsError : Type := mkError { message : string }.

(** A computation over the state [S]: the state it leaves and either the
    value thrown ([inl]) or the value returned ([inr]). *)
Definition M (S A : Type) : Type := S -> S * (JsError + A).

Definition ret {S A : Type} (a : A) : M S A := fun s => (s, inr a).

Definition throw {S A : Type} (e : JsError) : M S A := fun s => (s, inl e).

Definition bind {S A B : Type} (m : M S A) (k : A -> M S B) : M S B :=
  fun s =>
    match m s with
    | (s1, inr a) => k a s1
    | (s1, inl e) => (s1, inl e)
    end.

Definition get {S : Type} : M S S := fun s => (s, inr s).

Definition modify {S : Type} (f : S -> S) : M S unit := fun s => (f s, inr tt).

(** [try { body } catch (error) { handler }]. *)
Definition tryCatch {S A : Type} (body : M S A) (handler : JsError -> M S A)
  : M S A :=
  fun s =>
    match body s with
    | (s1, inl e) => handler e s1
    | (s1, inr a) => (s1, inr a)
    end.

(** [try { body } finally { finalizer }]: the finalizer runs on either
    outcome and the outcome of the body stands unless the finalizer
    throws. *)
Definition tryFinally {S A : Type} (body : M S A) (finalizer : M S unit)
  : M S A :=
  fun s =>
    match body s with
    | (s1, outcome) =>
        match finalizer s1 with
        | (s2, inl e) => (s2, inl e)
        | (s2, inr _) => (s2, outcome)
        end
    end.

(** [array.forEach(f)]. *)
Fixpoint forEach {S A : Type} (l : list A) (f : A -> M S unit) : M S unit :=
  match l with
  | [] => ret tt
  | x :: rest => bind (f x) (fun _ => forEach rest f)
  end.

Declare Scope js_scope.
Delimit Scope js_scope with js.
Notation "x <- c ;; k" := (bind c (fun x => k))
  (at level 61, c at next level, right associativity) : js_scope.
Notation "c ;;; k" := (bind c (fun _ => k))
  (at level 61, right associativity) : js_scope.

End Effects.

(** ** Observer dispatch ([class StateChangeObserverManager]) *)

Module ObserverManager.
Import Effects.

(** An observer object, by reference. *)
Definition Ref : Type := nat.

(** The manager and the part of the heap it writes: the [priority]
    property of every observer object ([None] while never set).  The
    array holds references, so an observer added twice appears twice
    and shares one priority. *)
Record t : Type := mkManager {
  observers : list Ref;
  priority : Ref -> option Z
}.

(** [new StateChangeObserverManager()]. *)
Definition create : t :=
  {| observers := []; priority := fun _ => None |}.

(** [(o.priority || 0)]. *)
Definition priorityOr0 (heap : Ref -> option Z) (o : Ref) : Z :=
  match heap o with
  | Some p => p
  | None => 0
  end.

(** [Array.prototype.sort] with the comparator
    [(a, b) => (b.priority || 0) - (a.priority || 0)].  The sort is
    stable, so its result is fixed by the comparator; it is computed
    here by insertion, each element going behind those that do not
    have to follow it. *)
Fixpoint insertByPriority (heap : Ref -> option Z) (x : Ref) (l : list Ref)
  : list Ref :=
  match l with
  | [] => [x]
  | y :: rest =>
      if priorityOr0 heap y <? priorityOr0 heap x then x :: y :: rest
      else y :: insertByPriority heap x rest
  end.

Definition sortByPriority (heap : Ref -> option Z) (l : list Ref) : list Ref :=
  fold_left (fun sorted x => insertByPriority heap x sorted) l [].

(** [addObserver(observer, priority = 0)]. *)
Definition addObserver (observer : Ref) (prio : option Z) (m : t) : t :=
  let p := match prio with Some p => p | None => 0 end in
  let heap := fun o => if Nat.eqb o observer then Some p else priority m o in
  {| observers := sortByPriority heap (observers m ++ [observer]);
     priority := heap |}.

(** [splice(index, 1)] at the [indexOf] the observer. *)
Fixpoint removeFirst (observer : Ref) (l : list Ref) : list Ref :=
  match l with
  | [] => []
  | y :: rest => if Nat.eqb y observer then rest else y :: removeFirst observer rest
  end.

(** [removeObserver(observer)] and its boolean result. *)
Definition removeObserver (observer : Ref) (m : t) : t * bool :=
  if existsb (Nat.eqb observer) (observers m)
  then ({| observers := removeFirst observer (observers m);
           priority := priority m |}, true)
  else (m, false).

(** Registrations and removals, in order. *)
Inductive Op : Type :=
| Add (observer : Ref) (prio : option Z)
| Remove (observer : Ref).

Definition apply (m : t) (op : Op) : t :=
  match op with
  | Add observer prio => addObserver observer prio m
  | Remove observer => fst (removeObserver observer m)
  end.

(** The observers are in descending order of priority. *)
Definition descending (m : t) : Prop :=
  StronglySorted
    (fun a b => priorityOr0 (priority m) b <= priorityOr0 (priority m) a)
    (observers m).

Section Dispatch.

(** What the observers touch, the event they are handed, and what each
    observer's [notify] does: the state it leaves and whether it threw. *)
Variable U : Type.
Variable Event : Type.
Variable notifyOf : Ref -> Event -> U -> U * (JsError + unit).
Variable constructorName : Ref -> string.

(** The world of a dispatch: the observers' state, the [notify] calls
    made so far, and the lines written by [console.error]. *)
Record World : Type := mkWorld {
  user : U;
  calls : list Ref;
  console : list (string * JsError)
}.

(** [observer.notify(event)]. *)
Definition callNotify (observer : Ref) (event : Event) : M World unit :=
  fun w =>
    let '(u, outcome) := notifyOf observer event (user w) in
    ({| user := u; calls := calls w ++ [observer]; console := console w |},
     outcome).

(** [console.error(`Observer ${observer.constructor.name} failed:`, error)]. *)
Definition consoleError (observer : Ref) (error : JsError) : M World unit :=
  modify (fun w =>
            {| user := user w; calls := calls w;
               console := console w ++
                 [(("Observer " ++ constructorName observer ++ " failed:")%string,
                   error)] |}).

(** The callback of the [forEach] in [notify]. *)
Definition guardedNotify (event : Event) (observer : Ref) : M World unit :=
  tryCatch (callNotify observer event) (consoleError observer).

(** [notify(event)]. *)
Definition notify (m : t) (event : Event) : M World unit :=
  forEach (observers m) (guardedNotify event).

End Dispatch.

Arguments mkWorld {U} _ _ _.
Arguments user {U} _.
Arguments calls {U} _.
Arguments console {U} _.
Arguments callNotify {U Event} _ _ _ _.
Arguments consoleError {U} _ _ _ _.
Arguments guardedNotify {U Event} _ _ _ _ _.
Arguments notify {U Event} _ _ _ _ _.

End ObserverManager.

(** ** The deep-analysis channel ([class VLMChannel], vlm-manager.js) *)

Module VLMChannel.
Import Js Effects Debounce.

Inductive ChannelType : Type := vision | audio.

(** The [data] of an analysis result: the service's own payload, the
    fallback [{ hasCat: false, confidence: 0, error }] of
    [callVisionAPI], or the stub [{ hasMeow: false, confidence: 0 }] of
    [callAudioAPI]. *)
Inductive ResultData : Type :=
| ServiceData (payload : string)
| FallbackData (error : string)
| AudioStubData.

(** What [callAPI] resolves to; [None] fields stand for [undefined]. *)
Record ApiResult : Type := mkApiResult {
  text : option string;
  data : option ResultData
}.

(** [this.lock]. *)
Record Lock : Type := mkLock {
  lockText : option string;
  until : Z;
  lockData : option ResultData
}.

Record t : Type := mkChannel {
  type : ChannelType;
  enabled : bool;
  rateLimiter : RateLimiter.t;
  lock : Lock;
  isProcessing : bool;
  pendingRequest : option ApiResult
}.

Record Config : Type := mkConfig {
  configEnabled : option bool;
  minInterval : option Z;
  maxPerMinute : option Z
}.

(** [x || d] on a number. *)
Definition orElse (x : option Z) (d : Z) : Z :=
  match x with
  | Some v => if v =? 0 then d else v
  | None => d
  end.

(** [new VLMChannel(type, config)]. *)
Definition create (ty : ChannelType) (config : Config) : t :=
  {| type := ty;
     enabled := match configEnabled config with Some b => b | None => true end;
     rateLimiter :=
       RateLimiter.create (Some (orElse (minInterval config) 15000))
                          (Some (orElse (maxPerMinute config) 3));
     lock := {| lockText := None; until := 0; lockData := None |};
     isProcessing := false;
     pendingRequest := None |}.

Definition defaultConfig : Config :=
  {| configEnabled := None; minInterval := None; maxPerMinute := None |}.

(** Truthiness of a text: neither [undefined]/[null] nor empty. *)
Definition truthyText (s : option string) : bool :=
  match s with
  | Some str => negb (String.eqb str "")
  | None => false
  end.

Definition withRateLimiter (rl : RateLimiter.t) (c : t) : t :=
  {| type := type c; enabled := enabled c; rateLimiter := rl;
     lock := lock c; isProcessing := isProcessing c;
     pendingRequest := pendingRequest c |}.

Definition withProcessing (b : bool) (c : t) : t :=
  {| type := type c; enabled := enabled c; rateLimiter := rateLimiter c;
     lock := lock c; isProcessing := b;
     pendingRequest := pendingRequest c |}.

(** [setLock(text, data, durationMs = 30000)], reading the clock as
    [now]. *)
Definition setLock (txt : option string) (dat : option ResultData)
    (durationMs : option Z) (now : Z) (c : t) : t :=
  {| type := type c; enabled := enabled c; rateLimiter := rateLimiter c;
     lock := {| lockText := txt;
                until := now + match durationMs with
                               | Some d => d
                               | None => 30000
                               end;
                lockData := dat |};
     isProcessing := isProcessing c;
     pendingRequest := pendingRequest c |}.

(** [getText()]. *)
Definition getText (now : Z) (c : t) : option string :=
  if (now <? until (lock c)) && truthyText (lockText (lock c))
  then lockText (lock c)
  else None.

Definition isLocked (now : Z) (c : t) : bool := now <? until (lock c).

Definition getLockData (now : Z) (c : t) : option ResultData :=
  if isLocked now c then lockData (lock c) else None.

Definition unlock (c : t) : t :=
  {| type := type c; enabled := enabled c; rateLimiter := rateLimiter c;
     lock := {| lockText := None; until := 0; lockData := None |};
     isProcessing := isProcessing c;
     pendingRequest := pendingRequest c |}.

Definition setEnabled (b : bool) (c : t) : t :=
  {| type := type c; enabled := b; rateLimiter := rateLimiter c;
     lock := lock c; isProcessing := isProcessing c;
     pendingRequest := pendingRequest c |}.

(** How the promise of [callAPI] settles: with a result ([None] for a
    null one) or with a thrown error. *)
Inductive Settled : Type :=
| Fulfilled (result : option ApiResult)
| Rejected (error : JsError).

(** [await promise]. *)
Definition await (p : Settled) : M t (option ApiResult) :=
  match p with
  | Fulfilled result => ret result
  | Rejected error => throw error
  end.

(** [analyze] up to its [await]: either it has returned null, or the
    call is in flight. *)
Inductive Started : Type := Declined | InFlight.

Definition analyze_begin (now : Z) : M t Started :=
  (c <- get ;;
   if negb (enabled c) then ret Declined
   else if isProcessing c then ret Declined
   else
     let '(rl, allowed) := RateLimiter.canCall now (rateLimiter c) in
     modify (withRateLimiter rl) ;;;
     if negb allowed then ret Declined
     else modify (withProcessing true) ;;; ret InFlight)%js.

(** [analyze] from its [await] on: the rest of the [try] block, the
    [catch] and the [finally].  [nowRecord] and [nowLock] are the clock
    as [recordCall] and [setLock] read it. *)
Definition analyze_resume (p : Settled) (nowRecord nowLock : Z)
  : M t (option ApiResult) :=
  tryFinally
    (tryCatch
       (result <- await p ;;
        match result with
        | Some r =>
            modify (fun c => withRateLimiter
                               (RateLimiter.recordCall nowRecord (rateLimiter c))
                               c) ;;;
            modify (setLock (text r) (data r) None nowLock) ;;;
            ret result
        | None => ret result
        end)%js
       (fun _ => ret None))
    (modify (withProcessing false)).

(** A whole call of [analyze] that nothing interleaves with. *)
Definition analyze (now : Z) (p : Settled) (nowRecord nowLock : Z)
  : M t (option ApiResult) :=
  (started <- analyze_begin now ;;
   match started with
   | Declined => ret None
   | InFlight => analyze_resume p nowRecord nowLock
   end)%js.

(** The guards of [analyze] all pass. *)
Definition admitted (now : Z) (c : t) : bool :=
  enabled c && negb (isProcessing c) &&
  snd (RateLimiter.canCall now (rateLimiter c)).

(** What the request of [callVisionAPI] comes to. *)
Inductive FetchOutcome : Type :=
| NetworkError (error : JsError)
| HttpError (status : Z) (errorText : string)
| InvalidJson (error : JsError)
| ServiceFailure (error : option string)
| ServiceSuccess (txt : option string) (dat : option ResultData).

Definition isFailure (fo : FetchOutcome) : bool :=
  match fo with
  | ServiceSuccess _ _ => false
  | _ => true
  end.

(** The text [callVisionAPI] falls back to. *)
Definition fallbackText : string := "图像分析中...".

(** [callVisionAPI(data)]. *)
Definition callVisionAPI (fo : FetchOutcome) : M t ApiResult :=
  tryCatch
    match fo with
    | NetworkError error => throw error
    | HttpError status errorText =>
        throw {| message := ("API请求失败 (" ++ string_of_Z status ++ "): "
                             ++ errorText)%string |}
    | InvalidJson error => throw error
    | ServiceFailure error =>
        throw {| message := if truthyText error
                            then match error with Some m => m | None => "" end
                            else "API返回失败" |}
    | ServiceSuccess txt dat => ret {| text := txt; data := dat |}
    end
    (fun error =>
       ret {| text := Some fallbackText;
              data := Some (FallbackData (message error)) |}).

(** [callAudioAPI(data)]. *)
Definition callAudioAPI : M t ApiResult :=
  ret {| text := Some "音频分析功能开发中"; data := Some AudioStubData |}.

(** [callAPI(data)]. *)
Definition callAPI (fo : FetchOutcome) : M t ApiResult :=
  (c <- get ;;
   match type c with
   | vision => callVisionAPI fo
   | audio => callAudioAPI
   end)%js.

(** The promise [callAPI] returns, once settled. *)
Definition settle (fo : FetchOutcome) (c : t) : Settled :=
  match callAPI fo c with
  | (_, inr r) => Fulfilled (Some r)
  | (_, inl error) => Rejected error
  end.

(** [analyze] with [callAPI] as the class defines it. *)
Definition analyzeWith (now : Z) (fo : FetchOutcome) (nowRecord nowLock : Z)
  : M t (option ApiResult) :=
  (started <- analyze_begin now ;;
   match started with
   | Declined => ret None
   | InFlight =>
       c <- get ;; analyze_resume (settle fo c) nowRecord nowLock
   end)%js.

(** [stateResponses] of [updateState]. *)
Definition stateResponses (s : StateValue) : string :=
  match s with
  | idle => "观察中..."
  | cat_visual => "那里有只小猫"
  | cat_audio => "诶？我好像听到小猫叫了"
  | cat_both => "哦！是个小猫"
  end.

(** [vlmText || stateResponses[this.state.stable]]. *)
Definition finalText (vlmText : option string) (stableState : StateValue)
  : string :=
  match vlmText with
  | Some txt => if truthyText vlmText then txt else stateResponses stableState
  | None => stateResponses stableState
  end.

(** Attempts to start a call and settlements of the call in flight, in
    the order they happen on one channel; [inFlight] counts the calls
    started and not yet settled. *)
Inductive Step : Type :=
| Attempt (now : Z)
| Settle (p : Settled) (nowRecord nowLock : Z).

Fixpoint drive (c : t) (inFlight : nat) (steps : list Step) : t * nat :=
  match steps with
  | [] => (c, inFlight)
  | Attempt now :: rest =>
      match analyze_begin now c with
      | (c1, inr InFlight) => drive c1 (S inFlight) rest
      | (c1, _) => drive c1 inFlight rest
      end
  | Settle p nowRecord nowLock :: rest =>
      match inFlight with
      | O => drive c O rest
      | S k => drive (fst (analyze_resume p nowRecord nowLock c)) k rest
      end
  end.

End VLMChannel.

(** ** More of the emotion engine: [classifyEmotionCategory] and sample
       vectors *)

Module EmotionCategory.
Import Js Emotions.
Local Open Scope Q_scope.

(** [classifyEmotionCategory(features)]: [result.category.id] or null. *)
Definition classifyEmotionCategory (features : AudioFeatures)
  : option string :=
  match classifyEmotion features with
  | Some result => Some (categoryKey (category result))
  | None => None
  end.

(** [testFeatures] of the emotion test script (src/test-context.js):
    the name the script gives each vector, and the vector. *)
Definition testFeatures : list (string * AudioFeatures) :=
  [ ("Very quiet/comfortable sound", quietSample);
    ("Medium energy asking for food",
     {| zeroCrossingRate := 0.05; spectralCentroid := 2000;
        spectralRolloff := 0.4; energy := 0.0005; rms := 0.5 |});
    ("High intensity warning/fight",
     {| zeroCrossingRate := 0.09; spectralCentroid := 4500;
        spectralRolloff := 0.8; energy := 0.0009; rms := 0.9 |}) ].

(** What the script prints for an entry: the id of the result, if any. *)
Definition testOutcome (test : string * AudioFeatures) : option string :=
  match classifyEmotion (snd test) with
  | Some result => Some (resultId result)
  | None => None
  end.

(** The feature vector whose normalized values are the given ones
    (each below its cap). *)
Definition featuresOf (zcr centroid rolloff en rm : Q) : AudioFeatures :=
  {| zeroCrossingRate := zcr / 10;
     spectralCentroid := centroid * 5000;
     spectralRolloff := rolloff / 2;
     energy := en / 1000000;
     rms := rm / 1000 |}.

(** A vector classified as the given emotion, for the ids that have
    one. *)
Definition sampleFor (emotionKey : string) : AudioFeatures :=
  if String.eqb emotionKey "comfortable" then featuresOf 0 0 0 0 0
  else if String.eqb emotionKey "satisfy" then featuresOf 0 0 0 0.15 0.25
  else if String.eqb emotionKey "call" then featuresOf 0.25 0.35 0 0.25 0
  else if String.eqb emotionKey "flighty" then featuresOf 0 0.82 0 0.35 0.55
  else if String.eqb emotionKey "yummy" then featuresOf 0.35 0 0.35 0.25 0
  else if String.eqb emotionKey "hello" then featuresOf 0 0.45 0 0.35 0.55
  else if String.eqb emotionKey "for_food" then featuresOf 0.35 0 0 0.45 0.45
  else if String.eqb emotionKey "ask_for_play"
       then featuresOf 0.45 0.55 0 0.72 0.82
  else if String.eqb emotionKey "ask_for_hunting"
       then featuresOf 0.55 0.65 0 0.65 0.82
  else if String.eqb emotionKey "curious" then featuresOf 0.65 0.35 0 0.25 0
  else if String.eqb emotionKey "find_mom"
       then featuresOf 0.65 0.65 0 0.72 0.65
  else if String.eqb emotionKey "anxious"
       then featuresOf 0.65 0.72 0.65 0.45 0
  else if String.eqb emotionKey "discomfort"
       then featuresOf 0.55 0.82 0 0.35 0.65
  else if String.eqb emotionKey "courtship"
       then featuresOf 0 0.45 0.45 0.72 0.45
  else if String.eqb emotionKey "for_fight"
       then featuresOf 0.82 0.82 0.72 0.82 0.82
  else featuresOf 0.45 0.82 0 0.45 0.82.

(** The emotion ids [classifyEmotion] can return. *)
Definition liveIds : list string :=
  [ "comfortable"; "satisfy"; "call"; "flighty"; "yummy"; "hello";
    "for_food"; "ask_for_play"; "ask_for_hunting"; "curious"; "find_mom";
    "anxious"; "discomfort"; "courtship"; "for_fight"; "unhappy" ].

(** The ids of rules that an earlier rule of at least the same
    confidence always accompanies. *)
Definition shadowedIds : list string :=
  [ "dieaway"; "goout"; "warning"; "alert"; "goaway" ].

End EmotionCategory.

(** ** Sequences of cache operations *)

Module LRUSession.
Import Js LRUCache.

(** A call on a cache: [set(key, value)], [get(key)] or [clear()]. *)
Inductive Op (V : Type) : Type :=
| OpSet (key : string) (value : V)
| OpGet (key : string)
| OpClear.
Arguments OpSet {V} _ _.
Arguments OpGet {V} _.
Arguments OpClear {V}.

Definition step {V : Type} (c : t V) (op : Op V) : t V :=
  match op with
  | OpSet key value => set key value c
  | OpGet key => fst (get key c)
  | OpClear => clear c
  end.

(** The cache after the calls [ops], first to last. *)
Definition run {V : Type} (ops : list (Op V)) (c : t V) : t V :=
  fold_left step ops c.

(** The invariant of a cache: distinct keys, and no more entries than
    the capacity (one entry when the capacity is below 1). *)
Definition well_formed {V : Type} (c : t V) : Prop :=
  NoDup (getAllKeys c) /\ size c <= Z.max (maxSize c) 1.

End LRUSession.

(** ** Limiters that cannot be told apart *)

Module RateLimiterView.
Import RateLimiter.

(** Two limiters that answer alike from time [lo] on: same parameters,
    same last call, and the same calls left after any trimming at a
    time [now >= lo]. *)
Definition same_answers (lo : Z) (r r' : t) : Prop :=
  minIntervalMs r = minIntervalMs r' /\
  maxPerMinute r = maxPerMinute r' /\
  lastCallTime r = lastCallTime r' /\
  forall now, lo <= now ->
    filter (withinMinute now) (callsInLastMinute r) =
    filter (withinMinute now) (callsInLastMinute r').

End RateLimiterView.

(** ** Calls of [analyze] made one after another on a channel *)

Module VLMSession.
Import Effects VLMChannel.

(** One whole call of [analyze]: the clock at its guards, how [callAPI]
    settles, and the clock as [recordCall] and [setLock] read it. *)
Record Call : Type := mkCall {
  callAt : Z;
  settled : Settled;
  recordAt : Z;
  lockAt : Z
}.

(** The channel after the calls, and what each of them returned. *)
Fixpoint session (c : t) (calls : list Call)
  : t * list (Call * (JsError + option ApiResult)) :=
  match calls with
  | [] => (c, [])
  | k :: rest =>
      let '(c1, answer) :=
        analyze (callAt k) (settled k) (recordAt k) (lockAt k) c in
      let '(c2, log) := session c1 rest in
      (c2, (k, answer) :: log)
  end.

(** [analyze] returned a result, not null. *)
Definition succeeded (answer : JsError + option ApiResult) : bool :=
  match answer with
  | inr (Some _) => true
  | _ => false
  end.

(** When the calls that returned a result were recorded. *)
Definition successTimes (log : list (Call * (JsError + option ApiResult)))
  : list Z :=
  map (fun ka => recordAt (fst ka)) (filter (fun ka => succeeded (snd ka)) log).

(** The clock never runs backwards: each call starts no earlier than
    [lo] and than the previous call was recorded, and is recorded no
    earlier than it starts. *)
Fixpoint ordered (lo : Z) (calls : list Call) : Prop :=
  match calls with
  | [] => True
  | k :: rest =>
      lo <= callAt k /\ callAt k <= recordAt k /\ ordered (recordAt k) rest
  end.

End VLMSession.

(** ** The four-state classifier ([class StateManager], state-manager.js) *)

Module StateManager.
Import Js Debounce.
Local Open Scope Q_scope.

Record Config : Type := mkConfig {
  CAT_DETECTION_THRESHOLD : Q;
  CAT_SOUND_THRESHOLD : Q
}.

(** [x || d] on a number: [undefined] and 0 give the default. *)
Definition orDefault (x : option Q) (d : Q) : Q :=
  match x with
  | Some v => if Qeq_bool v 0 then d else v
  | None => d
  end.

(** [new StateManager(config)] for a [config] with at most the keys
    [catDetectionThreshold] and [catSoundThreshold]. *)
Definition create (catDetectionThreshold catSoundThreshold : option Q)
  : Config :=
  {| CAT_DETECTION_THRESHOLD := orDefault catDetectionThreshold 0.3;
     CAT_SOUND_THRESHOLD := orDefault catSoundThreshold 0.2 |}.

Definition catKeywords : list string :=
  [ "cat"; "cats"; "domestic_cat"; "persian_cat"; "siamese_cat";
    "tabby_cat"; "kitten"; "feline" ]%string.

Definition catSoundKeywords : list string :=
  [ "cat"; "meow"; "purr"; "purring"; "mew"; "mewing"; "feline";
    "cat_vocalization" ]%string.

(** [isCatClass(className)]. *)
Definition isCatClass (className : string) : bool :=
  let lowerClassName := toLowerCase className in
  existsb (fun keyword => includes lowerClassName keyword) catKeywords.

(** [isCatSoundClass(className)]. *)
Definition isCatSoundClass (className : string) : bool :=
  let lowerClassName := toLowerCase className in
  existsb (fun keyword => includes lowerClassName keyword) catSoundKeywords.

(** [hasVisualCat(currentImageMap)]; [None] stands for a null map. *)
Definition hasVisualCat (cfg : Config) (currentImageMap : option (Map Q))
  : bool :=
  match currentImageMap with
  | None => false
  | Some m =>
      if (length m =? 0)%nat then false
      else existsb (fun kv =>
                      isCatClass (fst kv) &&
                      Qltb (CAT_DETECTION_THRESHOLD cfg) (snd kv)) m
  end.

(** [hasCatSound(currentAudioMap)]. *)
Definition hasCatSound (cfg : Config) (currentAudioMap : option (Map Q))
  : bool :=
  match currentAudioMap with
  | None => false
  | Some m =>
      if (length m =? 0)%nat then false
      else existsb (fun kv =>
                      isCatSoundClass (fst kv) &&
                      Qltb (CAT_SOUND_THRESHOLD cfg) (snd kv)) m
  end.

(** [analyzeCurrentState(currentImageMap, currentAudioMap)]. *)
Definition analyzeCurrentState (cfg : Config)
    (currentImageMap currentAudioMap : option (Map Q)) : StateValue :=
  let hasVisual := hasVisualCat cfg currentImageMap in
  let hasAudio := hasCatSound cfg currentAudioMap in
  determineState hasVisual hasAudio.

End StateManager.

(** ** The audio trigger ([class AudioTrigger], audio-trigger.js) *)

Module AudioTrigger.
Import Js Emotions.
Local Open Scope Q_scope.

Record Config : Type := mkConfig {
  CAT_SOUND_THRESHOLD : Q;
  MIN_CONFIDENCE_FOR_EMOTION : Q
}.

Record Stats : Type := mkStats {
  totalAudioProcessed : Z;
  catSoundDetected : Z;
  emotionTriggered : Z;
  lastTriggerTime : Z
}.

(** The trigger, without its feature cache: what [extractAudioFeatures]
    returns is handed to the functions below. *)
Record t : Type := mkTrigger {
  config : Config;
  stats : Stats
}.

(** [new AudioTrigger(config)] for a [config] with at most the keys
    [catSoundThreshold] and [minConfidenceForEmotion]. *)
Definition create (catSoundThreshold minConfidenceForEmotion : option Q) : t :=
  {| config :=
       {| CAT_SOUND_THRESHOLD := StateManager.orDefault catSoundThreshold 0.2;
          MIN_CONFIDENCE_FOR_EMOTION :=
            StateManager.orDefault minConfidenceForEmotion 0.5 |};
     stats := {| totalAudioProcessed := 0; catSoundDetected := 0;
                 emotionTriggered := 0; lastTriggerTime := 0 |} |}.

Definition catSoundKeywords : list string :=
  [ "cat"; "meow"; "purr"; "purring"; "mew"; "mewing"; "feline";
    "cat_vocalization"; "kitten" ]%string.

(** [hasCatSound(audioResults)]; [None] stands for a null array. *)
Definition hasCatSound (a : t) (audioResults : option (list (string * Q)))
  : bool :=
  match audioResults with
  | None => false
  | Some results =>
      if (length results =? 0)%nat then false
      else existsb (fun result =>
                      let className := toLowerCase (fst result) in
                      existsb (fun keyword => includes className keyword)
                              catSoundKeywords &&
                      Qltb (CAT_SOUND_THRESHOLD (config a)) (snd result))
                   results
  end.

(** The object [generateEmotionResponse] builds, without its [text]
    (icon and title of the emotion). *)
Record EmotionResponse : Type := mkEmotionResponse {
  responseEmotion : Emotion;
  responseConfidence : Q;
  responseCategory : EmotionCategory;
  audioFeatures : AudioFeatures;
  responseTimestamp : Z;
  triggerStats : Stats
}.

(** [triggerEmotionAnalysis(audioBuffer)], given what
    [extractAudioFeatures(audioBuffer)] returns ([None] for null) and
    the two readings of the clock. *)
Definition triggerEmotionAnalysis (extracted : option AudioFeatures)
    (nowTrigger nowResponse : Z) (a : t) : t * option EmotionResponse :=
  match extracted with
  | None => (a, None)
  | Some features =>
      match classifyEmotion features with
      | None => (a, None)
      | Some emotionResult =>
          if Qltb (confidence emotionResult)
                  (MIN_CONFIDENCE_FOR_EMOTION (config a))
          then (a, None)
          else
            let st := {| totalAudioProcessed := totalAudioProcessed (stats a);
                         catSoundDetected := catSoundDetected (stats a);
                         emotionTriggered := emotionTriggered (stats a) + 1;
                         lastTriggerTime := nowTrigger |} in
            ({| config := config a; stats := st |},
             Some {| responseEmotion := emotion emotionResult;
                     responseConfidence := confidence emotionResult;
                     responseCategory := category emotionResult;
                     audioFeatures := features;
                     responseTimestamp := nowResponse;
                     triggerStats := st |})
      end
  end.

(** One call of [processAudioResult]: the classifier's results, the
    length of the audio buffer ([None] for no buffer), and what the
    feature extraction returns on it. *)
Record Input : Type := mkInput {
  audioResults : option (list (string * Q));
  bufferLength : option nat;
  extracted : option AudioFeatures;
  nowTrigger : Z;
  nowResponse : Z
}.

(** [processAudioResult(audioResults, audioBuffer)]. *)
Definition processAudioResult (i : Input) (a : t)
  : t * option EmotionResponse :=
  let a1 :=
    {| config := config a;
       stats := {| totalAudioProcessed := totalAudioProcessed (stats a) + 1;
                   catSoundDetected := catSoundDetected (stats a);
                   emotionTriggered := emotionTriggered (stats a);
                   lastTriggerTime := lastTriggerTime (stats a) |} |} in
  if negb (hasCatSound a1 (audioResults i)) then (a1, None)
  else
    let a2 :=
      {| config := config a1;
         stats := {| totalAudioProcessed := totalAudioProcessed (stats a1);
                     catSoundDetected := catSoundDetected (stats a1) + 1;
                     emotionTriggered := emotionTriggered (stats a1);
                     lastTriggerTime := lastTriggerTime (stats a1) |} |} in
    match bufferLength i with
    | None => (a2, None)
    | Some O => (a2, None)
    | Some (S _) =>
        triggerEmotionAnalysis (extracted i) (nowTrigger i) (nowResponse i) a2
    end.

(** A response came back, not null. *)
Definition responded (r : option EmotionResponse) : bool :=
  match r with
  | Some _ => true
  | None => false
  end.

(** Calls of [processAudioResult] one after another: the trigger at the
    end and the results, first to last. *)
Fixpoint processAll (inputs : list Input) (a : t)
  : t * list (option EmotionResponse) :=
  match inputs with
  | [] => (a, [])
  | i :: rest =>
      let '(a1, r) := processAudioResult i a in
      let '(a2, rs) := processAll rest a1 in
      (a2, r :: rs)
  end.

End AudioTrigger.

(** ** What a committed transition sets off ([handleStateChange] of
       mewt-engine.js, [VLMTriggerObserver.notify]) and the response
       de-duplication at the end of [updateState] *)

Module StateChange.
Import Js Debounce.

(** Why the deep analysis is asked for. *)
Inductive Reason : Type := CatAppeared | CatLost.

(** [state === 'cat_visual' || state === 'cat_both']. *)
Definition isVisual (s : StateValue) : bool :=
  StateValue_eqb s cat_visual || StateValue_eqb s cat_both.

(** The two branches that log "[VLM Trigger] ..." and, given a frame,
    call [analyze]. *)
Definition triggerOf (e : TransitionEvent) : option Reason :=
  let hasVisual := isVisual (newState e) in
  let hadVisual := isVisual (oldState e) in
  if hasVisual && negb hadVisual then Some CatAppeared
  else if negb hasVisual && hadVisual then Some CatLost
  else None.

(** The triggers of a list of transitions, in order. *)
Fixpoint triggers (events : list TransitionEvent) : list Reason :=
  match events with
  | [] => []
  | e :: rest =>
      match triggerOf e with
      | Some r => r :: triggers rest
      | None => triggers rest
      end
  end.

(** Transitions that follow one another from the state [from]: each
    leaves the state the one before it entered, and none stays where it
    is. *)
Fixpoint chained (from : StateValue) (events : list TransitionEvent) : Prop :=
  match events with
  | [] => True
  | e :: rest =>
      oldState e = from /\ newState e <> oldState e /\
      chained (newState e) rest
  end.

(** The state the transitions end in. *)
Definition endState (from : StateValue) (events : list TransitionEvent)
  : StateValue :=
  fold_left (fun _ e => newState e) events from.

Definition other (r : Reason) : Reason :=
  match r with
  | CatAppeared => CatLost
  | CatLost => CatAppeared
  end.

(** The reasons take turns, starting with [next]. *)
Fixpoint alternates (next : Reason) (l : list Reason) : Prop :=
  match l with
  | [] => True
  | r :: rest => r = next /\ alternates (other next) rest
  end.

(** [this.lastResponse] and the texts handed to
    [callbacks.onPredictionUpdate], oldest first. *)
Record Ui : Type := mkUi {
  lastResponse : string;
  notified : list string
}.

(** The constructor's [this.lastResponse = '']. *)
Definition initialUi : Ui := {| lastResponse := ""; notified := [] |}.

(** The end of [updateState]: the final text and the response
    de-duplication, with a UI callback in place. *)
Definition respond (vlmText : option string) (stableState : StateValue)
    (u : Ui) : Ui :=
  let finalText := VLMChannel.finalText vlmText stableState in
  if negb (String.eqb finalText "") &&
     negb (String.eqb finalText (lastResponse u))
  then {| lastResponse := finalText; notified := notified u ++ [finalText] |}
  else u.

(** One [respond] after another. *)
Definition respondAll (inputs : list (option string * StateValue)) (u : Ui)
  : Ui :=
  fold_left (fun acc i => respond (fst i) (snd i) acc) inputs u.

(** No text twice in a row. *)
Fixpoint noRepeat (l : list string) : Prop :=
  match l with
  | a :: (b :: _) as rest => a <> b /\ noRepeat rest
  | _ => True
  end.

End StateChange.

(* ================================================================== *)
(** * Part II: properties                                              *)
(* ================================================================== *)

Module DebounceFacts.
Import Debounce.

Lemma StateValue_eqb_spec (a b : StateValue) :
  reflect (a = b) (StateValue_eqb a b).
Proof. destruct a, b; simpl; constructor; congruence. Qed.

Lemma debounce_retarget (d : Z) (raw : StateValue) (now : Z) (s : EngineState) :
  debounce d raw now s =
  debounce d raw now
    (if StateValue_eqb raw (pending s) then s
     else {| stable := stable s; pending := raw;
             lastStable := lastStable s; changeTime := now |}).
Proof.
  unfold debounce.
  destruct (StateValue_eqb_spec raw (pending s)) as [E | E]; simpl.
  - destruct (StateValue_eqb_spec raw (pending s)); [reflexivity | contradiction].
  - destruct (StateValue_eqb_spec raw raw); [reflexivity | contradiction].
Qed.

(** One update, seen from a state whose [stable] and [lastStable] agree. *)
Lemma debounce_step (d : Z) (raw : StateValue) (now : Z) (s : EngineState) :
  let c := if StateValue_eqb raw (pending s) then changeTime s else now in
  stable s = lastStable s ->
  (d <= now - c /\
   debounce d raw now s =
     ({| stable := raw; pending := raw; lastStable := raw; changeTime := c |},
      if StateValue_eqb raw (stable s) then []
      else [ {| newState := raw; oldState := stable s |} ]))
  \/
  (now - c < d /\
   debounce d raw now s =
     ({| stable := stable s; pending := raw;
         lastStable := lastStable s; changeTime := c |}, [])).
Proof.
  intros c Hinv. subst c. unfold debounce.
  destruct s as [st pe ls ct]; simpl in *. subst ls.
  destruct (StateValue_eqb_spec raw pe) as [E | E]; simpl.
  - subst pe. destruct (Z.leb_spec d (now - ct)); [left | right]; split; auto.
    destruct (StateValue_eqb_spec raw st); simpl; [subst; reflexivity | reflexivity].
  - destruct (Z.leb_spec d (now - now)); [left | right]; split; auto.
    destruct (StateValue_eqb_spec raw st); simpl; [subst; reflexivity | reflexivity].
Qed.

(** Updates that repeat the raw state the machine has already committed
    change nothing. *)
Lemma run_settled (d : Z) (raw : StateValue) (ts : list Z) (s : EngineState) :
  pending s = raw -> stable s = raw -> lastStable s = raw ->
  run d s (map (pair raw) ts) = (s, []).
Proof.
  intros Hp Hs Hl. induction ts as [| t ts IH]; simpl; [reflexivity |].
  pose proof (debounce_step d raw t s) as Hstep. simpl in Hstep.
  rewrite Hp in Hstep.
  destruct (StateValue_eqb_spec raw raw) as [_ | N]; [| contradiction].
  destruct Hstep as [[_ E] | [_ E]]; [congruence | |]; rewrite E.
  - rewrite Hs.
    destruct (StateValue_eqb_spec raw raw) as [_ | N]; [| contradiction].
    replace {| stable := raw; pending := raw; lastStable := raw;
               changeTime := changeTime s |} with s
      by (destruct s; simpl in *; congruence).
    rewrite IH. reflexivity.
  - replace {| stable := stable s; pending := raw; lastStable := lastStable s;
               changeTime := changeTime s |} with s
      by (destruct s; simpl in *; congruence).
    rewrite IH. reflexivity.
Qed.

(** Updates that repeat the pending raw state while it still differs
    from the stable one: the first update that finds the debounce
    interval elapsed commits and fires, the others do nothing. *)
Lemma run_waiting (d : Z) (raw : StateValue) (ts : list Z) :
  forall s : EngineState,
    pending s = raw -> stable s = lastStable s -> stable s <> raw ->
    (Exists (fun t => d <= t - changeTime s) ts /\
     run d s (map (pair raw) ts) =
       ({| stable := raw; pending := raw; lastStable := raw;
           changeTime := changeTime s |},
        [ {| newState := raw; oldState := stable s |} ]))
    \/
    (Forall (fun t => t - changeTime s < d) ts /\
     run d s (map (pair raw) ts) = (s, [])).
Proof.
  induction ts as [| t ts IH]; intros s Hp Hinv Hne; simpl.
  - right. split; [constructor | reflexivity].
  - pose proof (debounce_step d raw t s) as Hstep. simpl in Hstep.
    rewrite Hp in Hstep.
    destruct (StateValue_eqb_spec raw raw) as [_ | N]; [| contradiction].
    destruct (Hstep Hinv) as [[Hle E] | [Hlt E]]; rewrite E; clear Hstep.
    + left. split; [apply Exists_cons_hd; exact Hle |].
      destruct (StateValue_eqb_spec raw (stable s)) as [E' | _];
        [symmetry in E'; contradiction |].
      rewrite run_settled by reflexivity. reflexivity.
    + replace {| stable := stable s; pending := raw; lastStable := lastStable s;
                 changeTime := changeTime s |} with s
        by (destruct s; simpl in *; congruence).
      destruct (IH s Hp Hinv Hne) as [[Hex R] | [Hall R]]; rewrite R.
      * left. split; [apply Exists_cons_tl; exact Hex | reflexivity].
      * right. split; [constructor; assumption | reflexivity].
Qed.

Lemma flaps_tail (d : Z) (u : StateValue * Z) (l : list (StateValue * Z)) :
  flaps d (u :: l) -> flaps d l.
Proof.
  intros H i j ri ti rj tj Hij Hi Hj Hsame.
  apply (H (S i) (S j) ri ti rj tj); simpl; auto with arith.
  intros k rk tk [Hk1 Hk2] Hk. destruct k as [| k]; [lia |].
  simpl in Hk. apply (Hsame k rk tk); [lia | exact Hk].
Qed.

(** Flapping input, seen from any state the induction passes through:
    either the pending state is the stable one, or it has been pending
    since [changeTime] and the stretch that continues it stays short. *)
Lemma run_flaps (d : Z) (l : list (StateValue * Z)) :
  forall s : EngineState,
    stable s = lastStable s ->
    flaps d l ->
    (pending s = stable s \/
     forall j rj tj,
       nth_error l j = Some (rj, tj) ->
       (forall k rk tk, (k <= j)%nat ->
                        nth_error l k = Some (rk, tk) -> rk = pending s) ->
       tj - changeTime s < d) ->
    snd (run d s l) = [] /\ stable (fst (run d s l)) = stable s.
Proof.
  induction l as [| [r t] l IH]; intros s Hinv Hfl Hcur; simpl.
  - split; reflexivity.
  - pose proof (debounce_step d r t s) as Hstep. simpl in Hstep.
    specialize (Hstep Hinv).
    assert (Hself : 0 < d).
    { pose proof (Hfl 0%nat 0%nat r t r t (le_n 0) eq_refl eq_refl) as H0.
      assert (t - t < d) as H1.
      { apply H0. intros k rk tk Hk E. assert (k = 0)%nat by lia. subst k.
        simpl in E. congruence. }
      lia. }
    destruct (StateValue_eqb_spec r (pending s)) as [Ep | Np].
    + (* the update continues the pending state *)
      destruct Hstep as [[Hle E] | [Hlt E]]; rewrite E; clear E.
      * destruct Hcur as [Hps | Hfresh].
        -- assert (Ers : r = stable s) by congruence.
           destruct (StateValue_eqb_spec r (stable s)) as [_ | N];
             [| contradiction].
           destruct (IH {| stable := r; pending := r; lastStable := r;
                           changeTime := changeTime s |})
             as [Hev Hst];
             [reflexivity | eapply flaps_tail; eassumption
              | left; reflexivity |].
           destruct (run d _ l) as [s2 ev2]; simpl in *.
           split; [exact Hev | congruence].
        -- exfalso.
           assert (t - changeTime s < d); [| lia].
           apply (Hfresh 0%nat r t eq_refl).
           intros k rk tk Hk Ek. assert (k = 0)%nat by lia. subst k.
           simpl in Ek. congruence.
      * destruct (IH {| stable := stable s; pending := r;
                        lastStable := lastStable s;
                        changeTime := changeTime s |})
          as [Hev Hst];
          [exact Hinv | eapply flaps_tail; eassumption | |].
        -- simpl. destruct Hcur as [Hps | Hfresh]; [left; congruence | right].
           intros j rj tj Hj Hsame.
           apply (Hfresh (S j) rj tj Hj).
           intros k rk tk Hk Ek. destruct k as [| k]; simpl in Ek.
           ++ congruence.
           ++ rewrite <- Ep. apply (Hsame k rk tk); [lia | exact Ek].
        -- destruct (run d _ l) as [s2 ev2]; simpl in *.
           split; [exact Hev | exact Hst].
    + (* the update changes the pending state: the timer restarts *)
      destruct Hstep as [[Hle E] | [Hlt E]]; [lia |]. rewrite E; clear E.
      destruct (IH {| stable := stable s; pending := r;
                      lastStable := lastStable s; changeTime := t |})
        as [Hev Hst];
        [exact Hinv | eapply flaps_tail; eassumption | |].
      * simpl. right. intros j rj tj Hj Hsame.
        apply (Hfl 0%nat (S j) r t rj tj); [lia | reflexivity | exact Hj |].
        intros k rk tk Hk Ek. destruct k as [| k]; simpl in Ek.
        -- congruence.
        -- apply (Hsame k rk tk); [lia | exact Ek].
      * destruct (run d _ l) as [s2 ev2]; simpl in *.
        split; [exact Hev | exact Hst].
Qed.

Lemma run_retarget (d : Z) (raw : StateValue) (t0 : Z) (ts : list Z)
    (s : EngineState) :
  run d s (map (pair raw) (t0 :: ts)) =
  run d (if StateValue_eqb raw (pending s) then s
         else {| stable := stable s; pending := raw;
                 lastStable := lastStable s; changeTime := t0 |})
        (map (pair raw) (t0 :: ts)).
Proof. simpl. rewrite <- debounce_retarget. reflexivity. Qed.

Lemma debounce_keeps_agreement (d : Z) (raw : StateValue) (now : Z)
    (s : EngineState) :
  stable s = lastStable s ->
  stable (fst (debounce d raw now s)) = lastStable (fst (debounce d raw now s)).
Proof.
  intros Hinv.
  destruct (debounce_step d raw now s Hinv) as [[_ E] | [_ E]];
    rewrite E; simpl; auto.
Qed.

Lemma run_keeps_agreement (d : Z) (l : list (StateValue * Z)) :
  forall s : EngineState,
    stable s = lastStable s ->
    stable (fst (run d s l)) = lastStable (fst (run d s l)).
Proof.
  induction l as [| [r t] l IH]; intros s Hinv; simpl; [exact Hinv |].
  pose proof (debounce_keeps_agreement d r t s Hinv) as H1.
  destruct (debounce d r t s) as [s1 ev1]; simpl in H1.
  specialize (IH s1 H1). destruct (run d s1 l) as [s2 ev2]. exact IH.
Qed.

(** C1.  The debounced state machine of [MewtEngine.updateState].
    One update: a raw state different from [pending] becomes the pending
    state and restarts the timer at [now], an equal one leaves both
    alone; [stable] changes only when [now - changeTime >= debounce], and
    then to [pending]; from a state in which [stable] and [lastStable]
    agree (every state reached from the constructor's) an update that
    changes [stable] fires exactly one transition event (old, new) and
    any other update fires none.  The default interval is 2000 ms.
    Sequences: a raw state that flaps faster than the interval never
    fires and never changes [stable]; a new raw state held until some
    update finds the interval elapsed fires exactly one transition, to
    that state; updates that repeat one raw state fire at most once. *)
Theorem debounced_state_machine (d : Z) :
  (forall (raw : StateValue) (now : Z) (s : EngineState),
     let s' := fst (debounce d raw now s) in
     let fired := snd (debounce d raw now s) in
     (raw <> pending s -> pending s' = raw /\ changeTime s' = now) /\
     (raw = pending s ->
      pending s' = pending s /\ changeTime s' = changeTime s) /\
     (stable s' <> stable s ->
      d <= now - changeTime s' /\ stable s' = pending s') /\
     (d <= now - changeTime s' -> stable s' = pending s') /\
     (stable s = lastStable s ->
      stable s' = lastStable s' /\
      (stable s' <> stable s ->
       fired = [ {| newState := stable s'; oldState := stable s |} ]) /\
      (stable s' = stable s -> fired = [])))
  /\ STATE_DEBOUNCE_MS None = 2000
  /\ (forall updates : list (StateValue * Z),
        let s := fst (run d initialState updates) in
        stable s = lastStable s)
  /\ (forall (s : EngineState) (updates : list (StateValue * Z)),
        stable s = lastStable s -> pending s = stable s ->
        flaps d updates ->
        snd (run d s updates) = [] /\
        stable (fst (run d s updates)) = stable s)
  /\ (forall (s : EngineState) (raw : StateValue) (t0 : Z) (ts : list Z),
        stable s = lastStable s -> raw <> stable s -> raw <> pending s ->
        Exists (fun t => d <= t - t0) (t0 :: ts) ->
        snd (run d s (map (pair raw) (t0 :: ts))) =
          [ {| newState := raw; oldState := stable s |} ] /\
        stable (fst (run d s (map (pair raw) (t0 :: ts)))) = raw)
  /\ (forall (s : EngineState) (raw : StateValue) (ts : list Z),
        stable s = lastStable s ->
        (length (snd (run d s (map (pair raw) ts))) <= 1)%nat).
Proof.
  repeat apply conj.
  - intros raw now s s' fired. subst s' fired. unfold debounce.
    destruct s as [st pe ls ct]; simpl.
    destruct (StateValue_eqb_spec raw pe) as [E | E]; simpl;
      [destruct (Z.leb_spec d (now - ct)) | destruct (Z.leb_spec d (now - now))];
      simpl;
      try (destruct (StateValue_eqb_spec pe ls));
      try (destruct (StateValue_eqb_spec raw ls));
      simpl; repeat split; intros; subst;
      try congruence; try lia; try contradiction.
  - reflexivity.
  - intros updates s. subst s. apply run_keeps_agreement. reflexivity.
  - intros s updates Hinv Hp Hfl. apply run_flaps; auto.
  - intros s raw t0 ts Hinv Hns Hnp Hex.
    rewrite run_retarget.
    destruct (StateValue_eqb_spec raw (pending s)) as [E | _];
      [contradiction |].
    set (s1 := {| stable := stable s; pending := raw;
                  lastStable := lastStable s; changeTime := t0 |}).
    destruct (run_waiting d raw (t0 :: ts) s1 eq_refl Hinv
                (fun E => Hns (eq_sym E)))
      as [[_ R] | [Hall _]].
    + rewrite R. simpl. split; reflexivity.
    + exfalso. apply Exists_exists in Hex. destruct Hex as [t [Hin Hle]].
      rewrite Forall_forall in Hall. specialize (Hall t Hin). simpl in Hall.
      lia.
  - intros s raw ts Hinv. destruct ts as [| t0 ts]; [simpl; lia |].
    rewrite run_retarget.
    set (s1 := if StateValue_eqb raw (pending s) then s
               else {| stable := stable s; pending := raw;
                       lastStable := lastStable s; changeTime := t0 |}).
    assert (Hp1 : pending s1 = raw)
      by (subst s1; destruct (StateValue_eqb_spec raw (pending s)); simpl; auto).
    assert (Hs1 : stable s1 = stable s)
      by (subst s1; destruct (StateValue_eqb raw (pending s)); reflexivity).
    assert (Hl1 : lastStable s1 = lastStable s)
      by (subst s1; destruct (StateValue_eqb raw (pending s)); reflexivity).
    destruct (StateValue_eqb_spec (stable s) raw) as [E | N].
    + rewrite run_settled by congruence. simpl. lia.
    + destruct (run_waiting d raw (t0 :: ts) s1) as [[_ R] | [_ R]];
        try congruence; rewrite R; simpl; lia.
Qed.

(** The default interval, a visual detection first seen at 1000 ms and
    held through 3000 ms: exactly one transition, idle to cat_visual. *)
Lemma debounced_state_machine_witness :
  snd (run 2000 initialState
         (map (pair cat_visual) [1000; 2000; 3000])) =
    [ {| newState := cat_visual; oldState := idle |} ] /\
  stable (fst (run 2000 initialState
                 (map (pair cat_visual) [1000; 2000; 3000]))) = cat_visual.
Proof.
  apply (proj1 (proj2 (proj2 (proj2 (proj2 (debounced_state_machine 2000))))));
    simpl; try congruence.
  apply Exists_cons_tl, Exists_cons_tl, Exists_cons_hd. lia.
Defined.

(** A visual detection that comes and goes within the default
    interval: no stretch of equal raw states lasts 2000 ms, and nothing
    is ever committed. *)
Example flapping_never_commits :
  let updates := [(cat_visual, 1000); (idle, 1500);
                  (cat_visual, 2500); (cat_visual, 4000)] in
  flaps 2000 updates /\
  snd (run 2000 initialState updates) = [] /\
  stable (fst (run 2000 initialState updates)) = idle.
Proof.
  intros updates.
  assert (Hfl : flaps 2000 updates).
  { intros i j ri ti rj tj Hij Hi Hj Hsame.
    assert (H1 := Hsame 1%nat idle 1500).
    assert (H3 := Hsame 3%nat cat_visual 4000).
    destruct i as [| [| [| [| i]]]]; simpl in Hi; try (destruct i; discriminate);
      injection Hi as <- <-;
      destruct j as [| [| [| [| j]]]]; simpl in Hj;
        try (destruct j; discriminate);
        injection Hj as <- <-; try lia;
        try (exfalso; assert (idle = cat_visual) by (apply H1; [lia | reflexivity]);
             discriminate);
        try (exfalso; assert (cat_visual = idle) by (apply H3; [lia | reflexivity]);
             discriminate). }
  split; [exact Hfl |].
  apply run_flaps; [reflexivity | exact Hfl | left; reflexivity].
Qed.

End DebounceFacts.

Module RateLimiterFacts.
Import RateLimiter.

Lemma filter_length_mono {A : Type} (p q : A -> bool) (l : list A) :
  (forall x, In x l -> p x = true -> q x = true) ->
  (length (filter p l) <= length (filter q l))%nat.
Proof.
  induction l as [| x l IH]; intros H; simpl; [lia |].
  assert (IH' := IH (fun y Hy => H y (or_intror Hy))).
  destruct (p x) eqn:Ep.
  - rewrite (H x (or_introl eq_refl) Ep). simpl. lia.
  - destruct (q x); simpl; lia.
Qed.

Lemma filter_filter_weaker {A : Type} (p q : A -> bool) (l : list A) :
  (forall x, p x = true -> q x = true) ->
  filter p (filter q l) = filter p l.
Proof.
  intros H. induction l as [| x l IH]; simpl; [reflexivity |].
  destruct (q x) eqn:Eq; simpl.
  - rewrite IH. reflexivity.
  - destruct (p x) eqn:Ep; [| exact IH].
    rewrite (H x Ep) in Eq. discriminate.
Qed.

(** [canCall()] read as a decision: it answers [false] exactly when the
    last recorded call is too close or the kept list is full. *)
Lemma canCall_answer (now : Z) (r : t) :
  snd (canCall now r) = false <->
  now - lastCallTime r < minIntervalMs r \/
  maxPerMinute r <=
    Z.of_nat (length (filter (withinMinute now) (callsInLastMinute r))).
Proof.
  unfold canCall.
  destruct (Z.ltb_spec (now - lastCallTime r) (minIntervalMs r)); simpl.
  - split; auto.
  - destruct (Z.leb_spec (maxPerMinute r)
                (Z.of_nat (length (filter (withinMinute now)
                                     (callsInLastMinute r))))); simpl.
    + split; auto.
    + split; [discriminate | intros [? | ?]; lia].
Qed.

Lemma canCall_params (now : Z) (r : t) :
  minIntervalMs (fst (canCall now r)) = minIntervalMs r /\
  maxPerMinute (fst (canCall now r)) = maxPerMinute r /\
  lastCallTime (fst (canCall now r)) = lastCallTime r.
Proof.
  unfold canCall.
  destruct (now - lastCallTime r <? minIntervalMs r); simpl; auto.
  destruct (maxPerMinute r <=? _); simpl; auto.
Qed.

Lemma canCall_agrees (lo now : Z) (r : t) (recs : list Z) :
  agrees lo r recs -> lo <= now -> agrees now (fst (canCall now r)) recs.
Proof.
  intros (Hlo & Hlast & Hmax & Hfil) Hle.
  destruct (canCall_params now r) as (_ & _ & El).
  unfold agrees. rewrite El. repeat split; auto.
  - eapply Forall_impl; [| exact Hlo]. simpl. intros; lia.
  - intros now' Hnow'. unfold canCall.
    destruct (now - lastCallTime r <? minIntervalMs r); simpl.
    + apply Hfil; lia.
    + assert (E : filter (withinMinute now')
                    (filter (withinMinute now) (callsInLastMinute r)) =
                  filter (withinMinute now') recs).
      { rewrite filter_filter_weaker; [apply Hfil; lia |].
        unfold withinMinute. intros x Hx.
        apply Z.ltb_lt in Hx. apply Z.ltb_lt. lia. }
      destruct (maxPerMinute r <=? _); simpl; exact E.
Qed.

Lemma recordCall_agrees (lo now : Z) (r : t) (recs : list Z) :
  agrees lo r recs -> lo <= now ->
  agrees now (recordCall now r) (recs ++ [now]).
Proof.
  intros (Hlo & Hlast & Hmax & Hfil) Hle.
  unfold agrees, recordCall; simpl. repeat split.
  - apply Forall_app. split; [| repeat constructor; lia].
    eapply Forall_impl; [| exact Hlo]. simpl. intros; lia.
  - rewrite last_last. reflexivity.
  - apply Forall_app. split; [| repeat constructor; lia].
    eapply Forall_impl; [| exact Hlo]. simpl. intros; lia.
  - intros now' Hnow'. rewrite !filter_app. f_equal. apply Hfil. lia.
Qed.

Lemma chronological_tail (o : Op) (ops : list Op) :
  chronological (o :: ops) ->
  chronological ops /\ forall o', In o' ops -> time_of o <= time_of o'.
Proof.
  intros H. split.
  - intros i j a b Hij Ha Hb. apply (H (S i) (S j) a b); simpl; auto with arith.
  - intros o' Hin. apply In_nth_error in Hin. destruct Hin as [n Hn].
    apply (H 0%nat (S n) o o'); simpl; auto with arith.
Qed.

Lemma exec_params (ops : list Op) :
  forall r : t,
    minIntervalMs (fst (exec r ops)) = minIntervalMs r /\
    maxPerMinute (fst (exec r ops)) = maxPerMinute r.
Proof.
  induction ops as [| [now | now] ops IH]; intros r; simpl; auto.
  - destruct (canCall_params now r) as (E1 & E2 & _).
    destruct (canCall now r) as [r1 b]; simpl in *.
    specialize (IH r1). destruct (exec r1 ops) as [r2 log]; simpl in *.
    rewrite <- E1, <- E2. exact IH.
  - specialize (IH (recordCall now r)).
    destruct (exec (recordCall now r) ops) as [r2 log]; simpl in *. exact IH.
Qed.

Lemma last_cons_default {A : Type} (l : list A) :
  forall a d : A, last (a :: l) d = last l a.
Proof.
  induction l as [| b l IH]; intros a d; [reflexivity |].
  change (last (a :: b :: l) d) with (last (b :: l) d).
  rewrite (IH b d), (IH b a). reflexivity.
Qed.

(** The stored list keeps agreeing with the history along any
    chronological sequence of invocations. *)
Lemma exec_agrees (ops : list Op) :
  forall (r : t) (recs : list Z) (lo : Z),
    agrees lo r recs ->
    chronological ops ->
    (forall o, In o ops -> lo <= time_of o) ->
    agrees (last (map time_of ops) lo) (fst (exec r ops))
           (recs ++ recorded (snd (exec r ops))).
Proof.
  induction ops as [| o ops IH]; intros r recs lo Hag Hchr Hlo.
  - simpl. rewrite app_nil_r. exact Hag.
  - destruct (chronological_tail o ops Hchr) as [Hchr' Hnext].
    assert (Hlo_o : lo <= time_of o) by (apply Hlo; left; reflexivity).
    assert (Elast : last (map time_of (o :: ops)) lo =
                    last (map time_of ops) (time_of o)).
    { apply last_cons_default. }
    rewrite Elast. destruct o as [now | now]; simpl in *.
    + pose proof (canCall_agrees lo now r recs Hag Hlo_o) as Hag1.
      destruct (canCall now r) as [r1 b]; simpl in *.
      specialize (IH r1 recs now Hag1 Hchr' Hnext).
      destruct (exec r1 ops) as [r2 log]; simpl in *. exact IH.
    + pose proof (recordCall_agrees lo now r recs Hag Hlo_o) as Hag1.
      specialize (IH (recordCall now r) (recs ++ [now]) now Hag1 Hchr' Hnext).
      destruct (exec (recordCall now r) ops) as [r2 log]; simpl in *.
      rewrite <- app_assoc in IH. exact IH.
Qed.

Lemma spaced_snoc (minI : Z) (recs : list Z) (x : Z) :
  spaced minI recs ->
  (forall t, In t recs -> minI <= x - t) ->
  spaced minI (recs ++ [x]).
Proof.
  intros Hsp Hx i j a b Hij Ha Hb.
  assert (Hj : (j < length (recs ++ [x]))%nat)
    by (apply nth_error_Some; congruence).
  rewrite length_app in Hj; simpl in Hj.
  assert (Hi : (i < length recs)%nat) by lia.
  rewrite nth_error_app1 in Ha by exact Hi.
  destruct (Nat.eq_dec j (length recs)) as [Ej | Nj].
  - subst j. rewrite nth_error_app2 in Hb by lia.
    rewrite Nat.sub_diag in Hb. simpl in Hb. injection Hb as <-.
    apply Hx. eapply nth_error_In; eassumption.
  - rewrite nth_error_app1 in Hb by lia. apply (Hsp i j a b); assumption.
Qed.

(** Under the caller's discipline the recorded calls stay spaced and
    never crowd a 60-second window. *)
Lemma exec_guarded (ops : list Op) :
  forall (r : t) (recs : list Z) (lo : Z) (permit : bool),
    agrees lo r recs ->
    spaced (minIntervalMs r) recs ->
    (forall T, Z.of_nat (length (trailing T recs)) <= maxPerMinute r) ->
    (permit = true ->
     (forall t, In t recs -> minIntervalMs r <= lo - t) /\
     Z.of_nat (length (filter (withinMinute lo) recs)) < maxPerMinute r) ->
    chronological ops ->
    (forall o, In o ops -> lo <= time_of o) ->
    guarded_from permit (snd (exec r ops)) ->
    spaced (minIntervalMs r) (recs ++ recorded (snd (exec r ops))) /\
    forall T, Z.of_nat (length (trailing T (recs ++ recorded (snd (exec r ops)))))
              <= maxPerMinute r.
Proof.
  induction ops as [| o ops IH];
    intros r recs lo permit Hag Hsp Hwin Hper Hchr Hlo Hg.
  - simpl. rewrite app_nil_r. auto.
  - destruct (chronological_tail o ops Hchr) as [Hchr' Hnext].
    assert (Hlo_o : lo <= time_of o) by (apply Hlo; left; reflexivity).
    destruct o as [now | now]; simpl in *.
    + pose proof (canCall_agrees lo now r recs Hag Hlo_o) as Hag1.
      destruct (canCall_params now r) as (E1 & E2 & _).
      pose proof (canCall_answer now r) as Hans.
      destruct (canCall now r) as [r1 b]; simpl in *.
      specialize (IH r1 recs now b Hag1).
      rewrite E1, E2 in IH.
      destruct (exec r1 ops) as [r2 log]; simpl in *.
      apply IH; auto.
      intros ->. destruct Hag as (_ & _ & Hmax & Hfil).
      assert (Hok : ~ (now - lastCallTime r < minIntervalMs r \/
                       maxPerMinute r <=
                       Z.of_nat (length (filter (withinMinute now)
                                           (callsInLastMinute r)))))
        by (intros C; apply Hans in C; discriminate).
      split.
      * intros t Hin. rewrite Forall_forall in Hmax.
        specialize (Hmax t Hin). lia.
      * rewrite <- (Hfil now Hlo_o). lia.
    + pose proof (recordCall_agrees lo now r recs Hag Hlo_o) as Hag1.
      specialize (IH (recordCall now r) (recs ++ [now]) now false Hag1).
      simpl in IH.
      destruct (exec (recordCall now r) ops) as [r2 log]; simpl in *.
      destruct Hg as [-> Hg].
      destruct (Hper eq_refl) as [Hfar Hroom].
      rewrite <- app_assoc in IH. simpl in IH. apply IH; auto.
      * apply spaced_snoc; auto. intros t Hin. specialize (Hfar t Hin). lia.
      * intros T. unfold trailing. rewrite filter_app, length_app. simpl.
        destruct ((T - 60000 <? now) && (now <=? T)) eqn:Ein; simpl.
        -- apply andb_true_iff in Ein. destruct Ein as [E1 E2].
           apply Z.ltb_lt in E1. apply Z.leb_le in E2.
           assert (Hsub :
             (length (trailing T recs)
              <= length (filter (withinMinute lo) recs))%nat).
           { unfold trailing. apply filter_length_mono. intros x _ Hx.
             apply andb_true_iff in Hx. destruct Hx as [Hx _].
             apply Z.ltb_lt in Hx. unfold withinMinute. apply Z.ltb_lt. lia. }
           unfold trailing in Hsub. lia.
        -- specialize (Hwin T). unfold trailing in Hwin. lia.
      * discriminate.
Qed.

Lemma Sorted_chronological (ops : list Op) :
  Sorted Z.le (map time_of ops) -> chronological ops.
Proof.
  intros HS. apply Sorted_StronglySorted in HS;
    [| intros x y z; apply Z.le_trans].
  induction ops as [| o ops IH]; intros i j a b Hij Ha Hb.
  - destruct i; discriminate.
  - simpl in HS. apply StronglySorted_inv in HS. destruct HS as [HS Hall].
    destruct i as [| i]; simpl in Ha.
    + injection Ha as <-. destruct j as [| j]; simpl in Hb.
      * injection Hb as <-. lia.
      * rewrite Forall_forall in Hall. apply Hall.
        apply in_map. eapply nth_error_In; eassumption.
    + destruct j as [| j]; [lia |]. simpl in Hb.
      apply (IH HS i j a b); auto with arith.
Qed.

Lemma create_agrees (minI maxP : option Z) (lo : Z) :
  agrees lo (create minI maxP) [].
Proof.
  unfold agrees, create; simpl. repeat split; auto.
Qed.

Lemma trailing_withinMinute (now : Z) (recs : list Z) :
  Forall (fun t => t <= now) recs ->
  trailing now recs = filter (withinMinute now) recs.
Proof.
  intros H. unfold trailing. apply filter_ext_in. intros t Hin.
  rewrite Forall_forall in H. specialize (H t Hin). unfold withinMinute.
  destruct (Z.ltb_spec (now - 60000) t), (Z.ltb_spec (now - t) 60000),
    (Z.leb_spec t now); simpl; auto; lia.
Qed.

Lemma last_map_time_In (o : Op) (ops : list Op) :
  exists o', In o' (o :: ops) /\
             last (map time_of (o :: ops)) (time_of o) = time_of o'.
Proof.
  revert o. induction ops as [| o1 ops IH]; intros o.
  - exists o. simpl. auto.
  - destruct (IH o1) as [o' [Hin E]]. exists o'. split; [right; exact Hin |].
    change (map time_of (o :: o1 :: ops))
      with (time_of o :: map time_of (o1 :: ops)).
    rewrite last_cons_default.
    change (map time_of (o1 :: ops)) with (time_of o1 :: map time_of ops) in *.
    rewrite last_cons_default in *. exact E.
Qed.

(** C2.  The rate limiter.  [canCall()] answers [false] whenever the
    last recorded call is less than [minIntervalMs] old, or the calls it
    keeps from the last 60000 ms number at least [maxPerMinute]; the
    defaults are 15000 ms and 3.  Along any sequence of [canCall()] and
    [recordCall()] invocations at non-decreasing times, the next
    [canCall()] is declined whenever the last recorded call is too
    close or the 60 seconds before it already hold [maxPerMinute]
    recorded calls, however they are spaced; and when calls are recorded
    only directly after a [canCall()] that answered [true], any two
    recorded calls are at least [minIntervalMs] apart and no 60-second
    window (the 60000 ms that end at any time [T], as [canCall] counts
    them: [T - t < 60000]) holds more than [maxPerMinute] of them. *)
Theorem rate_limiter_bounds (minI maxP : Z) (ops : list Op) :
  chronological ops ->
  let r0 := create (Some minI) (Some maxP) in
  let rf := fst (exec r0 ops) in
  let log := snd (exec r0 ops) in
  (forall (now : Z) (r : t),
     now - lastCallTime r < minIntervalMs r \/
     maxPerMinute r <=
       Z.of_nat (length (filter (withinMinute now) (callsInLastMinute r))) ->
     snd (canCall now r) = false)
  /\ (minIntervalMs (create None None) = 15000 /\
      maxPerMinute (create None None) = 3)
  /\ (forall now : Z,
        (forall o, In o ops -> time_of o <= now) ->
        now - last (recorded log) 0 < minI \/
        maxP <= Z.of_nat (length (trailing now (recorded log))) ->
        snd (canCall now rf) = false)
  /\ (guarded log -> 0 <= maxP ->
      spaced minI (recorded log) /\
      forall T : Z, Z.of_nat (length (trailing T (recorded log))) <= maxP).
Proof.
  intros Hchr r0 rf log.
  assert (Hag : forall now, (forall o, In o ops -> time_of o <= now) ->
                 exists hi, hi <= now /\ agrees hi rf (recorded log)).
  { intros now Hnow. subst rf log. destruct ops as [| o ops'].
    - exists now. split; [lia |]. simpl. apply create_agrees.
    - destruct (chronological_tail o ops' Hchr) as [_ Hnext].
      destruct (last_map_time_In o ops') as [o' [Hin E]].
      exists (last (map time_of (o :: ops')) (time_of o)). split.
      + rewrite E. apply Hnow. exact Hin.
      + apply (exec_agrees (o :: ops') r0 [] (time_of o));
          [apply create_agrees | exact Hchr |].
        intros o1 [<- | Hin1]; [lia | apply Hnext; exact Hin1]. }
  repeat apply conj.
  - intros now r H. apply canCall_answer. exact H.
  - reflexivity.
  - reflexivity.
  - intros now Hnow Hsat.
    destruct (Hag now Hnow) as [hi [Hhi (Hlo & Hlast & _ & Hfil)]].
    destruct (exec_params ops r0) as [E1 E2]. fold rf in E1, E2.
    apply canCall_answer. rewrite E1, E2, Hlast, (Hfil now Hhi). simpl.
    rewrite <- trailing_withinMinute; [exact Hsat |].
    eapply Forall_impl; [| exact Hlo]. simpl. intros; lia.
  - intros Hg Hmax.
    assert (Hlo : exists lo, forall o, In o ops -> lo <= time_of o).
    { destruct ops as [| o ops']; [exists 0; intros ? [] |].
      destruct (chronological_tail o ops' Hchr) as [_ Hnext].
      exists (time_of o). intros o1 [<- | Hin1]; [lia | apply Hnext; exact Hin1]. }
    destruct Hlo as [lo Hlo].
    apply (exec_guarded ops r0 [] lo false).
    + apply create_agrees.
    + intros i j a b _ Ha. destruct i; discriminate.
    + intros T. simpl. exact Hmax.
    + discriminate.
    + exact Hchr.
    + exact Hlo.
    + exact Hg.
Qed.

(** Four attempts against the default limiter, each recorded right
    after it was allowed. *)
Lemma rate_limiter_bounds_witness :
  let ops := [CanCall 20000; RecordCall 20400; CanCall 30000;
              CanCall 36000; RecordCall 36500; CanCall 52000;
              RecordCall 52100; CanCall 70000] in
  let log := snd (exec (create (Some 15000) (Some 3)) ops) in
  recorded log = [20400; 36500; 52100] /\
  spaced 15000 (recorded log) /\
  (forall T : Z, Z.of_nat (length (trailing T (recorded log))) <= 3).
Proof.
  intros ops log. split; [reflexivity |].
  apply (rate_limiter_bounds 15000 3 ops).
  - apply Sorted_chronological. subst ops. simpl.
    repeat (constructor; try lia).
  - subst log ops. simpl. unfold guarded. simpl. auto.
  - lia.
Defined.

End RateLimiterFacts.

Module LRUCacheFacts.
Import Js LRUCache.

Lemma slice_from_zero {A : Type} (l : list A) : slice_from (- 0) l = l.
Proof.
  unfold slice_from. simpl.
  rewrite Z.min_l by lia. reflexivity.
Qed.

(** For a positive count within the size, [recent] is the tail of that
    length: the [count] most recently inserted or accessed values,
    least recent first. *)
Lemma recent_most_recent {V : Type} (count : Z) (c : t V) :
  1 <= count <= size c ->
  recent count c =
    skipn (length (getAllValues c) - Z.to_nat count) (getAllValues c) /\
  Z.of_nat (length (recent count c)) = count.
Proof.
  unfold recent, size, getAllValues, slice_from. intros [H1 H2].
  rewrite length_map.
  destruct (Z.ltb_spec (- count) 0) as [_ | ?]; [| lia].
  rewrite Z.max_l by lia.
  replace (Z.to_nat (Z.of_nat (length (cache c)) + - count))
    with (length (cache c) - Z.to_nat count)%nat by lia.
  split; [reflexivity |].
  rewrite length_skipn, length_map. lia.
Qed.

Lemma map_has_In {V : Type} (key : string) (m : Map V) :
  map_has key m = true <-> In key (map fst m).
Proof.
  unfold map_has. rewrite existsb_exists. split.
  - intros [[k v] [Hin E]]. apply String.eqb_eq in E. simpl in E. subst k.
    apply (in_map fst) in Hin. exact Hin.
  - intros Hin. apply in_map_iff in Hin. destruct Hin as [[k v] [E Hin]].
    exists (k, v). split; [exact Hin |]. simpl in *. subst k.
    apply String.eqb_refl.
Qed.

Lemma map_set_absent {V : Type} (key : string) (value : V) (m : Map V) :
  ~ In key (map fst m) -> map_set key value m = m ++ [(key, value)].
Proof.
  induction m as [| [k v] m IH]; simpl; intros H; [reflexivity |].
  destruct (String.eqb_spec k key) as [E | _]; [exfalso; auto |].
  rewrite IH by tauto. reflexivity.
Qed.

Lemma map_set_length {V : Type} (key : string) (value : V) (m : Map V) :
  (length (map_set key value m) <= S (length m))%nat.
Proof.
  induction m as [| [k v] m IH]; simpl; [lia |].
  destruct (String.eqb k key); simpl; lia.
Qed.

Lemma map_delete_absent {V : Type} (key : string) (m : Map V) :
  ~ In key (map fst m) -> map_delete key m = m.
Proof.
  induction m as [| [k v] m IH]; simpl; intros H; [reflexivity |].
  destruct (String.eqb_spec k key) as [E | _]; [exfalso; auto |].
  simpl. rewrite IH by tauto. reflexivity.
Qed.

Lemma map_delete_length {V : Type} (key : string) (m : Map V) :
  In key (map fst m) -> (S (length (map_delete key m)) <= length m)%nat.
Proof.
  induction m as [| [k v] m IH]; simpl; intros H; [contradiction |].
  assert (Hle : (length (map_delete key m) <= length m)%nat)
    by apply List.filter_length_le.
  unfold map_delete in *. simpl.
  destruct (String.eqb_spec k key) as [E | N]; simpl.
  - lia.
  - destruct H as [H | H]; [contradiction |]. specialize (IH H). lia.
Qed.

(** A cache of capacity at least 1 never grows past its capacity. *)
Lemma set_size_bound {V : Type} (key : string) (value : V) (c : t V) :
  1 <= maxSize c -> size c <= maxSize c ->
  size (set key value c) <= maxSize c /\
  maxSize (set key value c) = maxSize c.
Proof.
  unfold size, set; simpl. intros H1 Hsz. split; [| reflexivity].
  destruct (map_has key (cache c)) eqn:Hhas.
  - apply map_has_In in Hhas.
    pose proof (map_delete_length key (cache c) Hhas).
    pose proof (map_set_length key value (map_delete key (cache c))). lia.
  - destruct (Z.leb_spec (maxSize c) (Z.of_nat (length (cache c)))).
    + destruct (cache c) as [| [k v] m] eqn:E; simpl in *; [lia |].
      pose proof (map_delete_length k ((k, v) :: m) (or_introl eq_refl)) as Hd.
      pose proof (map_set_length key value (map_delete k ((k, v) :: m))).
      simpl in *. lia.
    + pose proof (map_set_length key value (cache c)). lia.
Qed.

(** Inserting a key the cache does not hold: the entry goes to the
    most-recent end, and a full cache first drops its least recently
    used entry, the first of the map, and no other. *)
Lemma set_fresh {V : Type} (key : string) (value : V) (c : t V) :
  1 <= maxSize c ->
  NoDup (map fst (cache c)) ->
  ~ In key (map fst (cache c)) ->
  cache (set key value c) =
    (if maxSize c <=? size c then tl (cache c) else cache c)
    ++ [(key, value)].
Proof.
  intros H1 Hnd Hfresh. unfold set, size; simpl.
  destruct (map_has key (cache c)) eqn:Hhas;
    [apply map_has_In in Hhas; contradiction |].
  destruct (Z.leb_spec (maxSize c) (Z.of_nat (length (cache c)))).
  - destruct (cache c) as [| [k v] m] eqn:E; simpl in *; [lia |].
    rewrite String.eqb_refl. simpl. inversion Hnd; subst.
    fold (map_delete k m). rewrite map_delete_absent by assumption.
    apply map_set_absent. tauto.
  - apply map_set_absent. exact Hfresh.
Qed.

Lemma skipn_S_tl {A : Type} (n : nat) (l : list A) :
  skipn (S n) l = tl (skipn n l).
Proof.
  revert l. induction n as [| n IH]; intros [| x l]; simpl; auto.
  rewrite <- IH. reflexivity.
Qed.

(** Entries with distinct keys inserted into an empty cache of capacity
    [N >= 1]: the cache holds the last [N] of them in insertion order,
    so the [N+1]-th insertion evicts exactly the first entry. *)
Lemma set_all_distinct {V : Type} (N : Z) (entries : list (string * V)) :
  1 <= N ->
  NoDup (map fst entries) ->
  cache (set_all entries (create N)) =
    skipn (length entries - Z.to_nat N) entries /\
  maxSize (set_all entries (create N)) = N.
Proof.
  intros HN. induction entries as [| [k v] entries IH] using rev_ind;
    intros Hnd; [split; reflexivity |].
  unfold set_all in *. rewrite fold_left_app. cbn [fold_left fst snd].
  rewrite map_app in Hnd. simpl in Hnd.
  assert (Hnd' : NoDup (map fst entries))
    by (apply NoDup_remove_1 in Hnd; rewrite app_nil_r in Hnd; exact Hnd).
  assert (Hk : ~ In k (map fst entries))
    by (apply NoDup_remove_2 in Hnd; rewrite app_nil_r in Hnd; exact Hnd).
  destruct (IH Hnd') as [Ecache Emax]. clear IH.
  set (c := fold_left (fun acc kv => set (fst kv) (snd kv) acc)
              entries (create N)) in *.
  split; [| exact Emax].
  assert (Hsub : forall x, In x (map fst (cache c)) -> In x (map fst entries)).
  { intros x Hx. rewrite Ecache in Hx. apply in_map_iff in Hx.
    destruct Hx as [kv [E Hin]]. apply in_map_iff. exists kv.
    split; [exact E |].
    rewrite <- (firstn_skipn (length entries - Z.to_nat N) entries).
    apply in_or_app. right. exact Hin. }
  rewrite set_fresh.
  - unfold size. rewrite Emax, Ecache, length_skipn, length_app. simpl.
    destruct (Z.leb_spec N
                (Z.of_nat (length entries - (length entries - Z.to_nat N)))).
    + replace (length entries + 1 - Z.to_nat N)%nat
        with (S (length entries - Z.to_nat N)) by lia.
      rewrite skipn_S_tl, skipn_app.
      replace (length entries - Z.to_nat N - length entries)%nat with 0%nat
        by lia.
      simpl.
      destruct (skipn (length entries - Z.to_nat N) entries) eqn:E;
        [| reflexivity].
      apply (f_equal (@length _)) in E. rewrite length_skipn in E.
      simpl in E. lia.
    + replace (length entries + 1 - Z.to_nat N)%nat with 0%nat by lia.
      replace (length entries - Z.to_nat N)%nat with 0%nat by lia.
      reflexivity.
  - rewrite Emax. exact HN.
  - rewrite Ecache.
    rewrite <- (firstn_skipn (length entries - Z.to_nat N) entries) in Hnd'.
    rewrite map_app in Hnd'. apply NoDup_app_remove_l in Hnd'. exact Hnd'.
  - intros Hin. apply Hk. apply Hsub. exact Hin.
Qed.

(** C4.  [recent(count)] is [values.slice(-count)], and [slice(-0)] is
    [slice(0)]: asked for the 0 most recent values the cache returns
    every value it holds.  On a cache of capacity 20 holding the values
    1 and 2, [recent(0)] returns both, while [recent(1)] and [recent(2)]
    return the one and the two most recent values. *)
Theorem recent_zero_returns_all :
  (forall (V : Type) (c : t V), recent 0 c = getAllValues c) /\
  (let c := set "b" 2 (set "a" 1 (create 20)) in
   size c = 2 /\
   recent 0 c = [1; 2] /\
   recent 1 c = [2] /\
   recent 2 c = [1; 2]).
Proof.
  split.
  - intros V c. unfold recent. apply slice_from_zero.
  - repeat split.
Qed.

End LRUCacheFacts.

Module TrustOverrideFacts.
Import Js Debounce ContextManager TrustOverride DebounceFacts.

Lemma some_cat_iff (l : list TrustEntry) :
  (0 <? length (filter isCat l))%nat = true <->
  exists e, In e l /\ isCat e = true.
Proof.
  split.
  - intros H. apply Nat.ltb_lt in H.
    destruct (filter isCat l) as [| e rest] eqn:E; [simpl in H; lia |].
    exists e. apply filter_In. rewrite E. left. reflexivity.
  - intros [e He]. apply filter_In in He. apply Nat.ltb_lt.
    destruct (filter isCat l); [contradiction | simpl; lia].
Qed.

(** A tick on a window without image detections leaves the trust cache
    as it was. *)
Lemma processWindow_empty (now nowLRU : Z) (c : t) :
  current_image c = [] ->
  image_lru (fst (processWindow now nowLRU c)) = image_lru c /\
  current_image (fst (processWindow now nowLRU c)) = [] /\
  config (fst (processWindow now nowLRU c)) = config c.
Proof.
  intros E. unfold processWindow, updateImageLRU; simpl. rewrite E. simpl.
  auto.
Qed.

Lemma emptyWindows_keep (ticks : list (Z * Z)) :
  forall c : t,
    current_image c = [] ->
    image_lru (emptyWindows ticks c) = image_lru c /\
    current_image (emptyWindows ticks c) = [] /\
    config (emptyWindows ticks c) = config c.
Proof.
  induction ticks as [| [now nowLRU] ticks IH]; intros c E; [simpl; auto |].
  destruct (processWindow_empty now nowLRU c E) as (E1 & E2 & E3).
  destruct (IH _ E2) as (F1 & F2 & F3).
  change (emptyWindows ((now, nowLRU) :: ticks) c)
    with (emptyWindows ticks (fst (processWindow now nowLRU c))).
  rewrite F1, F2, F3. auto.
Qed.

(** C3.  Trust override.  When the current window holds no visual
    target detection above the threshold and one of the ten most
    recently inserted or accessed trust-cache entries has [isCat] set,
    [updateState] takes [hasVisual] to be true, and
    [WindowProcessor.calculateFocusState] keeps the focus; [hasVisual]
    is false only when no entry of [recent(10)] has the flag.  After a
    window that detects {cat, 0.9} and its tick, any number of windows
    without detections (nine in particular), whatever the capacity of
    the cache, leave the cat entry in [recent(10)]: the windows hold no
    direct detection and [hasVisual] stays true by the override. *)
Theorem trust_override :
  (forall c : t,
     hasVisualCat c = false ->
     (exists e, In e (LRUCache.recent 10 (image_lru c)) /\ isCat e = true) ->
     hasVisual c = true)
  /\ (forall c : t,
        hasVisual c = false ->
        hasVisualCat c = false /\
        forall e, In e (LRUCache.recent 10 (image_lru c)) -> isCat e = false)
  /\ (forall (currentState : StateValue) (lru : LRUCache.t TrustEntry),
        (exists e, In e (LRUCache.recent 10 lru) /\ isCat e = true) ->
        calculateFocusState currentState (Some lru) = true)
  /\ (forall (capacity t1 t1' : Z) (ticks : list (Z * Z)),
        let w1 := addImageResult [("cat", 9 # 10)] (create capacity) in
        let c := emptyWindows ticks (fst (processWindow t1 t1' w1)) in
        hasVisualCat w1 = true /\
        hasVisualCat c = false /\
        LRUCache.recent 10 (image_lru c) =
          [ {| class := "cat"; score := 9 # 10; timestamp := t1';
               isCat := true |} ] /\
        hasVisual c = true).
Proof.
  repeat apply conj.
  - intros c Hno Hex. unfold hasVisual. rewrite Hno.
    apply some_cat_iff. exact Hex.
  - intros c H. unfold hasVisual in H.
    destruct (hasVisualCat c); [discriminate |]. split; [reflexivity |].
    intros e Hin. destruct (isCat e) eqn:E; [| reflexivity].
    assert (Hc : (0 <? length (filter isCat
                                 (LRUCache.recent 10 (image_lru c))))%nat
                 = true)
      by (apply some_cat_iff; exists e; auto).
    simpl in H. congruence.
  - intros st lru Hex. unfold calculateFocusState.
    destruct (negb (StateValue_eqb st idle)); [reflexivity |].
    apply some_cat_iff. exact Hex.
  - intros capacity t1 t1' ticks w1 c.
    assert (E1 : current_image (fst (processWindow t1 t1' w1)) = [])
      by reflexivity.
    assert (E2 : LRUCache.cache (image_lru (fst (processWindow t1 t1' w1))) =
                 [(("cat" ++ "_" ++ string_of_Z t1')%string,
                   {| class := "cat"; score := 9 # 10; timestamp := t1';
                      isCat := true |})]).
    { unfold processWindow, updateImageLRU, w1, addImageResult, create.
      simpl. unfold LRUCache.set. simpl.
      destruct (capacity <=? 0); reflexivity. }
    destruct (emptyWindows_keep ticks _ E1) as (F1 & F2 & F3). fold c in F1, F2, F3.
    assert (Hrecent : LRUCache.recent 10 (image_lru c) =
                      [ {| class := "cat"; score := 9 # 10; timestamp := t1';
                           isCat := true |} ]).
    { unfold LRUCache.recent, LRUCache.getAllValues. rewrite F1, E2.
      reflexivity. }
    assert (Hnone : hasVisualCat c = false)
      by (unfold hasVisualCat; rewrite F2; reflexivity).
    repeat split; auto.
    unfold hasVisual. rewrite Hnone, Hrecent. reflexivity.
Qed.

(** The entry leaves [recent(10)] by being pushed out: with one
    non-target detection per window, the override still holds after
    nine such windows and is gone after the tenth. *)
Example trust_override_wears_off :
  let dogWindow (now : Z) (c : t) :=
    fst (processWindow now now (addImageResult [("dog", 8 # 10)] c)) in
  let c1 := fst (processWindow 1000 1000
                   (addImageResult [("cat", 9 # 10)] (create 20))) in
  let c10 := fold_left (fun c now => dogWindow now c)
               [2000; 3000; 4000; 5000; 6000; 7000; 8000; 9000; 10000] c1 in
  hasVisualCat c10 = false /\ hasVisual c10 = true /\
  hasVisual (dogWindow 11000 c10) = false.
Proof. vm_compute. repeat split. Qed.

End TrustOverrideFacts.

Module EmotionsFacts.
Import Js Emotions.
Local Open Scope Q_scope.

Lemma Qltb_spec (a b : Q) : reflect (a < b) (Qltb a b).
Proof.
  unfold Qltb. destruct (Qle_bool b a) eqn:E; simpl; constructor.
  - apply Qle_bool_iff in E. apply Qle_not_lt. exact E.
  - apply Qnot_le_lt. intros H. apply Qle_bool_iff in H. congruence.
Qed.

(** One turn of the loop keeps [bestMatch] the first best rule of the
    rules seen so far. *)
Lemma consider_firstBest (n : Normalized) (pre : list Rule)
    (acc : option Match) (r : Rule) :
  firstBest n pre acc -> firstBest n (pre ++ [r]) (consider n acc r).
Proof.
  intros H. unfold consider.
  destruct (Qltb_spec 0 (rule r n)) as [Hpos | Hnpos]; simpl.
  - destruct acc as [b |]; simpl in *.
    + destruct H as (i & r0 & Hi & Hid & Hc & Hb & Hall & Hbefore).
      destruct (Qltb_spec (matchConfidence b) (rule r n)) as [Hlt | Hge].
      * exists (length pre), r. simpl. repeat split; auto.
        -- rewrite nth_error_app2, Nat.sub_diag by lia. reflexivity.
        -- intros r' Hin. apply in_app_or in Hin.
           destruct Hin as [Hin | [<- | []]]; [| lra].
           specialize (Hall r' Hin). lra.
        -- intros j r' Hj Hn. rewrite nth_error_app1 in Hn by exact Hj.
           apply nth_error_In in Hn. specialize (Hall r' Hn). lra.
      * exists i, r0. repeat split; auto.
        -- rewrite nth_error_app1; [exact Hi |].
           apply nth_error_Some. congruence.
        -- intros r' Hin. apply in_app_or in Hin.
           destruct Hin as [Hin | [<- | []]]; [apply Hall; exact Hin | lra].
        -- intros j r' Hj Hn.
           assert (i < length pre)%nat by (apply nth_error_Some; congruence).
           rewrite nth_error_app1 in Hn by lia. eapply Hbefore; eassumption.
    + exists (length pre), r. simpl. repeat split; auto.
      * rewrite nth_error_app2, Nat.sub_diag by lia. reflexivity.
      * intros r' Hin. apply in_app_or in Hin.
        destruct Hin as [Hin | [<- | []]]; [| lra].
        specialize (H r' Hin). lra.
      * intros j r' Hj Hn. rewrite nth_error_app1 in Hn by exact Hj.
        apply nth_error_In in Hn. specialize (H r' Hn). lra.
  - destruct acc as [b |]; simpl in *.
    + destruct H as (i & r0 & Hi & Hid & Hc & Hb & Hall & Hbefore).
      exists i, r0. repeat split; auto.
      * rewrite nth_error_app1; [exact Hi |].
        apply nth_error_Some. congruence.
      * intros r' Hin. apply in_app_or in Hin.
        destruct Hin as [Hin | [<- | []]]; [apply Hall; exact Hin | lra].
      * intros j r' Hj Hn.
        assert (i < length pre)%nat by (apply nth_error_Some; congruence).
        rewrite nth_error_app1 in Hn by lia. eapply Hbefore; eassumption.
    + intros r' Hin. apply in_app_or in Hin.
      destruct Hin as [Hin | [<- | []]]; [apply H; exact Hin | lra].
Qed.

Lemma fold_consider_firstBest (n : Normalized) (rs : list Rule) :
  forall (pre : list Rule) (acc : option Match),
    firstBest n pre acc ->
    firstBest n (pre ++ rs) (fold_left (consider n) rs acc).
Proof.
  induction rs as [| r rs IH]; intros pre acc H; simpl.
  - rewrite app_nil_r. exact H.
  - replace (pre ++ r :: rs) with ((pre ++ [r]) ++ rs)
      by (rewrite <- app_assoc; reflexivity).
    apply IH. apply consider_firstBest. exact H.
Qed.

Lemma findBest_firstBest (n : Normalized) : firstBest n rules (findBest n).
Proof.
  unfold findBest. apply (fold_consider_firstBest n rules [] None).
  intros r [].
Qed.

Ltac each_rule H tac :=
  unfold rules in H; simpl in H;
  repeat (destruct H as [<- | H]; [tac |]);
  try contradiction.

Lemma rules_fixed_constant (r : Rule) :
  In r rules -> emotionId r <> "comfortable"%string ->
  exists k : Q, 0.5 < k /\ forall n : Normalized, rule r n = 0 \/ rule r n = k.
Proof.
  intros Hin Hne.
  each_rule Hin
    ltac:(first
      [ exfalso; apply Hne; reflexivity
      | eexists; split;
        [| intros n; simpl;
           match goal with
           | |- context [if ?c then _ else _] => destruct c
           end; [right; reflexivity | left; reflexivity]];
        reflexivity ]).
Qed.

Lemma rules_comfortable (r : Rule) :
  In r rules -> emotionId r = "comfortable"%string ->
  forall n : Normalized,
    rule r n = 0 \/
    (rule r n = 0.9 - normalizedEnergy n /\ normalizedEnergy n < 0.2).
Proof.
  intros Hin He n.
  each_rule Hin ltac:(first [discriminate He | idtac]).
  simpl. unfold lt.
  destruct (Qltb_spec (normalizedEnergy n) 0.2) as [Hlt | _]; simpl;
    [| left; reflexivity].
  destruct (Qltb (normalizedRMS n) 0.3 && Qltb (normalizedZCR n) 0.3);
    [right; split; [reflexivity | exact Hlt] | left; reflexivity].
Qed.

(** A rule that fires at all fires above the 0.5 threshold. *)
Lemma rules_fire_above_threshold (r : Rule) (n : Normalized) :
  In r rules -> 0 < rule r n -> 0.5 < rule r n.
Proof.
  intros Hin Hpos.
  destruct (string_dec (emotionId r) "comfortable") as [E | N].
  - destruct (rules_comfortable r Hin E n) as [H0 | [H1 H2]];
      [rewrite H0 in Hpos; lra | rewrite H1; lra].
  - destruct (rules_fixed_constant r Hin N) as (k & Hk & Hv).
    destruct (Hv n) as [H0 | H1]; [rewrite H0 in Hpos; lra | rewrite H1; exact Hk].
Qed.

(** Every rule names an emotion of the table, and every emotion a
    category. *)
Lemma rules_resolve (r : Rule) :
  In r rules ->
  exists (emo : Emotion) (cat : EmotionCategory),
    getEmotion (emotionId r) = Some emo /\ id emo = emotionId r /\
    getCategory (categoryId emo) = Some cat /\
    categoryKey cat = categoryId emo.
Proof.
  intros Hin.
  each_rule Hin ltac:(do 2 eexists; repeat split).
Qed.

(** C5 (as amended).  [classifyEmotion] is a function of the feature
    vector.  It evaluates 21 rules over the normalized features; every
    rule but the first yields 0 or its own fixed confidence constant,
    and the first, "comfortable", yields 0 or [0.9 - normalizedEnergy].
    The result carries the id and confidence of the rule with the
    highest confidence, the first-defined one among equals, together
    with the emotion of that id and its category, and it is present
    only when that confidence exceeds 0.5; otherwise no rule reaches
    0.5 and the result is null. *)
Theorem classifyEmotion_selection :
  (forall f1 f2 : AudioFeatures,
     f1 = f2 -> classifyEmotion f1 = classifyEmotion f2)
  /\ length rules = 21%nat
  /\ (forall r : Rule,
        In r rules -> emotionId r <> "comfortable"%string ->
        exists k : Q,
          0.5 < k /\ forall n : Normalized, rule r n = 0 \/ rule r n = k)
  /\ (forall r : Rule,
        In r rules -> emotionId r = "comfortable"%string ->
        forall n : Normalized,
          rule r n = 0 \/
          (rule r n = 0.9 - normalizedEnergy n /\ normalizedEnergy n < 0.2))
  /\ (forall f : AudioFeatures,
        let n := normalize f in
        match classifyEmotion f with
        | Some res =>
            exists (i : nat) (r : Rule),
              nth_error rules i = Some r /\
              resultId res = emotionId r /\
              confidence res = rule r n /\
              0.5 < confidence res /\
              (forall r', In r' rules -> rule r' n <= confidence res) /\
              (forall j r', (j < i)%nat -> nth_error rules j = Some r' ->
                            rule r' n < confidence res) /\
              getEmotion (emotionId r) = Some (emotion res) /\
              getCategory (categoryId (emotion res)) = Some (category res)
        | None => forall r, In r rules -> rule r n <= 0.5
        end).
Proof.
  repeat apply conj.
  - intros f1 f2 ->. reflexivity.
  - reflexivity.
  - exact rules_fixed_constant.
  - exact rules_comfortable.
  - intros f n. unfold classifyEmotion. fold n.
    pose proof (findBest_firstBest n) as Hbest.
    destruct (findBest n) as [b |]; simpl in Hbest.
    + destruct Hbest as (i & r & Hi & Hid & Hc & Hpos & Hall & Hbefore).
      destruct (Qltb_spec 0.5 (matchConfidence b)) as [Hhi | Hlo].
      * destruct (rules_resolve r (nth_error_In _ _ Hi))
          as (emo & cat & He & _ & Hcat & _).
        rewrite Hid, He, Hcat. exists i, r. simpl. repeat split; auto.
      * intros r' Hin. specialize (Hall r' Hin). lra.
    + intros r Hin. specialize (Hbest r Hin). lra.
Qed.

(** The "comfortable" rule has no fixed confidence: two vectors it
    classifies, with confidences 0.9 and 0.8. *)
Lemma comfortable_confidence_varies :
  ~ each_rule_zero_or_constant /\
  exists res1 res2 : Classification,
    classifyEmotion silentSample = Some res1 /\
    classifyEmotion faintSample = Some res2 /\
    resultId res1 = "comfortable"%string /\
    resultId res2 = "comfortable"%string /\
    confidence res1 == 0.9 /\ confidence res2 == 0.8.
Proof.
  split.
  - intros H. unfold each_rule_zero_or_constant, rules in H.
    destruct (H _ (or_introl eq_refl)) as [k Hk].
    pose proof (Hk (mkNormalized 0 0 0 0 0)) as H0.
    pose proof (Hk (mkNormalized 0 0 0 0.1 0)) as H1.
    simpl in H0, H1. destruct H0 as [H0 | H0], H1 as [H1 | H1]; lra.
  - do 2 eexists. repeat split.
Qed.

(** C6.  The code on the vector of the claim, {zcr 0.01, centroid 800,
    rolloff 0.2, energy 1e-5, rms 0.001}, which the repository's test
    script lists first and names "Very quiet/comfortable sound".  Its
    normalized ZCR, centroid and rolloff are 0.1, 0.16 and 0.4, but its
    energy (1e-5 * 1e6 = 10) and RMS (0.001 * 1e3 = 1) sit at the cap 1,
    not low; no rule fires, and [classifyEmotion] and
    [classifyEmotionCategory] return null: the vector is not classified
    "comfortable".  Of the three named vectors of the script the code
    classifies the third only. *)
Theorem quietSample_classification :
  let n := normalize quietSample in
  nth_error EmotionCategory.testFeatures 0 =
    Some ("Very quiet/comfortable sound"%string, quietSample)
  /\ (normalizedZCR n == 0.1 /\ normalizedCentroid n == 0.16 /\
      normalizedRolloff n == 0.4 /\ normalizedEnergy n == 1 /\
      normalizedRMS n == 1)
  /\ (forall r : Rule, In r rules -> rule r n = 0)
  /\ classifyEmotion quietSample = None
  /\ EmotionCategory.classifyEmotionCategory quietSample = None
  /\ (forall res : Classification,
        classifyEmotion quietSample = Some res ->
        resultId res <> "comfortable"%string)
  /\ map EmotionCategory.testOutcome EmotionCategory.testFeatures =
       [None; None; Some "for_fight"%string].
Proof.
  intros n. repeat apply conj; try reflexivity.
  - intros r Hin. each_rule Hin ltac:(reflexivity).
  - intros res H. vm_compute in H. discriminate H.
Qed.

(** The quiet sample is not classified "comfortable": it is not
    classified at all. *)
Lemma quietSample_not_comfortable :
  ~ exists res : Classification,
      classifyEmotion quietSample = Some res /\
      resultId res = "comfortable"%string /\
      categoryKey (category res) = "friendly"%string /\
      0.5 < confidence res.
Proof.
  intros [res [H _]]. vm_compute in H. discriminate H.
Qed.

End EmotionsFacts.

Module ObserverManagerFacts.
Import Effects ObserverManager.

Lemma insertByPriority_In (heap : Ref -> option Z) (x z : Ref) (l : list Ref) :
  In z (insertByPriority heap x l) -> z = x \/ In z l.
Proof.
  induction l as [| y rest IH]; simpl.
  - intros [<- | []]. left. reflexivity.
  - destruct (priorityOr0 heap y <? priorityOr0 heap x); simpl.
    + intros [<- | H]; auto.
    + intros [<- | H]; auto. destruct (IH H); auto.
Qed.

Lemma insertByPriority_sorted (heap : Ref -> option Z) (x : Ref)
    (l : list Ref) :
  StronglySorted (fun a b => priorityOr0 heap b <= priorityOr0 heap a) l ->
  StronglySorted (fun a b => priorityOr0 heap b <= priorityOr0 heap a)
    (insertByPriority heap x l).
Proof.
  induction l as [| y rest IH]; intros HS; simpl.
  - constructor; constructor.
  - apply StronglySorted_inv in HS. destruct HS as [HS Hall].
    destruct (Z.ltb_spec (priorityOr0 heap y) (priorityOr0 heap x)).
    + constructor; [constructor; assumption |].
      constructor; [lia |].
      eapply Forall_impl; [| exact Hall]. simpl. intros; lia.
    + constructor; [apply IH; exact HS |].
      apply Forall_forall. intros z Hz.
      apply insertByPriority_In in Hz. destruct Hz as [-> | Hz]; [lia |].
      rewrite Forall_forall in Hall. apply Hall. exact Hz.
Qed.

Lemma insertByPriority_perm (heap : Ref -> option Z) (x : Ref) (l : list Ref) :
  Permutation (insertByPriority heap x l) (x :: l).
Proof.
  induction l as [| y rest IH]; simpl; [reflexivity |].
  destruct (priorityOr0 heap y <? priorityOr0 heap x); [reflexivity |].
  rewrite IH. apply perm_swap.
Qed.

Lemma sortByPriority_spec (heap : Ref -> option Z) (l : list Ref) :
  StronglySorted (fun a b => priorityOr0 heap b <= priorityOr0 heap a)
    (sortByPriority heap l) /\
  Permutation (sortByPriority heap l) l.
Proof.
  unfold sortByPriority.
  assert (H : forall acc,
             StronglySorted
               (fun a b => priorityOr0 heap b <= priorityOr0 heap a) acc ->
             StronglySorted
               (fun a b => priorityOr0 heap b <= priorityOr0 heap a)
               (fold_left (fun sorted x => insertByPriority heap x sorted) l acc)
             /\ Permutation
                  (fold_left (fun sorted x => insertByPriority heap x sorted)
                     l acc)
                  (acc ++ l)).
  { induction l as [| x l IH]; intros acc Hacc; simpl.
    - rewrite app_nil_r. split; [exact Hacc | reflexivity].
    - destruct (IH (insertByPriority heap x acc)
                  (insertByPriority_sorted heap x acc Hacc)) as [H1 H2].
      split; [exact H1 |]. rewrite H2, insertByPriority_perm.
      apply Permutation_middle. }
  destruct (H [] (SSorted_nil _)) as [H1 H2]. split; [exact H1 | exact H2].
Qed.

Lemma removeFirst_sorted (R : Ref -> Ref -> Prop) (o : Ref) (l : list Ref) :
  StronglySorted R l -> StronglySorted R (removeFirst o l).
Proof.
  induction l as [| y rest IH]; intros HS; simpl; [constructor |].
  apply StronglySorted_inv in HS. destruct HS as [HS Hall].
  destruct (Nat.eqb y o); [exact HS |].
  constructor; [apply IH; exact HS |].
  apply Forall_forall. intros z Hz. rewrite Forall_forall in Hall.
  apply Hall. clear - Hz. induction rest as [| a rest IH]; simpl in *; auto.
  destruct (Nat.eqb a o); [right; exact Hz |].
  destruct Hz as [-> | Hz]; auto.
Qed.

Lemma addObserver_spec (m : t) (o : Ref) (p : option Z) :
  descending (addObserver o p m) /\
  Permutation (observers (addObserver o p m)) (observers m ++ [o]).
Proof.
  exact (sortByPriority_spec (priority (addObserver o p m))
           (observers m ++ [o])).
Qed.

Lemma apply_descending (m : t) (op : Op) :
  descending m -> descending (apply m op).
Proof.
  intros Hm. destruct op as [o p | o]; simpl.
  - exact (proj1 (addObserver_spec m o p)).
  - unfold removeObserver.
    destruct (existsb (Nat.eqb o) (observers m)); simpl; [| exact Hm].
    unfold descending; simpl. apply removeFirst_sorted. exact Hm.
Qed.

Section DispatchFacts.
Variable U : Type.
Variable Event : Type.
Variable notifyOf : Ref -> Event -> U -> U * (JsError + unit).
Variable constructorName : Ref -> string.



End DispatchFacts.


(** The engine's five observers (logger 100, messenger 90, emotion 85,
    VLM trigger 50, UI 10) registered out of order, the messenger
    throwing: all five are called, highest priority first, and one line
    is logged. *)
Example dispatch_with_failing_observer :
  let m := fold_left apply
             [Add 3%nat (Some 50); Add 0%nat (Some 100); Add 4%nat (Some 10);
              Add 1%nat (Some 90); Add 2%nat (Some 85)] create in
  let notifyOf (o : Ref) (_ : unit) (count : nat) :=
    (S count,
     if Nat.eqb o 1 then inl {| message := "postMessage failed" |}
     else inr tt) in
  let out := notify notifyOf (fun _ => "RNMessengerObserver") m tt
               {| user := 0%nat; calls := []; console := [] |} in
  observers m = [0; 1; 2; 3; 4]%nat /\
  snd out = inr tt /\
  calls (fst out) = [0; 1; 2; 3; 4]%nat /\
  user (fst out) = 5%nat /\
  console (fst out) =
    [("Observer RNMessengerObserver failed:",
      {| message := "postMessage failed" |})].
Proof. repeat split. Qed.

End ObserverManagerFacts.

Module VLMChannelFacts.
Import Js Effects Debounce VLMChannel.

(** The three ways [analyze] gets to its [await], or not. *)
Lemma analyze_begin_spec (now : Z) (c : t) :
  analyze_begin now c =
  if negb (enabled c) || isProcessing c then (c, inr Declined)
  else if snd (RateLimiter.canCall now (rateLimiter c))
       then (withProcessing true
               (withRateLimiter (fst (RateLimiter.canCall now (rateLimiter c)))
                  c),
             inr InFlight)
       else (withRateLimiter (fst (RateLimiter.canCall now (rateLimiter c))) c,
             inr Declined).
Proof.
  unfold analyze_begin, bind, get, ret, modify.
  destruct (enabled c); simpl; [| reflexivity].
  destruct (isProcessing c); simpl; [reflexivity |].
  destruct (RateLimiter.canCall now (rateLimiter c)) as [rl [|]]; reflexivity.
Qed.

(** The three ways [analyze] ends after its [await]. *)
Lemma analyze_resume_spec (p : Settled) (nowRecord nowLock : Z) (c : t) :
  analyze_resume p nowRecord nowLock c =
  match p with
  | Fulfilled (Some r) =>
      (withProcessing false
         (setLock (text r) (data r) None nowLock
            (withRateLimiter
               (RateLimiter.recordCall nowRecord (rateLimiter c)) c)),
       inr (Some r))
  | Fulfilled None => (withProcessing false c, inr None)
  | Rejected _ => (withProcessing false c, inr None)
  end.
Proof.
  unfold analyze_resume, tryFinally, tryCatch, bind, await, ret, throw, modify.
  destruct p as [[r |] | e]; reflexivity.
Qed.

Lemma analyze_spec (now : Z) (p : Settled) (nowRecord nowLock : Z) (c : t) :
  analyze now p nowRecord nowLock c =
  if negb (enabled c) || isProcessing c then (c, inr None)
  else if snd (RateLimiter.canCall now (rateLimiter c))
       then analyze_resume p nowRecord nowLock
              (withProcessing true
                 (withRateLimiter
                    (fst (RateLimiter.canCall now (rateLimiter c))) c))
       else (withRateLimiter (fst (RateLimiter.canCall now (rateLimiter c))) c,
             inr None).
Proof.
  unfold analyze, bind. rewrite analyze_begin_spec.
  destruct (negb (enabled c) || isProcessing c); [reflexivity |].
  destruct (snd (RateLimiter.canCall now (rateLimiter c))); reflexivity.
Qed.

Lemma canCall_keeps_or_trims (now : Z) (r : RateLimiter.t) :
  RateLimiter.lastCallTime (fst (RateLimiter.canCall now r)) =
    RateLimiter.lastCallTime r /\
  (RateLimiter.callsInLastMinute (fst (RateLimiter.canCall now r)) =
     RateLimiter.callsInLastMinute r \/
   RateLimiter.callsInLastMinute (fst (RateLimiter.canCall now r)) =
     filter (RateLimiter.withinMinute now) (RateLimiter.callsInLastMinute r)).
Proof.
  unfold RateLimiter.canCall.
  destruct (now - RateLimiter.lastCallTime r <? RateLimiter.minIntervalMs r);
    simpl; [auto |].
  destruct (RateLimiter.maxPerMinute r <=? _); simpl; auto.
Qed.

(** C8.  Single-flight guard.  A call of [analyze] made while
    [isProcessing] is set returns null and leaves the channel exactly
    as it was: nothing is queued.  Once the call in flight settles,
    with a result, with null or with a thrown error, [analyze] returns
    without throwing and [isProcessing] is cleared.  Along any
    interleaving of attempts and settlements at most one call is in
    flight, and [isProcessing] is set exactly while one is. *)
Theorem single_flight_guard :
  (forall (now : Z) (c : t),
     isProcessing c = true -> analyze_begin now c = (c, inr Declined))
  /\ (forall (now : Z) (p : Settled) (nowRecord nowLock : Z) (c : t),
        isProcessing c = true ->
        analyze now p nowRecord nowLock c = (c, inr None))
  /\ (forall (p : Settled) (nowRecord nowLock : Z) (c : t),
        exists (c' : t) (answer : option ApiResult),
          analyze_resume p nowRecord nowLock c = (c', inr answer) /\
          isProcessing c' = false /\
          pendingRequest c' = pendingRequest c)
  /\ (forall (steps : list Step) (c : t),
        isProcessing c = false ->
        (snd (drive c 0 steps) <= 1)%nat /\
        (isProcessing (fst (drive c 0 steps)) = true <->
         snd (drive c 0 steps) = 1%nat)).
Proof.
  repeat apply conj.
  - intros now c H. rewrite analyze_begin_spec, H, orb_true_r. reflexivity.
  - intros now p t1 t2 c H. rewrite analyze_spec, H, orb_true_r. reflexivity.
  - intros p t1 t2 c. rewrite analyze_resume_spec.
    destruct p as [[r |] | e]; do 2 eexists; repeat split.
  - intros steps c Hc.
    assert (H : forall (c : t) (n : nat),
               (n = 0%nat /\ isProcessing c = false) \/
               (n = 1%nat /\ isProcessing c = true) ->
               (snd (drive c n steps) = 0%nat /\
                isProcessing (fst (drive c n steps)) = false) \/
               (snd (drive c n steps) = 1%nat /\
                isProcessing (fst (drive c n steps)) = true)).
    { clear c Hc. induction steps as [| [now | p t1 t2] steps IH];
        intros c n Hn; simpl; [exact Hn | |].
      - rewrite analyze_begin_spec.
        destruct Hn as [[-> Hp] | [-> Hp]]; rewrite Hp.
        + rewrite orb_false_r. destruct (enabled c); simpl;
            [| apply IH; left; auto].
          destruct (snd (RateLimiter.canCall now (rateLimiter c)));
            apply IH; [right | left]; auto.
        + rewrite orb_true_r. apply IH. right. auto.
      - destruct Hn as [[-> Hp] | [-> Hp]].
        + apply IH. left. auto.
        + apply IH. left. split; [reflexivity |].
          rewrite analyze_resume_spec. destruct p as [[r |] | e]; reflexivity. }
    destruct (H c 0%nat (or_introl (conj eq_refl Hc))) as [[E1 E2] | [E1 E2]];
      rewrite E1, E2; split; try lia; split; congruence.
Qed.

(** A second attempt while the first call is in flight: declined, the
    channel untouched; the first call then fails and the guard clears. *)
Lemma single_flight_guard_witness :
  let busy := fst (analyze_begin 100000 (create vision defaultConfig)) in
  isProcessing busy = true /\
  analyze 100200 (Fulfilled None) 100300 100300 busy = (busy, inr None) /\
  isProcessing
    (fst (analyze_resume (Rejected {| message := "timeout" |})
            130000 130000 busy)) = false.
Proof.
  intros busy. split; [reflexivity |]. split.
  - apply (proj1 (proj2 single_flight_guard)). reflexivity.
  - reflexivity.
Defined.

(** C10.  [analyze] records a call and rewrites the lock together or
    not at all.  When the guards pass and [callAPI] resolves to a
    non-null result, [analyze] returns that result, the rate limiter
    holds the new timestamp as [lastCallTime] and at the end of its
    list, and the lock carries the result's text and data for 30000 ms.
    In every other case (channel disabled, a call already in flight,
    rate-limited, a null result, [callAPI] throwing) [analyze] returns
    null without throwing, the lock is untouched, [lastCallTime] is
    unchanged and the list of calls gains no entry (it is unchanged, or
    trimmed by [canCall]). *)
Theorem analyze_records_and_locks_together
    (now : Z) (p : Settled) (nowRecord nowLock : Z) (c : t) :
  let c' := fst (analyze now p nowRecord nowLock c) in
  let answer := snd (analyze now p nowRecord nowLock c) in
  (forall r : ApiResult,
     admitted now c = true -> p = Fulfilled (Some r) ->
     answer = inr (Some r) /\
     rateLimiter c' =
       RateLimiter.recordCall nowRecord
         (fst (RateLimiter.canCall now (rateLimiter c))) /\
     RateLimiter.lastCallTime (rateLimiter c') = nowRecord /\
     lock c' = {| lockText := text r; until := nowLock + 30000;
                  lockData := data r |})
  /\ (admitted now c = false \/ p = Fulfilled None \/
      (exists error, p = Rejected error) ->
      answer = inr None /\
      lock c' = lock c /\
      RateLimiter.lastCallTime (rateLimiter c') =
        RateLimiter.lastCallTime (rateLimiter c) /\
      (RateLimiter.callsInLastMinute (rateLimiter c') =
         RateLimiter.callsInLastMinute (rateLimiter c) \/
       RateLimiter.callsInLastMinute (rateLimiter c') =
         filter (RateLimiter.withinMinute now)
           (RateLimiter.callsInLastMinute (rateLimiter c)))).
Proof.
  intros c' answer. subst c' answer. rewrite analyze_spec.
  unfold admitted.
  destruct (canCall_keeps_or_trims now (rateLimiter c)) as [Hlast Hcalls].
  split.
  - intros r Hadm ->.
    apply andb_true_iff in Hadm. destruct Hadm as [Hadm Hcan].
    apply andb_true_iff in Hadm. destruct Hadm as [Hen Hpr].
    apply negb_true_iff in Hpr. rewrite Hen, Hpr, Hcan.
    cbn -[analyze_resume RateLimiter.canCall].
    rewrite analyze_resume_spec. simpl. repeat split.
  - intros Hno.
    destruct (enabled c); cbn -[analyze_resume RateLimiter.canCall];
      [| repeat split; auto].
    destruct (isProcessing c); cbn -[analyze_resume RateLimiter.canCall];
      [repeat split; auto |].
    destruct (snd (RateLimiter.canCall now (rateLimiter c)));
      cbn -[analyze_resume RateLimiter.canCall];
      [| repeat split; auto].
    rewrite analyze_resume_spec.
    destruct Hno as [Hf | [-> | [e ->]]]; [discriminate | |];
      simpl; repeat split; auto.
Qed.

(** The freshly built vision channel at 100000 ms, a call that resolves
    with a description and one that is thrown out of [callAPI]. *)
Lemma analyze_records_and_locks_together_witness :
  let c := create vision defaultConfig in
  let r := {| text := Some "a cat on the sofa";
              data := Some (ServiceData "{}") |} in
  (snd (analyze 100000 (Fulfilled (Some r)) 100900 100901 c) = inr (Some r) /\
   lock (fst (analyze 100000 (Fulfilled (Some r)) 100900 100901 c)) =
     {| lockText := text r; until := 130901; lockData := data r |}) /\
  (snd (analyze 100000 (Rejected {| message := "boom" |}) 100900 100901 c)
     = inr None /\
   lock (fst (analyze 100000 (Rejected {| message := "boom" |})
                100900 100901 c)) = lock c).
Proof.
  intros c r. split.
  - destruct (proj1 (analyze_records_and_locks_together
                       100000 (Fulfilled (Some r)) 100900 100901 c)
                r eq_refl eq_refl) as (H1 & _ & _ & H4).
    split; [exact H1 | exact H4].
  - destruct (proj2 (analyze_records_and_locks_together
                       100000 (Rejected {| message := "boom" |})
                       100900 100901 c)
                (or_intror (or_intror (ex_intro _ _ eq_refl))))
      as (H1 & H2 & _).
    split; [exact H1 | exact H2].
Defined.

Lemma callVisionAPI_failure (fo : FetchOutcome) (c : t) :
  isFailure fo = true ->
  exists msg : string,
    callVisionAPI fo c =
    (c, inr {| text := Some fallbackText;
               data := Some (FallbackData msg) |}).
Proof.
  intros H. unfold callVisionAPI, tryCatch, throw, ret.
  destruct fo; try discriminate H; eexists; reflexivity.
Qed.

(** C9 (as amended).  A failure of the vision request (the request
    rejected, a non-OK response, an unreadable body, a reply without
    [success]) is caught inside [callVisionAPI], which then resolves to
    the placeholder result with text "图像分析中..." and data
    [{ hasCat: false, confidence: 0, error }]; [analyze] never throws.
    When the guards pass, [analyze] returns the placeholder, records the
    call and locks the placeholder text for 30000 ms: until then
    [getText()] returns it and the final text is the placeholder, not
    the state-derived default. *)
Theorem vision_failure_locks_placeholder
    (now : Z) (fo : FetchOutcome) (nowRecord nowLock : Z) (c : t) :
  type c = vision ->
  isFailure fo = true ->
  exists (msg : string) (c' : t),
    let placeholder := {| text := Some fallbackText;
                          data := Some (FallbackData msg) |} in
    callVisionAPI fo c = (c, inr placeholder) /\
    analyzeWith now fo nowRecord nowLock c =
      (c', inr (if admitted now c then Some placeholder else None)) /\
    (admitted now c = true ->
     isProcessing c' = false /\
     lock c' = {| lockText := Some fallbackText; until := nowLock + 30000;
                  lockData := Some (FallbackData msg) |} /\
     RateLimiter.lastCallTime (rateLimiter c') = nowRecord /\
     forall (later : Z) (stableState : StateValue),
       later < nowLock + 30000 ->
       getText later c' = Some fallbackText /\
       finalText (getText later c') stableState = fallbackText).
Proof.
  intros Hty Hfail.
  destruct (callVisionAPI_failure fo c Hfail) as [msg Hcall].
  assert (Hsettle : forall c1, type c1 = vision ->
            settle fo c1 = Fulfilled (Some {| text := Some fallbackText;
                                              data := Some (FallbackData msg) |})).
  { intros c1 H1. unfold settle, callAPI, bind, get. rewrite H1.
    destruct (callVisionAPI_failure fo c1 Hfail) as [msg1 Hcall1].
    rewrite Hcall1. do 3 f_equal.
    unfold callVisionAPI, tryCatch, throw, ret in Hcall, Hcall1.
    destruct fo; try discriminate Hfail; congruence. }
  unfold analyzeWith, bind, get, admitted. rewrite analyze_begin_spec.
  exists msg. cbv zeta.
  destruct (enabled c); cbn -[analyze_resume RateLimiter.canCall settle].
  2: { exists c. split; [exact Hcall |]. split; [reflexivity | discriminate]. }
  destruct (isProcessing c); cbn -[analyze_resume RateLimiter.canCall settle].
  { exists c. split; [exact Hcall |]. split; [reflexivity | discriminate]. }
  destruct (snd (RateLimiter.canCall now (rateLimiter c)));
    cbn -[analyze_resume RateLimiter.canCall settle].
  - rewrite Hsettle by exact Hty. rewrite analyze_resume_spec.
    eexists. split; [exact Hcall |]. split; [reflexivity |].
    intros _. simpl. split; [reflexivity |]. split; [reflexivity |].
    split; [reflexivity |]. intros later stableState Hlater.
    unfold getText; simpl.
    destruct (Z.ltb_spec later (nowLock + 30000)); [| lia].
    split; reflexivity.
  - eexists. split; [exact Hcall |]. split; [reflexivity | discriminate].
Qed.

(** The default vision channel, the request rejected at 100000 ms. *)
Lemma vision_failure_locks_placeholder_witness :
  exists (msg : string) (c' : t),
    analyzeWith 100000 (NetworkError {| message := "Failed to fetch" |})
      100400 100401 (create vision defaultConfig) =
      (c', inr (Some {| text := Some fallbackText;
                        data := Some (FallbackData msg) |})) /\
    getText 130400 c' = Some fallbackText.
Proof.
  destruct (vision_failure_locks_placeholder
              100000 (NetworkError {| message := "Failed to fetch" |})
              100400 100401 (create vision defaultConfig) eq_refl eq_refl)
    as (msg & c' & _ & Hrun & Hadm).
  exists msg, c'. split; [exact Hrun |].
  destruct (Hadm eq_refl) as (_ & _ & _ & Hlater).
  apply (Hlater 130400 idle). reflexivity.
Defined.

(** After a rejected request the channel does hold an override text:
    [getText()] is not null and the final text is not the state's
    default. *)
Lemma failed_call_leaves_override_text :
  let c' := fst (analyzeWith 100000
                   (NetworkError {| message := "Failed to fetch" |})
                   100400 100401 (create vision defaultConfig)) in
  getText 101000 c' = Some fallbackText /\
  getText 101000 c' <> None /\
  finalText (getText 101000 c') idle <> stateResponses idle.
Proof.
  vm_compute. repeat split; discriminate.
Qed.

End VLMChannelFacts.

Module EmotionRules.
Import Js Emotions EmotionCategory EmotionsFacts.
Local Open Scope Q_scope.

(** Split on every comparison in sight and let linear arithmetic close
    the branches. *)
Ltac split_comparisons :=
  unfold gt, lt in *;
  repeat match goal with
         | H : context [Qltb ?a ?b] |- _ =>
             destruct (Qltb_spec a b); simpl in *; try lra
         | |- context [Qltb ?a ?b] =>
             destruct (Qltb_spec a b); simpl; try lra
         end;
  try lra.

(** Case analysis on the position [i] of a rule in a concrete table. *)
Ltac by_index i Hi tac :=
  destruct i as [| i]; simpl in Hi;
  [ first [discriminate Hi | injection Hi as <-; tac]
  | first [discriminate Hi | by_index i Hi tac] ].

(** What a non-null result of [classifyEmotion] says about the rules. *)
Lemma classifyEmotion_inv (f : AudioFeatures) (res : Classification) :
  classifyEmotion f = Some res ->
  exists (i : nat) (r : Rule),
    nth_error rules i = Some r /\
    resultId res = emotionId r /\
    confidence res = rule r (normalize f) /\
    0 < rule r (normalize f) /\
    (forall j r', (j < i)%nat -> nth_error rules j = Some r' ->
                  rule r' (normalize f) < rule r (normalize f)) /\
    getEmotion (emotionId r) = Some (emotion res) /\
    getCategory (categoryId (emotion res)) = Some (category res).
Proof.
  unfold classifyEmotion.
  pose proof (findBest_firstBest (normalize f)) as Hbest.
  destruct (findBest (normalize f)) as [b |]; [| discriminate].
  simpl in Hbest.
  destruct Hbest as (i & r & Hi & Hid & Hc & Hpos & _ & Hbefore).
  destruct (Qltb 0.5 (matchConfidence b)); [| discriminate].
  rewrite Hid.
  destruct (getEmotion (emotionId r)) as [emo |] eqn:He; [| discriminate].
  destruct (getCategory (categoryId emo)) as [cat |] eqn:Hcat;
    [| discriminate].
  intros E. injection E as <-. simpl.
  exists i, r. rewrite <- Hc. repeat split; auto.
Qed.

(** A rule that wins the selection is not one of the five shadowed
    rules: each of those fires only where an earlier rule fires with at
    least its confidence ("find_mom" before "dieaway",
    "ask_for_hunting" before "goout", "warning" and "goaway", "anxious"
    before "alert"). *)
Lemma winner_is_live (n : Normalized) (i : nat) (r : Rule) :
  nth_error rules i = Some r ->
  0 < rule r n ->
  (forall j r', (j < i)%nat -> nth_error rules j = Some r' ->
                rule r' n < rule r n) ->
  In (emotionId r) liveIds.
Proof.
  intros Hi Hpos Hbefore.
  pose proof (fun r' => Hbefore 8%nat r') as H8.
  pose proof (fun r' => Hbefore 10%nat r') as H10.
  pose proof (fun r' => Hbefore 11%nat r') as H11.
  unfold rules in Hi, H8, H10, H11.
  by_index i Hi ltac:(simpl; try (unfold liveIds; simpl; tauto)).
  - (* dieaway *)
    exfalso. specialize (H10 _ ltac:(lia) eq_refl). simpl in Hpos, H10.
    clear - Hpos H10. split_comparisons.
  - (* goout *)
    exfalso. specialize (H8 _ ltac:(lia) eq_refl). simpl in Hpos, H8.
    clear - Hpos H8. split_comparisons.
  - (* warning *)
    exfalso. specialize (H8 _ ltac:(lia) eq_refl). simpl in Hpos, H8.
    clear - Hpos H8. split_comparisons.
  - (* alert *)
    exfalso. specialize (H11 _ ltac:(lia) eq_refl). simpl in Hpos, H11.
    clear - Hpos H11. split_comparisons.
  - (* goaway *)
    exfalso. specialize (H8 _ ltac:(lia) eq_refl). simpl in Hpos, H8.
    clear - Hpos H8. split_comparisons.
Qed.

(** Membership in a closed list of strings, decided by computation. *)
Ltac in_closed_list := simpl; repeat (first [left; reflexivity | right]).

Lemma energy_saturates (f : AudioFeatures) :
  0.000001 <= energy f -> 1 <= normalizedEnergy (normalize f).
Proof.
  intros H. simpl. unfold jsMin.
  destruct (Qltb_spec 1 (energy f * 1000000)); lra.
Qed.

(** With the normalized energy at its cap, the winning rule is one of
    five. *)
Lemma saturated_winner (n : Normalized) (i : nat) (r : Rule) :
  1 <= normalizedEnergy n ->
  nth_error rules i = Some r ->
  0 < rule r n ->
  (forall j r', (j < i)%nat -> nth_error rules j = Some r' ->
                rule r' n < rule r n) ->
  In (emotionId r)
     ["ask_for_hunting"; "find_mom"; "anxious"; "courtship"; "for_fight"]%string.
Proof.
  intros Hcap Hi Hpos Hbefore.
  pose proof (winner_is_live n i r Hi Hpos Hbefore) as Hlive.
  clear Hbefore. unfold rules in Hi.
  by_index i Hi
    ltac:(simpl in Hpos, Hlive |- *;
          first [ tauto
                | solve [exfalso; clear Hlive; split_comparisons]
                | exfalso; clear - Hlive; unfold liveIds in Hlive;
                  simpl in Hlive; intuition discriminate ]).
Qed.

(** X1.  Of the 21 rules of [classifyEmotion], sixteen can win and five
    never do: the result id is one of [liveIds], each of which is
    returned for some feature vector, and it is never "dieaway",
    "goout", "warning", "alert" or "goaway", although each of these has
    a rule in the table. *)
Theorem classifyEmotion_returnable_ids :
  (forall key : string,
     (exists (f : AudioFeatures) (res : Classification),
        classifyEmotion f = Some res /\ resultId res = key)
     <-> In key liveIds)
  /\ (forall key : string,
        In key shadowedIds ->
        In key (map emotionId rules) /\
        forall (f : AudioFeatures) (res : Classification),
          classifyEmotion f = Some res -> resultId res <> key).
Proof.
  assert (Hlive : forall f res, classifyEmotion f = Some res ->
                                In (resultId res) liveIds).
  { intros f res H.
    destruct (classifyEmotion_inv f res H)
      as (i & r & Hi & Hid & _ & Hpos & Hbefore & _).
    rewrite Hid. exact (winner_is_live _ i r Hi Hpos Hbefore). }
  split.
  - intros key. split.
    + intros (f & res & H & <-). exact (Hlive f res H).
    + intros Hin. exists (sampleFor key).
      unfold liveIds in Hin. simpl in Hin.
      repeat (destruct Hin as [<- | Hin];
              [eexists; split; [vm_compute; reflexivity | reflexivity] |]).
      contradiction.
  - intros key Hin. split.
    + unfold shadowedIds in Hin. simpl in Hin.
      repeat (destruct Hin as [<- | Hin]; [in_closed_list |]).
      contradiction.
    + intros f res H <-. specialize (Hlive f res H).
      unfold shadowedIds in Hin. unfold liveIds in Hlive.
      simpl in Hin, Hlive.
      repeat (destruct Hin as [Hin | Hin];
              [rewrite <- Hin in Hlive; intuition discriminate |]).
      contradiction.
Qed.

(** Every rule yields 0 or at least 0.6. *)
Lemma rules_floor (r : Rule) (n : Normalized) :
  In r rules -> rule r n == 0 \/ 0.6 <= rule r n.
Proof.
  intros Hin.
  each_rule Hin ltac:(simpl; unfold gt, lt;
      repeat match goal with
             | |- context [Qltb ?a ?b] =>
                 destruct (Qltb_spec a b); simpl
             end;
      first [left; reflexivity | right; lra]).
Qed.

(** X2.  The 0.5 cut-off of [classifyEmotion] never rejects a match:
    the result is null exactly when no rule fires (all 21 yield 0), and
    a result that is returned has confidence at least 0.6. *)
Theorem classifyEmotion_threshold_is_idle (f : AudioFeatures) :
  (classifyEmotion f = None <->
   forall r : Rule, In r rules -> rule r (normalize f) == 0)
  /\ (forall res : Classification,
        classifyEmotion f = Some res -> 0.6 <= confidence res).
Proof.
  split; [split |].
  - unfold classifyEmotion.
    pose proof (findBest_firstBest (normalize f)) as Hbest.
    destruct (findBest (normalize f)) as [b |]; simpl in Hbest.
    + destruct Hbest as (i & r0 & Hi & Hid & Hc & Hpos & _ & _).
      pose proof (nth_error_In _ _ Hi) as Hin0.
      pose proof (rules_fire_above_threshold r0 (normalize f) Hin0) as Hhi.
      rewrite <- Hc in Hhi. specialize (Hhi Hpos).
      destruct (Qltb_spec 0.5 (matchConfidence b)) as [_ | Hlo];
        [| contradiction].
      destruct (rules_resolve r0 Hin0) as (emo & cat & He & _ & Hcat & _).
      rewrite Hid, He, Hcat. intros Hnone. discriminate Hnone.
    + intros _ r Hin. specialize (Hbest r Hin).
      destruct (rules_floor r (normalize f) Hin) as [H0 | H6];
        [exact H0 | lra].
  - intros Hall.
    destruct (classifyEmotion f) as [res |] eqn:E; [| reflexivity].
    exfalso.
    destruct (classifyEmotion_inv f res E)
      as (i & r & Hi & _ & _ & Hpos & _).
    specialize (Hall r (nth_error_In _ _ Hi)). lra.
  - intros res E.
    destruct (classifyEmotion_inv f res E)
      as (i & r & Hi & _ & Hc & Hpos & _).
    rewrite Hc.
    destruct (rules_floor r (normalize f) (nth_error_In _ _ Hi)) as [H0 | H6];
      [lra | exact H6].
Qed.

(** None of the five emotions left at the cap is a "friendly" one. *)
Lemma saturated_ids_not_friendly (key : string) (emo : Emotion)
    (cat : EmotionCategory) :
  In key ["ask_for_hunting"; "find_mom"; "anxious"; "courtship";
          "for_fight"]%string ->
  getEmotion key = Some emo ->
  getCategory (categoryId emo) = Some cat ->
  categoryKey cat <> "friendly"%string.
Proof.
  intros Hin He Hcat. simpl in Hin.
  repeat (destruct Hin as [<- | Hin];
          [vm_compute in He; injection He as <-;
           vm_compute in Hcat; injection Hcat as <-; discriminate |]).
  contradiction.
Qed.

(** X3.  Energy saturates: for a vector whose energy is at least 1e-6
    (normalized energy at its cap 1) only "ask_for_hunting", "find_mom",
    "anxious", "courtship" and "for_fight" can be returned, so neither
    [classifyEmotion] nor [classifyEmotionCategory] ever answers in the
    "friendly" category. *)
Theorem loud_audio_is_never_friendly (f : AudioFeatures) :
  0.000001 <= energy f ->
  classifyEmotionCategory f <> Some "friendly"%string
  /\ forall res : Classification,
       classifyEmotion f = Some res ->
       In (resultId res)
          ["ask_for_hunting"; "find_mom"; "anxious"; "courtship";
           "for_fight"]%string
       /\ categoryKey (category res) <> "friendly"%string.
Proof.
  intros Hloud.
  assert (Hres : forall res : Classification,
            classifyEmotion f = Some res ->
            In (resultId res)
               ["ask_for_hunting"; "find_mom"; "anxious"; "courtship";
                "for_fight"]%string
            /\ categoryKey (category res) <> "friendly"%string).
  { intros res E.
    destruct (classifyEmotion_inv f res E)
      as (i & r & Hi & Hid & _ & Hpos & Hbefore & He & Hcat).
    pose proof (saturated_winner _ i r (energy_saturates f Hloud)
                  Hi Hpos Hbefore) as Hin.
    rewrite Hid. split; [exact Hin |].
    exact (saturated_ids_not_friendly _ _ _ Hin He Hcat). }
  split; [| exact Hres].
  unfold classifyEmotionCategory.
  destruct (classifyEmotion f) as [res |] eqn:E; [| discriminate].
  intros H. injection H as H. exact (proj2 (Hres res eq_refl) H).
Qed.

Lemma loud_audio_is_never_friendly_witness :
  0.000001 <= energy (featuresOf 0.82 0.82 0.72 5 0.82)
  /\ classifyEmotionCategory (featuresOf 0.82 0.82 0.72 5 0.82)
     <> Some "friendly"%string
  /\ forall res : Classification,
       classifyEmotion (featuresOf 0.82 0.82 0.72 5 0.82) = Some res ->
       In (resultId res)
          ["ask_for_hunting"; "find_mom"; "anxious"; "courtship";
           "for_fight"]%string
       /\ categoryKey (category res) <> "friendly"%string.
Proof.
  split; [vm_compute; discriminate |].
  apply loud_audio_is_never_friendly. vm_compute. discriminate.
Defined.

End EmotionRules.

Module LRUSessionFacts.
Import Js LRUCache LRUSession LRUCacheFacts.

Lemma map_delete_keys {V : Type} (key : string) (m : Map V) :
  map fst (map_delete key m) =
  filter (fun k => negb (String.eqb k key)) (map fst m).
Proof.
  induction m as [| [k v] m IH]; simpl; [reflexivity |].
  destruct (String.eqb k key); simpl; rewrite IH; reflexivity.
Qed.

Lemma map_delete_not_In {V : Type} (key : string) (m : Map V) :
  ~ In key (map fst (map_delete key m)).
Proof.
  rewrite map_delete_keys. intros H. apply filter_In in H.
  destruct H as [_ H]. rewrite String.eqb_refl in H. discriminate H.
Qed.

Lemma map_delete_NoDup {V : Type} (key : string) (m : Map V) :
  NoDup (map fst m) -> NoDup (map fst (map_delete key m)).
Proof.
  intros H. rewrite map_delete_keys. apply NoDup_filter. exact H.
Qed.

Lemma map_delete_In_other {V : Type} (key k : string) (m : Map V) :
  In k (map fst (map_delete key m)) -> In k (map fst m).
Proof.
  rewrite map_delete_keys. intros H. apply filter_In in H. tauto.
Qed.

Lemma append_NoDup {V : Type} (key : string) (value : V) (m : Map V) :
  NoDup (map fst m) -> ~ In key (map fst m) ->
  NoDup (map fst (m ++ [(key, value)])).
Proof.
  intros Hnd Hfresh. rewrite map_app. simpl.
  apply NoDup_app; [exact Hnd | constructor; [intros [] | constructor] |].
  intros k Hk [<- | []]. exact (Hfresh Hk).
Qed.

(** What [set] leaves in the map: the entries that were kept, without
    [key], and then the new entry as the most recent one. *)
Lemma set_shape {V : Type} (key : string) (value : V) (c : t V) :
  exists kept : Map V,
    cache (set key value c) = kept ++ [(key, value)] /\
    ~ In key (map fst kept) /\
    (NoDup (map fst (cache c)) -> NoDup (map fst kept)) /\
    Z.of_nat (S (length kept)) <=
      Z.max (Z.max (maxSize c) 1) (Z.of_nat (length (cache c))).
Proof.
  unfold set. cbn [cache maxSize].
  destruct (map_has key (cache c)) eqn:Hhas.
  - apply map_has_In in Hhas.
    exists (map_delete key (cache c)).
    rewrite map_set_absent by apply map_delete_not_In.
    repeat split.
    + apply map_delete_not_In.
    + apply map_delete_NoDup.
    + pose proof (map_delete_length key (cache c) Hhas). lia.
  - assert (Hfresh : ~ In key (map fst (cache c))).
    { intros H. apply map_has_In in H. congruence. }
    destruct (Z.leb_spec (maxSize c) (Z.of_nat (length (cache c)))) as [Hfull | Hroom].
    + destruct (cache c) as [| [k0 v0] rest] eqn:Hm; cbn [map_first_key].
      * exists []. repeat split; simpl; auto; try lia; constructor.
      * exists (map_delete k0 ((k0, v0) :: rest)).
        assert (Hnot : ~ In key (map fst (map_delete k0 ((k0, v0) :: rest)))).
        { intros H. apply map_delete_In_other in H. exact (Hfresh H). }
        rewrite map_set_absent by exact Hnot.
        repeat split.
        -- exact Hnot.
        -- apply map_delete_NoDup.
        -- pose proof (map_delete_length k0 ((k0, v0) :: rest)
                         (or_introl eq_refl)). lia.
    + exists (cache c). rewrite map_set_absent by exact Hfresh.
      repeat split; auto; lia.
Qed.

Lemma map_get_app_fresh {V : Type} (key : string) (value : V) (m : Map V) :
  ~ In key (map fst m) ->
  map_has key (m ++ [(key, value)]) = true /\
  map_get key (m ++ [(key, value)]) = Some value /\
  map_delete key (m ++ [(key, value)]) = m.
Proof.
  intros Hfresh. repeat split.
  - apply map_has_In. rewrite map_app. apply in_or_app. right. left.
    reflexivity.
  - unfold map_get. induction m as [| [k v] m IH]; simpl.
    + rewrite String.eqb_refl. reflexivity.
    + simpl in Hfresh.
      destruct (String.eqb_spec k key) as [E | _]; [exfalso; auto |].
      apply IH. tauto.
  - unfold map_delete. rewrite filter_app. simpl.
    rewrite String.eqb_refl. simpl. rewrite app_nil_r.
    apply map_delete_absent. exact Hfresh.
Qed.

(** What [get] does on a key that is present: the first entry of that
    key moves to the most-recent end. *)
Lemma get_hit {V : Type} (key : string) (c : t V) :
  In key (map fst (cache c)) ->
  exists value : V,
    map_get key (cache c) = Some value /\
    get key c =
      ({| maxSize := maxSize c;
          cache := map_delete key (cache c) ++ [(key, value)] |},
       Some value).
Proof.
  intros Hin. unfold get.
  pose proof (proj2 (map_has_In key (cache c)) Hin) as Hhas.
  rewrite Hhas. cbn [negb].
  assert (Hget : exists value, map_get key (cache c) = Some value).
  { unfold map_get. clear Hhas.
    induction (cache c) as [| [k v] m IH]; simpl in *; [contradiction |].
    destruct (String.eqb_spec k key) as [E | N]; [eexists; reflexivity |].
    apply IH. destruct Hin as [E | H]; [contradiction | exact H]. }
  destruct Hget as [value Hget]. exists value. rewrite Hget.
  rewrite map_set_absent by apply map_delete_not_In.
  split; reflexivity.
Qed.

Lemma get_miss {V : Type} (key : string) (c : t V) :
  ~ In key (map fst (cache c)) -> get key c = (c, None).
Proof.
  intros Hout. unfold get.
  destruct (map_has key (cache c)) eqn:Hhas; [| reflexivity].
  apply map_has_In in Hhas. contradiction.
Qed.

Lemma step_well_formed {V : Type} (c : t V) (op : Op V) :
  well_formed c ->
  well_formed (step c op) /\ maxSize (step c op) = maxSize c.
Proof.
  unfold well_formed, getAllKeys, size. intros [Hnd Hsz].
  destruct op as [key value | key |]; cbn [step].
  - destruct (set_shape key value c) as (kept & E & Hfresh & Hkept & Hlen).
    assert (Hmax : maxSize (set key value c) = maxSize c) by reflexivity.
    rewrite E, Hmax. repeat split.
    + apply append_NoDup; auto.
    + rewrite length_app. simpl. lia.
  - destruct (in_dec string_dec key (map fst (cache c))) as [Hin | Hout].
    + destruct (get_hit key c Hin) as (value & _ & E). rewrite E.
      cbn [fst cache maxSize]. repeat split.
      * apply append_NoDup;
          [apply map_delete_NoDup; exact Hnd | apply map_delete_not_In].
      * pose proof (map_delete_length key (cache c) Hin).
        rewrite length_app. simpl. lia.
    + rewrite (get_miss key c Hout). cbn [fst]. auto.
  - unfold clear. cbn [cache maxSize length map]. repeat split.
    + constructor.
    + lia.
Qed.

(** X4.  Whatever calls ([set], [get], [clear]) are made on a cache
    created with capacity [N], in whatever order and with whatever keys:
    its keys stay distinct, its capacity stays [N], and it never holds
    more than [N] entries -- one entry when [N] is below 1, where [set]
    still stores its pair. *)
Theorem run_never_exceeds_capacity {V : Type} (N : Z) (ops : list (Op V)) :
  NoDup (getAllKeys (run ops (create N)))
  /\ size (run ops (create N)) <= Z.max N 1
  /\ maxSize (run ops (create N)) = N.
Proof.
  assert (H : forall c : t V,
             well_formed c ->
             well_formed (run ops c) /\ maxSize (run ops c) = maxSize c).
  { induction ops as [| op ops IH]; intros c Hc; [auto |].
    destruct (step_well_formed c op Hc) as [Hwf Hmax].
    destruct (IH _ Hwf) as [Hwf' Hmax'].
    unfold run in *. cbn [fold_left]. split; [exact Hwf' | congruence]. }
  destruct (H (create N)) as [[Hnd Hsz] Hmax].
  - split; [constructor | unfold size; simpl; lia].
  - rewrite Hmax in Hsz. simpl in *. auto.
Qed.

(** X5.  Round trip: whatever the cache held, after [set(key, value)]
    the key is present, [get(key)] returns [value] and leaves the cache
    as it is (the key already is the most recent one), and [recent(1)]
    is that value alone. *)
Theorem set_then_get {V : Type} (key : string) (value : V) (c : t V) :
  get key (set key value c) = (set key value c, Some value)
  /\ has key (set key value c) = true
  /\ recent 1 (set key value c) = [value].
Proof.
  destruct (set_shape key value c) as (kept & E & Hfresh & _ & _).
  destruct (map_get_app_fresh key value kept Hfresh) as (Hhas & Hget & Hdel).
  assert (Hmax : maxSize (set key value c) = maxSize c) by reflexivity.
  repeat split.
  - unfold get. rewrite E, Hhas, Hget, Hdel. cbn [negb].
    rewrite map_set_absent by exact Hfresh. rewrite <- E.
    destruct (set key value c); reflexivity.
  - unfold has. rewrite E. exact Hhas.
  - unfold recent, getAllValues, slice_from. rewrite E.
    rewrite map_app, length_app, length_map. simpl.
    rewrite Z.max_l by lia.
    replace (Z.to_nat (Z.of_nat (length kept + 1) + -1)) with
      (length (map snd kept)) by (rewrite length_map; lia).
    rewrite skipn_app, skipn_all, Nat.sub_diag. reflexivity.
Qed.

(** X6.  Reading protects from eviction.  In a full cache (capacity at
    least 1, distinct keys) whose two oldest entries are [k1] and [k2],
    storing a new key evicts [k1]; after [get(k1)] it evicts [k2]
    instead and [k1] stays, as the second most recent entry. *)
Theorem get_shields_from_eviction {V : Type}
    (c : t V) (k1 k2 knew : string) (v1 v2 v : V) (rest : Map V) :
  1 <= maxSize c ->
  maxSize c <= size c ->
  cache c = (k1, v1) :: (k2, v2) :: rest ->
  NoDup (getAllKeys c) ->
  ~ In knew (getAllKeys c) ->
  cache (set knew v c) = (k2, v2) :: rest ++ [(knew, v)]
  /\ snd (get k1 c) = Some v1
  /\ cache (set knew v (fst (get k1 c))) = rest ++ [(k1, v1); (knew, v)].
Proof.
  unfold getAllKeys. intros Hcap Hfull Hc Hnd Hnew.
  assert (Hfull' : (maxSize c <=? size c) = true) by (apply Z.leb_le; exact Hfull).
  split; [| split].
  - rewrite (set_fresh knew v c Hcap Hnd Hnew), Hfull', Hc. reflexivity.
  - destruct (get_hit k1 c) as (value & Hget & E).
    { rewrite Hc. left. reflexivity. }
    rewrite E. cbn [snd]. rewrite <- Hget, Hc. unfold map_get. simpl.
    rewrite String.eqb_refl. reflexivity.
  - destruct (get_hit k1 c) as (value & Hget & E).
    { rewrite Hc. left. reflexivity. }
    assert (Hv : value = v1).
    { rewrite Hc in Hget. unfold map_get in Hget. simpl in Hget.
      rewrite String.eqb_refl in Hget. simpl in Hget. congruence. }
    subst value. rewrite E. cbn [fst].
    rewrite Hc in Hnd, Hnew. simpl in Hnd, Hnew.
    inversion Hnd as [| ? ? Hk1 Hnd']; subst.
    assert (Hdel : map_delete k1 (cache c) = (k2, v2) :: rest).
    { rewrite Hc. unfold map_delete. cbn [filter fst].
      rewrite String.eqb_refl. cbn [negb].
      apply (map_delete_absent k1 ((k2, v2) :: rest)). exact Hk1. }
    rewrite Hdel.
    set (c1 := {| maxSize := maxSize c;
                  cache := ((k2, v2) :: rest) ++ [(k1, v1)] |}).
    assert (Hnd1 : NoDup (map fst (cache c1))).
    { apply append_NoDup; assumption. }
    assert (Hnew1 : ~ In knew (map fst (cache c1))).
    { unfold c1. cbn [cache]. rewrite map_app. intros H.
      apply in_app_or in H. simpl in H. tauto. }
    rewrite (set_fresh knew v c1 Hcap Hnd1 Hnew1).
    assert (Hsz : size c1 = size c).
    { unfold size, c1. cbn [cache]. rewrite Hc, length_app. simpl. lia. }
    rewrite Hsz. cbn [maxSize c1]. rewrite Hfull'.
    unfold c1. cbn [cache]. simpl. rewrite <- app_assoc. reflexivity.
Qed.

Lemma get_shields_from_eviction_witness :
  let c := set "c" 3 (set "b" 2 (set "a" 1 (create 3))) in
  cache (set "d" 4 c) = [("b", 2); ("c", 3); ("d", 4)]
  /\ snd (get "a" c) = Some 1
  /\ cache (set "d" 4 (fst (get "a" c))) = [("c", 3); ("a", 1); ("d", 4)].
Proof.
  intros c.
  apply (get_shields_from_eviction c "a" "b" "d" 1 2 4 [("c", 3)]).
  - vm_compute. discriminate.
  - vm_compute. discriminate.
  - reflexivity.
  - vm_compute. repeat constructor; simpl; intuition discriminate.
  - vm_compute. intuition discriminate.
Defined.

End LRUSessionFacts.

Module RateLimiterViewFacts.
Import RateLimiter RateLimiterView RateLimiterFacts.

Lemma withinMinute_later (now now' t : Z) :
  now <= now' -> withinMinute now' t = true -> withinMinute now t = true.
Proof.
  unfold withinMinute. intros H E. apply Z.ltb_lt in E. apply Z.ltb_lt. lia.
Qed.

(** The trimming [canCall] does at [now] is invisible from [now] on. *)
Lemma canCall_same_as_before (now : Z) (r : t) :
  same_answers now (fst (canCall now r)) r.
Proof.
  destruct (canCall_params now r) as (E1 & E2 & E3).
  repeat split; auto.
  intros now' Hle. unfold canCall.
  destruct (now - lastCallTime r <? minIntervalMs r); [reflexivity |].
  assert (E : callsInLastMinute
                (fst (if maxPerMinute r <=?
                         Z.of_nat (length (filter (withinMinute now)
                                             (callsInLastMinute r)))
                      then ({| minIntervalMs := minIntervalMs r;
                               maxPerMinute := maxPerMinute r;
                               lastCallTime := lastCallTime r;
                               callsInLastMinute :=
                                 filter (withinMinute now)
                                   (callsInLastMinute r) |}, false)
                      else ({| minIntervalMs := minIntervalMs r;
                               maxPerMinute := maxPerMinute r;
                               lastCallTime := lastCallTime r;
                               callsInLastMinute :=
                                 filter (withinMinute now)
                                   (callsInLastMinute r) |}, true)))
              = filter (withinMinute now) (callsInLastMinute r)).
  { destruct (maxPerMinute r <=? _); reflexivity. }
  cbv zeta. rewrite E. apply filter_filter_weaker.
  intros t. apply withinMinute_later. exact Hle.
Qed.

Lemma same_answers_later (lo lo' : Z) (r r' : t) :
  same_answers lo r r' -> lo <= lo' -> same_answers lo' r r'.
Proof.
  intros (E1 & E2 & E3 & Hf) Hle. repeat split; auto.
  intros now Hnow. apply Hf. lia.
Qed.

Lemma same_answers_trans (lo : Z) (r1 r2 r3 : t) :
  same_answers lo r1 r2 -> same_answers lo r2 r3 -> same_answers lo r1 r3.
Proof.
  intros (A1 & A2 & A3 & Af) (B1 & B2 & B3 & Bf).
  repeat split; try congruence.
  intros now Hnow. rewrite (Af now Hnow). apply Bf. exact Hnow.
Qed.

Lemma same_answers_sym (lo : Z) (r1 r2 : t) :
  same_answers lo r1 r2 -> same_answers lo r2 r1.
Proof.
  intros (A1 & A2 & A3 & Af). repeat split; auto.
  intros now Hnow. symmetry. apply Af. exact Hnow.
Qed.

Lemma canCall_same (lo now : Z) (r r' : t) :
  same_answers lo r r' -> lo <= now ->
  snd (canCall now r) = snd (canCall now r') /\
  same_answers now (fst (canCall now r)) (fst (canCall now r')).
Proof.
  intros Hs Hle. split.
  - destruct Hs as (E1 & E2 & E3 & Hf). unfold canCall.
    rewrite E1, E2, E3, (Hf now Hle).
    destruct (now - lastCallTime r' <? minIntervalMs r'); [reflexivity |].
    destruct (maxPerMinute r' <=? _); reflexivity.
  - apply (same_answers_trans now _ r).
    + apply canCall_same_as_before.
    + apply (same_answers_trans now _ r').
      * apply (same_answers_later lo); assumption.
      * apply same_answers_sym, canCall_same_as_before.
Qed.

Lemma recordCall_same (lo now : Z) (r r' : t) :
  same_answers lo r r' -> lo <= now ->
  same_answers now (recordCall now r) (recordCall now r').
Proof.
  intros (E1 & E2 & E3 & Hf) Hle. unfold recordCall.
  repeat split; simpl; auto.
  intros now' Hnow'. rewrite !filter_app, (Hf now') by lia. reflexivity.
Qed.

Lemma exec_same (ops : list Op) :
  forall (lo : Z) (r r' : t),
    same_answers lo r r' ->
    chronological ops ->
    (forall o, In o ops -> lo <= time_of o) ->
    snd (exec r ops) = snd (exec r' ops).
Proof.
  induction ops as [| o ops IH]; intros lo r r' Hs Hchr Hlo; [reflexivity |].
  destruct (chronological_tail o ops Hchr) as [Hchr' Hnext].
  assert (Hlo_o : lo <= time_of o) by (apply Hlo; left; reflexivity).
  destruct o as [now | now]; simpl in *.
  - destruct (canCall_same lo now r r' Hs Hlo_o) as [Ea Hs1].
    destruct (canCall now r) as [r1 a], (canCall now r') as [r1' a'].
    simpl in *. subst a'.
    specialize (IH now r1 r1' Hs1 Hchr' Hnext).
    destruct (exec r1 ops) as [r2 log], (exec r1' ops) as [r2' log'].
    simpl in *. congruence.
  - pose proof (recordCall_same lo now r r' Hs Hlo_o) as Hs1.
    specialize (IH now _ _ Hs1 Hchr' Hnext).
    destruct (exec (recordCall now r) ops) as [r2 log],
             (exec (recordCall now r') ops) as [r2' log'].
    simpl in *. congruence.
Qed.

(** X7.  [canCall()] is a pure query.  Asking costs no quota and changes
    no later answer: along any continuation of invocations at
    non-decreasing times, every answer and every recorded call is the
    same whether or not the limiter was asked first, although the asking
    may have trimmed its stored list. *)
Theorem canCall_costs_nothing (now : Z) (r : t) (rest : list Op) :
  chronological (CanCall now :: rest) ->
  snd (exec (fst (canCall now r)) rest) = snd (exec r rest)
  /\ snd (canCall now (fst (canCall now r))) = snd (canCall now r).
Proof.
  intros Hchr.
  destruct (chronological_tail _ _ Hchr) as [Hchr' Hnext]. split.
  - apply (exec_same rest now); [apply canCall_same_as_before | exact Hchr' |].
    exact Hnext.
  - apply (canCall_same now now); [apply canCall_same_as_before | lia].
Qed.

Lemma canCall_costs_nothing_witness :
  let r := recordCall 30000 (recordCall 10000 (create None None)) in
  let rest := [CanCall 80000; RecordCall 80100; CanCall 96000] in
  callsInLastMinute (fst (canCall 75000 r)) <> callsInLastMinute r
  /\ snd (exec (fst (canCall 75000 r)) rest) = snd (exec r rest)
  /\ snd (canCall 75000 (fst (canCall 75000 r))) = snd (canCall 75000 r).
Proof.
  intros r rest. split; [vm_compute; discriminate |].
  apply (canCall_costs_nothing 75000 r rest).
  apply Sorted_chronological. subst rest. simpl.
  repeat (constructor; try lia).
Defined.

Lemma filter_none {A : Type} (p : A -> bool) (l : list A) :
  (forall x, In x l -> p x = false) -> filter p l = [].
Proof.
  induction l as [| x l IH]; intros H; simpl; [reflexivity |].
  rewrite (H x (or_introl eq_refl)). apply IH.
  intros y Hy. apply H. right. exact Hy.
Qed.

(** X8.  The limiter always recovers.  Whatever was asked and recorded
    before (at non-decreasing times, under any discipline), once the
    last recorded call is at least [minIntervalMs] and at least 60000 ms
    old, a limiter with [maxPerMinute >= 1] answers [true]; one with
    [maxPerMinute <= 0] never does. *)
Theorem canCall_recovers (minI maxP : Z) (ops : list Op) (now : Z) :
  chronological ops ->
  (forall o, In o ops -> time_of o <= now) ->
  let rf := fst (exec (create (Some minI) (Some maxP)) ops) in
  (1 <= maxP -> minI <= now - lastCallTime rf ->
   60000 <= now - lastCallTime rf -> snd (canCall now rf) = true)
  /\ (maxP <= 0 -> snd (canCall now rf) = false).
Proof.
  intros Hchr Hnow rf.
  destruct (exec_params ops (create (Some minI) (Some maxP))) as [E1 E2].
  fold rf in E1, E2. simpl in E1, E2.
  split.
  - intros Hmax Hmin Hold.
    assert (Hag : exists hi, hi <= now /\
                    agrees hi rf (recorded
                      (snd (exec (create (Some minI) (Some maxP)) ops)))).
    { subst rf. destruct ops as [| o ops'].
      - exists now. split; [lia |]. simpl. apply create_agrees.
      - destruct (chronological_tail o ops' Hchr) as [_ Hnext].
        destruct (last_map_time_In o ops') as [o' [Hin E]].
        exists (last (map time_of (o :: ops')) (time_of o)). split.
        + rewrite E. apply Hnow. exact Hin.
        + apply (exec_agrees (o :: ops') _ [] (time_of o));
            [apply create_agrees | exact Hchr |].
          intros o1 [<- | Hin1]; [lia | apply Hnext; exact Hin1]. }
    destruct Hag as (hi & Hhi & _ & _ & Hle & Hfil).
    destruct (snd (canCall now rf)) eqn:Ea; [reflexivity | exfalso].
    apply canCall_answer in Ea. rewrite E1, E2, (Hfil now Hhi) in Ea.
    destruct Ea as [Ea | Ea]; [lia |].
    assert (Hnone : filter (withinMinute now)
                      (recorded (snd (exec (create (Some minI) (Some maxP))
                                        ops))) = []).
    { apply filter_none. intros t Hin. rewrite Forall_forall in Hle.
      specialize (Hle t Hin). unfold withinMinute. apply Z.ltb_ge. lia. }
    rewrite Hnone in Ea. simpl in Ea. lia.
  - intros Hmax. apply canCall_answer. right. rewrite E2. lia.
Qed.

Lemma canCall_recovers_witness :
  let ops := [CanCall 20000; RecordCall 20100; RecordCall 20200;
              RecordCall 20300; RecordCall 20400; CanCall 50000] in
  snd (canCall 50000 (fst (exec (create (Some 15000) (Some 3)) ops))) = false
  /\ snd (canCall 80400 (fst (exec (create (Some 15000) (Some 3)) ops)))
     = true.
Proof.
  intros ops. split; [reflexivity |].
  apply (canCall_recovers 15000 3 ops 80400).
  - apply Sorted_chronological. subst ops. simpl.
    repeat (constructor; try lia).
  - subst ops. simpl. intros o H.
    repeat (destruct H as [<- | H]; [simpl; lia |]). contradiction.
  - lia.
  - vm_compute. discriminate.
  - vm_compute. discriminate.
Defined.

End RateLimiterViewFacts.

Module VLMSessionFacts.
Import Js Effects Debounce VLMChannel VLMSession VLMChannelFacts.
Import RateLimiterFacts.

(** One call of [analyze], as the limiter sees it: nothing, a
    [canCall()], or a [canCall()] that answered [true] followed by a
    [recordCall()]. *)
Lemma analyze_limiter (k : Call) (c : t) :
  let c1 := fst (analyze (callAt k) (settled k) (recordAt k) (lockAt k) c) in
  let answer :=
    snd (analyze (callAt k) (settled k) (recordAt k) (lockAt k) c) in
  (succeeded answer = false /\
   (rateLimiter c1 = rateLimiter c \/
    rateLimiter c1 = fst (RateLimiter.canCall (callAt k) (rateLimiter c))))
  \/ (succeeded answer = true /\
      snd (RateLimiter.canCall (callAt k) (rateLimiter c)) = true /\
      rateLimiter c1 =
        RateLimiter.recordCall (recordAt k)
          (fst (RateLimiter.canCall (callAt k) (rateLimiter c)))).
Proof.
  cbv zeta. rewrite analyze_spec.
  destruct (negb (enabled c) || isProcessing c); [left; simpl; auto |].
  destruct (snd (RateLimiter.canCall (callAt k) (rateLimiter c))) eqn:Ea;
    [| left; simpl; auto].
  rewrite analyze_resume_spec.
  destruct (settled k) as [[r |] | e]; simpl; auto.
Qed.

Lemma ordered_weaken (lo lo' : Z) (calls : list Call) :
  lo' <= lo -> ordered lo calls -> ordered lo' calls.
Proof.
  destruct calls as [| k rest]; simpl; [auto |].
  intros Hle (H1 & H2 & H3). repeat split; auto; lia.
Qed.

(** The calls that returned a result stay spaced and never crowd a
    60-second window, from any channel whose limiter agrees with a
    history that is spaced and uncrowded. *)
Lemma session_limited (minI maxP : Z) (calls : list Call) :
  forall (c : t) (recs : list Z) (lo : Z),
    RateLimiter.minIntervalMs (rateLimiter c) = minI ->
    RateLimiter.maxPerMinute (rateLimiter c) = maxP ->
    RateLimiter.agrees lo (rateLimiter c) recs ->
    RateLimiter.spaced minI recs ->
    (forall T, Z.of_nat (length (RateLimiter.trailing T recs)) <= maxP) ->
    ordered lo calls ->
    RateLimiter.spaced minI (recs ++ successTimes (snd (session c calls))) /\
    forall T,
      Z.of_nat (length (RateLimiter.trailing T
                          (recs ++ successTimes (snd (session c calls)))))
      <= maxP.
Proof.
  induction calls as [| k rest IH]; intros c recs lo Emin Emax Hag Hsp Hwin Hord.
  - simpl. rewrite app_nil_r. auto.
  - destruct Hord as (Hlo & Hrec & Hord).
    pose proof (analyze_limiter k c) as Hstep. cbv zeta in Hstep.
    cbn [session].
    destruct (analyze (callAt k) (settled k) (recordAt k) (lockAt k) c)
      as [c1 answer].
    cbn [fst snd] in Hstep.
    destruct (canCall_params (callAt k) (rateLimiter c))
      as (P1 & P2 & _).
    pose proof (canCall_agrees lo (callAt k) (rateLimiter c) recs Hag Hlo)
      as Hag1.
    specialize (IH c1).
    destruct (session c1 rest) as [c2 log] eqn:Es.
    cbn [snd]. unfold successTimes. cbn [filter snd fst].
    destruct Hstep as [[Hfail Hrl] | (Hok & Hans & Hrl)].
    + rewrite Hfail. fold (successTimes log).
      destruct Hrl as [Hrl | Hrl].
      * apply (IH recs lo); try assumption; try (rewrite Hrl; assumption).
        apply (ordered_weaken (recordAt k)); [lia | exact Hord].
      * apply (IH recs (callAt k)); try assumption;
          try (rewrite Hrl; congruence); try (rewrite Hrl; assumption).
        apply (ordered_weaken (recordAt k)); [lia | exact Hord].
    + rewrite Hok. cbn [map fst]. fold (successTimes log).
      pose proof (recordCall_agrees (callAt k) (recordAt k) _ recs Hag1 Hrec)
        as Hag2.
      assert (Hone :
        RateLimiter.spaced minI (recs ++ [recordAt k]) /\
        forall T, Z.of_nat (length (RateLimiter.trailing T
                                      (recs ++ [recordAt k]))) <= maxP).
      { pose proof (exec_guarded
                      [RateLimiter.CanCall (callAt k);
                       RateLimiter.RecordCall (recordAt k)]
                      (rateLimiter c) recs lo false) as Hg.
        cbn [RateLimiter.exec] in Hg.
        destruct (RateLimiter.canCall (callAt k) (rateLimiter c))
          as [r1 a] eqn:Ec.
        cbn [fst snd RateLimiter.recorded] in Hg, Hans.
        rewrite Emin, Emax in Hg. apply Hg; auto.
        - discriminate.
        - apply Sorted_chronological. simpl.
          repeat (constructor; try lia).
        - intros o [<- | [<- | []]]; simpl; lia.
        - simpl. auto. }
      destruct Hone as [Hsp1 Hwin1].
      replace (recs ++ recordAt k :: successTimes log)
        with ((recs ++ [recordAt k]) ++ successTimes log)
        by (rewrite <- app_assoc; reflexivity).
      apply (IH (recs ++ [recordAt k]) (recordAt k)); auto.
      * rewrite Hrl. simpl. congruence.
      * rewrite Hrl. simpl. congruence.
      * rewrite Hrl. exact Hag2.
Qed.

(** X9.  The channel keeps the limiter's promise end to end.  Let
    [analyze] be called any number of times on a new channel, each call
    running to its end before the next starts, with a clock that never
    runs backwards, and let [callAPI] settle in any way.  Then the calls
    that returned a result were recorded at least [minInterval] apart,
    and no 60-second window holds more than [maxPerMinute] of them. *)
Theorem analyze_sessions_are_rate_limited
    (ty : ChannelType) (cfg : Config) (lo : Z) (calls : list Call) :
  ordered lo calls ->
  0 <= orElse (maxPerMinute cfg) 3 ->
  let times := successTimes (snd (session (create ty cfg) calls)) in
  RateLimiter.spaced (orElse (minInterval cfg) 15000) times
  /\ forall T : Z,
       Z.of_nat (length (RateLimiter.trailing T times))
       <= orElse (maxPerMinute cfg) 3.
Proof.
  intros Hord Hmax times.
  apply (session_limited _ _ calls (create ty cfg) [] lo); auto.
  - apply create_agrees.
  - intros i j a b _ Ha. destruct i; discriminate.
Qed.

Lemma analyze_sessions_are_rate_limited_witness :
  let r := {| text := Some "a cat"; data := None |} in
  let calls :=
    [ mkCall 100000 (Fulfilled (Some r)) 100900 100900;
      mkCall 105000 (Fulfilled (Some r)) 105900 105900;
      mkCall 116000 (Fulfilled (Some r)) 117000 117000;
      mkCall 140000 (Rejected {| message := "boom" |}) 141000 141000;
      mkCall 150000 (Fulfilled (Some r)) 151000 151000;
      mkCall 160000 (Fulfilled (Some r)) 160500 160500 ] in
  let times := successTimes (snd (session (create vision defaultConfig) calls)) in
  times = [100900; 117000; 151000]
  /\ RateLimiter.spaced 15000 times
  /\ forall T : Z, Z.of_nat (length (RateLimiter.trailing T times)) <= 3.
Proof.
  intros r calls times. split; [reflexivity |].
  apply (analyze_sessions_are_rate_limited vision defaultConfig 0 calls).
  - subst calls. simpl. lia.
  - simpl. lia.
Defined.

Lemma settle_by_type (fo : FetchOutcome) (c1 c2 : t) :
  type c1 = type c2 -> settle fo c1 = settle fo c2.
Proof.
  intros E. unfold settle, callAPI, bind, get. rewrite E.
  destruct (type c2); [| reflexivity].
  unfold callVisionAPI, tryCatch, throw, ret. destruct fo; reflexivity.
Qed.

(** [analyzeWith] is [analyze] on the promise [callAPI] returns, which
    depends on the channel's type only. *)
Lemma analyzeWith_as_analyze (now : Z) (fo : FetchOutcome)
    (nowRecord nowLock : Z) (c : t) :
  analyzeWith now fo nowRecord nowLock c =
  analyze now (settle fo c) nowRecord nowLock c.
Proof.
  unfold analyzeWith, analyze, bind. rewrite analyze_begin_spec.
  destruct (negb (enabled c) || isProcessing c); [reflexivity |].
  destruct (snd (RateLimiter.canCall now (rateLimiter c))); [| reflexivity].
  unfold get. cbn -[analyze_resume settle RateLimiter.canCall].
  rewrite (settle_by_type fo _ c) by reflexivity. reflexivity.
Qed.

(** X10.  A failed request is paid for.  When the guards pass and the
    vision request fails, the call is recorded like a successful one,
    so any further [analyze] less than [minIntervalMs] after it is
    declined, whatever its request would have come to: it returns null
    and leaves the channel, placeholder lock included, as it is. *)
Theorem failed_request_blocks_retry
    (now : Z) (fo : FetchOutcome) (nowRecord nowLock : Z) (c : t)
    (now2 : Z) (fo2 : FetchOutcome) (nowRecord2 nowLock2 : Z) :
  type c = vision ->
  isFailure fo = true ->
  admitted now c = true ->
  now2 - nowRecord < RateLimiter.minIntervalMs (rateLimiter c) ->
  let c' := fst (analyzeWith now fo nowRecord nowLock c) in
  analyzeWith now2 fo2 nowRecord2 nowLock2 c' = (c', inr None)
  /\ lockText (lock c') = Some fallbackText.
Proof.
  intros Hty Hfail Hadm Hsoon c'.
  destruct (callVisionAPI_failure fo c Hfail) as [msg Hcall].
  assert (Hsettle : settle fo c =
            Fulfilled (Some {| text := Some fallbackText;
                               data := Some (FallbackData msg) |})).
  { unfold settle, callAPI, bind, get. rewrite Hty, Hcall. reflexivity. }
  unfold admitted in Hadm.
  apply andb_true_iff in Hadm. destruct Hadm as [Hadm Hcan].
  apply andb_true_iff in Hadm. destruct Hadm as [Hen Hproc].
  apply negb_true_iff in Hproc.
  destruct (canCall_params now (rateLimiter c)) as (P1 & _ & _).
  assert (Ec' : c' =
    withProcessing false
      (setLock (Some fallbackText) (Some (FallbackData msg)) None nowLock
         (withRateLimiter
            (RateLimiter.recordCall nowRecord
               (fst (RateLimiter.canCall now (rateLimiter c))))
            (withProcessing true
               (withRateLimiter
                  (fst (RateLimiter.canCall now (rateLimiter c))) c))))).
  { subst c'. rewrite analyzeWith_as_analyze, analyze_spec, Hsettle.
    rewrite Hen, Hproc, Hcan. cbn [negb orb].
    rewrite analyze_resume_spec. reflexivity. }
  split; [| rewrite Ec'; reflexivity].
  rewrite analyzeWith_as_analyze, analyze_spec.
  assert (Hen' : enabled c' = true) by (rewrite Ec'; exact Hen).
  assert (Hproc' : isProcessing c' = false) by (rewrite Ec'; reflexivity).
  rewrite Hen', Hproc'. cbn [negb orb].
  assert (Hdecl : RateLimiter.canCall now2 (rateLimiter c') =
                  (rateLimiter c', false)).
  { unfold RateLimiter.canCall.
    assert (Hlt : (now2 - RateLimiter.lastCallTime (rateLimiter c')
                   <? RateLimiter.minIntervalMs (rateLimiter c')) = true).
    { apply Z.ltb_lt. rewrite Ec'. cbn. rewrite P1. exact Hsoon. }
    rewrite Hlt. reflexivity. }
  rewrite Hdecl. cbn [fst snd]. rewrite Ec'. reflexivity.
Qed.

Lemma failed_request_blocks_retry_witness :
  let c' := fst (analyzeWith 100000
                   (NetworkError {| message := "Failed to fetch" |})
                   100400 100401 (create vision defaultConfig)) in
  analyzeWith 110000 (ServiceSuccess (Some "a cat") None) 110400 110401 c'
    = (c', inr None)
  /\ lockText (lock c') = Some fallbackText.
Proof.
  apply (failed_request_blocks_retry
           100000 (NetworkError {| message := "Failed to fetch" |})
           100400 100401 (create vision defaultConfig)
           110000 (ServiceSuccess (Some "a cat") None) 110400 110401);
    try reflexivity.
Defined.

(** X11.  The lock's life.  After [setLock(text, data, duration)] at
    [now] the channel is locked exactly until [now + duration] (30000 ms
    when no duration is given); within that time [getLockData()] is the
    data and [getText()] is the text, unless the text is empty or
    undefined, in which case the channel is locked and yet [getText()]
    is null; from the deadline on both are null.  After [unlock()]
    nothing is locked at any clock reading from 0 on. *)
Theorem lock_lifetime (txt : option string) (dat : option ResultData)
    (durationMs : option Z) (now later : Z) (c : t) :
  let c' := setLock txt dat durationMs now c in
  let deadline := now + match durationMs with Some d => d | None => 30000 end in
  (isLocked later c' = true <-> later < deadline)
  /\ (forall s : string,
        getText later c' = Some s <->
        txt = Some s /\ s <> ""%string /\ later < deadline)
  /\ (later < deadline -> getLockData later c' = dat)
  /\ (deadline <= later ->
      getText later c' = None /\ getLockData later c' = None)
  /\ (0 <= later ->
      isLocked later (unlock c') = false /\
      getText later (unlock c') = None /\
      getLockData later (unlock c') = None).
Proof.
  intros c' deadline. subst c'.
  unfold isLocked, getText, getLockData, isLocked, setLock, unlock, truthyText.
  cbn [lock until lockText lockData]. fold deadline.
  repeat split.
  - apply Z.ltb_lt.
  - apply Z.ltb_lt.
  - destruct (Z.ltb_spec later deadline); [| discriminate].
    destruct txt as [t0 |]; [| discriminate].
    destruct (String.eqb_spec t0 ""); simpl in *; congruence.
  - destruct (Z.ltb_spec later deadline); [| discriminate].
    destruct txt as [t0 |]; [| discriminate].
    destruct (String.eqb_spec t0 ""); simpl in *; [discriminate |].
    congruence.
  - destruct (Z.ltb_spec later deadline); [assumption |]. discriminate.
  - intros (-> & Hne & Hlt).
    destruct (Z.ltb_spec later deadline); [| lia].
    destruct (String.eqb_spec s ""); [contradiction | reflexivity].
  - intros Hlt. destruct (Z.ltb_spec later deadline); [reflexivity | lia].
  - destruct (Z.ltb_spec later deadline); [lia | reflexivity].
  - destruct (Z.ltb_spec later deadline); [lia | reflexivity].
  - apply Z.ltb_ge. assumption.
  - destruct (Z.ltb_spec later 0); [lia | reflexivity].
  - destruct (Z.ltb_spec later 0); [lia | reflexivity].
Qed.

End VLMSessionFacts.

Module ObserverOrderFacts.
Import Effects ObserverManager ObserverManagerFacts.

(** Where the insertion puts a new element in a list already in
    descending order: behind all of the same or a higher priority, in
    front of all lower ones. *)
Lemma insertByPriority_split (heap : Ref -> option Z) (x : Ref)
    (l : list Ref) :
  StronglySorted (fun a b => priorityOr0 heap b <= priorityOr0 heap a) l ->
  exists l1 l2 : list Ref,
    l = l1 ++ l2 /\
    insertByPriority heap x l = l1 ++ x :: l2 /\
    (forall y, In y l1 -> priorityOr0 heap x <= priorityOr0 heap y) /\
    (forall y, In y l2 -> priorityOr0 heap y < priorityOr0 heap x).
Proof.
  induction l as [| y rest IH]; intros Hs.
  - exists [], []. simpl. repeat split; auto; intros ? [].
  - apply StronglySorted_inv in Hs. destruct Hs as [Hs Hall].
    simpl.
    destruct (Z.ltb_spec (priorityOr0 heap y) (priorityOr0 heap x)) as [Hlt | Hge].
    + exists [], (y :: rest). simpl. repeat split; auto; [intros ? [] |].
      intros z [<- | Hz]; [exact Hlt |].
      rewrite Forall_forall in Hall. specialize (Hall z Hz). simpl in Hall. lia.
    + destruct (IH Hs) as (l1 & l2 & E & Ei & H1 & H2).
      exists (y :: l1), l2. simpl. rewrite Ei, <- E. repeat split; auto.
      intros z [<- | Hz]; [exact Hge | apply H1; exact Hz].
Qed.

(** Sorting a list that is in order already changes nothing. *)
Lemma sortByPriority_sorted (heap : Ref -> option Z) (l : list Ref) :
  StronglySorted (fun a b => priorityOr0 heap b <= priorityOr0 heap a) l ->
  sortByPriority heap l = l.
Proof.
  unfold sortByPriority.
  assert (H : forall acc,
            StronglySorted
              (fun a b => priorityOr0 heap b <= priorityOr0 heap a)
              (acc ++ l) ->
            fold_left (fun sorted x => insertByPriority heap x sorted) l acc
            = acc ++ l).
  { induction l as [| x l IH]; intros acc Hs; simpl.
    - rewrite app_nil_r. reflexivity.
    - assert (Hins : insertByPriority heap x acc = acc ++ [x]).
      { clear IH. induction acc as [| y acc IHa]; simpl; [reflexivity |].
        simpl in Hs. apply StronglySorted_inv in Hs. destruct Hs as [Hs Hall].
        rewrite Forall_forall in Hall.
        assert (Hx : priorityOr0 heap x <= priorityOr0 heap y).
        { apply (Hall x). apply in_or_app. right. left. reflexivity. }
        destruct (Z.ltb_spec (priorityOr0 heap y) (priorityOr0 heap x));
          [lia |].
        rewrite (IHa Hs). reflexivity. }
      rewrite Hins, IH; rewrite <- app_assoc; [reflexivity | exact Hs]. }
  intros Hs. apply (H []). exact Hs.
Qed.

Lemma StronglySorted_same {A : Type} (R R' : A -> A -> Prop) (l : list A) :
  (forall a b, In a l -> In b l -> R a b -> R' a b) ->
  StronglySorted R l -> StronglySorted R' l.
Proof.
  induction l as [| x l IH]; intros H Hs; [constructor |].
  apply StronglySorted_inv in Hs. destruct Hs as [Hs Hall].
  constructor.
  - apply IH; [| exact Hs]. intros a b Ha Hb. apply H; right; assumption.
  - rewrite Forall_forall in *. intros y Hy.
    apply H; [left; reflexivity | right; exact Hy | apply Hall; exact Hy].
Qed.

(** Registering an observer that is not registered yet: the closed form
    of the new list. *)
Lemma addObserver_new (m : t) (o : Ref) (p : option Z) :
  descending m ->
  ~ In o (observers m) ->
  let p' := match p with Some v => v | None => 0 end in
  exists l1 l2 : list Ref,
    observers m = l1 ++ l2 /\
    observers (addObserver o p m) = l1 ++ o :: l2 /\
    (forall y, In y l1 -> p' <= priorityOr0 (priority m) y) /\
    (forall y, In y l2 -> priorityOr0 (priority m) y < p') /\
    ~ In o l1.
Proof.
  intros Hd Hnew p'.
  set (heap := fun o0 : Ref =>
                 if Nat.eqb o0 o then Some p' else priority m o0).
  assert (Hold : forall y, In y (observers m) ->
                   priorityOr0 heap y = priorityOr0 (priority m) y).
  { intros y Hy. unfold priorityOr0, heap.
    destruct (Nat.eqb_spec y o) as [-> | _]; [contradiction | reflexivity]. }
  assert (Ho : priorityOr0 heap o = p').
  { unfold priorityOr0, heap. rewrite Nat.eqb_refl. reflexivity. }
  assert (Hs : StronglySorted
                 (fun a b => priorityOr0 heap b <= priorityOr0 heap a)
                 (observers m)).
  { apply (StronglySorted_same
             (fun a b => priorityOr0 (priority m) b
                         <= priorityOr0 (priority m) a)); [| exact Hd].
    intros a b Ha Hb. rewrite (Hold a Ha), (Hold b Hb). auto. }
  change (observers (addObserver o p m))
    with (sortByPriority heap (observers m ++ [o])).
  pose proof (sortByPriority_sorted heap _ Hs) as Hsort.
  unfold sortByPriority in *. rewrite fold_left_app. cbn [fold_left].
  rewrite Hsort.
  destruct (insertByPriority_split heap o (observers m) Hs)
    as (l1 & l2 & E & Ei & H1 & H2).
  exists l1, l2. repeat split; auto.
  - intros y Hy. rewrite <- Hold, <- Ho; [apply H1; exact Hy |].
    rewrite E. apply in_or_app. left. exact Hy.
  - intros y Hy. rewrite <- Hold, <- Ho; [apply H2; exact Hy |].
    rewrite E. apply in_or_app. right. exact Hy.
  - intros Hin. apply Hnew. rewrite E. apply in_or_app. left. exact Hin.
Qed.

Lemma removeFirst_middle (o : Ref) (l1 l2 : list Ref) :
  ~ In o l1 -> removeFirst o (l1 ++ o :: l2) = l1 ++ l2.
Proof.
  induction l1 as [| y l1 IH]; simpl; intros H.
  - rewrite Nat.eqb_refl. reflexivity.
  - destruct (Nat.eqb_spec y o) as [E | _]; [exfalso; auto |].
    rewrite IH by tauto. reflexivity.
Qed.

Lemma reachable_descending (ops : list Op) :
  forall m : t, descending m -> descending (fold_left apply ops m).
Proof.
  induction ops as [| op ops IH]; intros m Hd; [exact Hd |].
  simpl. apply IH, apply_descending, Hd.
Qed.

(** X12.  Registration order among equals.  When the observers are in
    descending order and [observer] is not registered yet,
    [addObserver(observer, priority)] puts it behind every observer of
    the same or a higher priority and in front of every lower one; the
    others keep their order and their priorities.  So observers of equal
    priority are notified in the order they were registered. *)
Theorem addObserver_keeps_registration_order
    (m : t) (o : Ref) (p : option Z) :
  descending m ->
  ~ In o (observers m) ->
  let p' := match p with Some v => v | None => 0 end in
  (exists l1 l2 : list Ref,
     observers m = l1 ++ l2 /\
     observers (addObserver o p m) = l1 ++ o :: l2 /\
     (forall y, In y l1 -> p' <= priorityOr0 (priority m) y) /\
     (forall y, In y l2 -> priorityOr0 (priority m) y < p'))
  /\ priority (addObserver o p m) o = Some p'
  /\ (forall y, y <> o -> priority (addObserver o p m) y = priority m y).
Proof.
  intros Hd Hnew p'.
  destruct (addObserver_new m o p Hd Hnew) as (l1 & l2 & E & Ea & H1 & H2 & _).
  split; [exists l1, l2; auto |].
  unfold addObserver. cbn [priority]. split.
  - rewrite Nat.eqb_refl. reflexivity.
  - intros y Hy. destruct (Nat.eqb_spec y o); [contradiction | reflexivity].
Qed.

Lemma addObserver_keeps_registration_order_witness :
  let m := fold_left apply
             [Add 0%nat (Some 100); Add 1%nat (Some 50); Add 2%nat (Some 50);
              Add 3%nat (Some 10)] create in
  observers m = [0; 1; 2; 3]%nat
  /\ observers (addObserver 4%nat (Some 50) m) = [0; 1; 2; 4; 3]%nat
  /\ exists l1 l2 : list Ref,
       observers m = l1 ++ l2 /\
       observers (addObserver 4%nat (Some 50) m) = l1 ++ 4%nat :: l2.
Proof.
  intros m. split; [reflexivity |]. split; [reflexivity |].
  destruct (addObserver_keeps_registration_order m 4%nat (Some 50))
    as [(l1 & l2 & E & Ea & _) _].
  - subst m. apply reachable_descending. constructor.
  - subst m. simpl. lia.
  - exists l1, l2. split; assumption.
Defined.

(** X13.  Round trip.  Removing an observer right after registering it
    (it was not registered before, the observers were in order) answers
    [true] and leaves the list of observers exactly as it was; removing
    one that is not registered answers [false] and changes nothing. *)
Theorem removeObserver_undoes_addObserver (m : t) (o : Ref) (p : option Z) :
  descending m ->
  ~ In o (observers m) ->
  snd (removeObserver o (addObserver o p m)) = true
  /\ observers (fst (removeObserver o (addObserver o p m))) = observers m
  /\ removeObserver o m = (m, false).
Proof.
  intros Hd Hnew.
  destruct (addObserver_new m o p Hd Hnew)
    as (l1 & l2 & E & Ea & _ & _ & Hl1).
  assert (Hin : existsb (Nat.eqb o) (observers (addObserver o p m)) = true).
  { apply existsb_exists. exists o. split; [| apply Nat.eqb_refl].
    rewrite Ea. apply in_or_app. right. left. reflexivity. }
  assert (Hout : existsb (Nat.eqb o) (observers m) = false).
  { destruct (existsb (Nat.eqb o) (observers m)) eqn:Ex; [| reflexivity].
    apply existsb_exists in Ex. destruct Ex as (y & Hy & Ey).
    apply Nat.eqb_eq in Ey. subst y. contradiction. }
  unfold removeObserver. rewrite Hin, Hout. cbn [fst snd observers].
  repeat split.
  rewrite Ea, removeFirst_middle by exact Hl1. symmetry. exact E.
Qed.

Lemma removeObserver_undoes_addObserver_witness :
  let m := fold_left apply
             [Add 0%nat (Some 100); Add 1%nat (Some 50); Add 3%nat (Some 10)]
             create in
  snd (removeObserver 2%nat (addObserver 2%nat (Some 85) m)) = true
  /\ observers (fst (removeObserver 2%nat (addObserver 2%nat (Some 85) m)))
     = observers m
  /\ removeObserver 2%nat m = (m, false).
Proof.
  intros m. apply (removeObserver_undoes_addObserver m 2%nat (Some 85)).
  - subst m. apply reachable_descending. constructor.
  - subst m. simpl. lia.
Defined.

End ObserverOrderFacts.

Module ContextManagerFacts.
Import Js Debounce LRUCache ContextManager TrustOverride.
Import LRUCacheFacts LRUSessionFacts TrustOverrideFacts EmotionsFacts.

(** [Map.get] after [Map.set]. *)
Lemma map_get_set {V : Type} (key key' : string) (value : V) (m : Map V) :
  map_get key' (map_set key value m) =
  if String.eqb key' key then Some value else map_get key' m.
Proof.
  unfold map_get. induction m as [| [k v] m IH]; simpl.
  - rewrite (String.eqb_sym key key').
    destruct (String.eqb key' key); reflexivity.
  - destruct (String.eqb_spec k key) as [-> | Hk]; simpl.
    + rewrite (String.eqb_sym key key').
      destruct (String.eqb key' key); reflexivity.
    + destruct (String.eqb_spec k key') as [-> | Hk']; simpl.
      * destruct (String.eqb_spec key' key) as [E | _];
          [contradiction | reflexivity].
      * exact IH.
Qed.

Lemma map_has_get {V : Type} (key : string) (m : Map V) :
  map_has key m = true <-> exists v, map_get key m = Some v.
Proof.
  unfold map_has, map_get. induction m as [| [k v] m IH]; simpl.
  - split; [discriminate | intros [v H]; discriminate].
  - destruct (String.eqb k key); simpl; [| exact IH].
    split; [intros _; exists v; reflexivity | reflexivity].
Qed.

(** One item through the de-duplication: the score stored for a class. *)
Lemma keepMax_get (m : Map Q) (cls cls' : string) (sc : Q) :
  map_get cls' (keepMax m (cls, sc)) =
  if String.eqb cls' cls then
    match map_get cls m with
    | Some old => if Qltb old sc then Some sc else Some old
    | None => Some sc
    end
  else map_get cls' m.
Proof.
  unfold keepMax.
  destruct (map_has cls m) eqn:Hhas; cbn [negb orb].
  - apply map_has_get in Hhas. destruct Hhas as [old Hold]. rewrite Hold.
    destruct (Qltb old sc).
    + apply map_get_set.
    + destruct (String.eqb_spec cls' cls) as [-> | _]; [exact Hold | reflexivity].
  - assert (Hnone : map_get cls m = None).
    { destruct (map_get cls m) eqn:E; [| reflexivity].
      assert (map_has cls m = true) by (apply map_has_get; eauto).
      congruence. }
    rewrite Hnone. apply map_get_set.
Qed.

(** X14.  A window keeps the best score of every class.  After
    [addImageResult] (or [addAudioResult]) has gone through a list of
    results, the score stored for a class is at least every score the
    list gave for it and at least the score stored before, and it is one
    of those scores; a class the list does not mention keeps its
    entry. *)
Theorem window_keeps_best_score (rs : list (string * Q)) (m : Map Q)
    (cls : string) :
  (forall sc, In (cls, sc) rs ->
     exists v, map_get cls (fold_left keepMax rs m) = Some v /\ (sc <= v)%Q)
  /\ (forall old, map_get cls m = Some old ->
        exists v, map_get cls (fold_left keepMax rs m) = Some v /\
                  (old <= v)%Q)
  /\ (forall v, map_get cls (fold_left keepMax rs m) = Some v ->
        map_get cls m = Some v \/ In (cls, v) rs)
  /\ (~ In cls (map fst rs) ->
      map_get cls (fold_left keepMax rs m) = map_get cls m).
Proof.
  revert m. induction rs as [| [c0 s0] rs IH]; intros m.
  - simpl. repeat split; try tauto.
    intros old H. exists old. split; [exact H | apply Qle_refl].
  - cbn [fold_left]. destruct (IH (keepMax m (c0, s0))) as (I1 & I2 & I3 & I4).
    pose proof (keepMax_get m c0 cls s0) as Hget.
    repeat split.
    + intros sc [E | Hin]; [| apply I1; exact Hin].
      injection E as -> ->. rewrite String.eqb_refl in Hget.
      destruct (map_get cls m) as [old |].
      * destruct (Qltb_spec old sc) as [Hlt | Hge].
        -- destruct (I2 _ Hget) as (v & Hv & Hle). exists v. auto.
        -- destruct (I2 _ Hget) as (v & Hv & Hle). exists v.
           split; [exact Hv |]. apply Qnot_lt_le in Hge.
           apply (Qle_trans _ old); assumption.
      * destruct (I2 _ Hget) as (v & Hv & Hle). exists v. auto.
    + intros old Hold.
      destruct (String.eqb_spec cls c0) as [-> | Hne].
      * rewrite Hold in Hget.
        destruct (Qltb_spec old s0) as [Hlt | Hge].
        -- destruct (I2 _ Hget) as (v & Hv & Hle). exists v.
           split; [exact Hv |]. apply Qlt_le_weak in Hlt.
           apply (Qle_trans _ s0); assumption.
        -- apply I2. exact Hget.
      * apply I2. rewrite Hget. exact Hold.
    + intros v Hv. destruct (I3 v Hv) as [H | H]; [| right; right; exact H].
      rewrite Hget in H.
      destruct (String.eqb_spec cls c0) as [-> | Hne]; [| left; exact H].
      destruct (map_get c0 m) as [old |].
      * destruct (Qltb old s0); injection H as <-;
          [right; left; reflexivity | left; reflexivity].
      * injection H as <-. right. left. reflexivity.
    + intros Hout. simpl in Hout.
      rewrite I4 by tauto. rewrite Hget.
      destruct (String.eqb_spec cls c0) as [-> | _]; [tauto | reflexivity].
Qed.

(** The first entry of a key in a map. *)
Lemma map_get_split {V : Type} (key : string) (value : V) (m : Map V) :
  map_get key m = Some value ->
  exists m1 m2 : Map V,
    m = m1 ++ (key, value) :: m2 /\ ~ In key (map fst m1).
Proof.
  unfold map_get. induction m as [| [k v] m IH]; simpl; [discriminate |].
  destruct (String.eqb_spec k key) as [-> | Hne]; simpl.
  - intros E. injection E as ->. exists [], m. split; [reflexivity | intros []].
  - intros H. destruct (IH H) as (m1 & m2 & -> & Hout).
    exists ((k, v) :: m1), m2. split; [reflexivity |].
    simpl. intros [E | Hin]; [contradiction | exact (Hout Hin)].
Qed.

Lemma map_set_split {V : Type} (key : string) (old value : V)
    (m1 m2 : Map V) :
  ~ In key (map fst m1) ->
  map_set key value (m1 ++ (key, old) :: m2) = m1 ++ (key, value) :: m2.
Proof.
  induction m1 as [| [k v] m1 IH]; simpl; intros Hout.
  - rewrite String.eqb_refl. reflexivity.
  - destruct (String.eqb_spec k key) as [E | _]; [exfalso; auto |].
    rewrite IH by tauto. reflexivity.
Qed.

(** One item through the de-duplication, as a detection test sees it:
    a test that asks for a class name and a score above a threshold
    finds something in the window afterwards exactly when it found
    something before or accepts the item. *)
Lemma keepMax_detects (named : string -> bool) (thr : Q) (m : Map Q)
    (item : string * Q) :
  existsb (fun kv => named (fst kv) && Qltb thr (snd kv)) (keepMax m item) =
  existsb (fun kv => named (fst kv) && Qltb thr (snd kv)) m
  || (named (fst item) && Qltb thr (snd item)).
Proof.
  destruct item as [cls sc]. unfold keepMax. cbn [fst snd].
  destruct (map_has cls m) eqn:Hhas; cbn [negb orb].
  - apply map_has_get in Hhas. destruct Hhas as [old Hold]. rewrite Hold.
    destruct (map_get_split cls old m Hold) as (m1 & m2 & -> & Hout).
    destruct (Qltb_spec old sc) as [Hlt | Hge].
    + rewrite (map_set_split cls old sc m1 m2 Hout).
      rewrite !existsb_app. cbn [existsb fst snd].
      destruct (named cls); cbn [andb]; [| rewrite !orb_false_r; reflexivity].
      destruct (Qltb_spec thr sc) as [Hs | Hs], (Qltb_spec thr old) as [Ho | Ho];
        try (exfalso; lra);
        destruct (existsb _ m1), (existsb _ m2); reflexivity.
    + rewrite !existsb_app. cbn [existsb fst snd].
      destruct (named cls); cbn [andb]; [| rewrite !orb_false_r; reflexivity].
      destruct (Qltb_spec thr sc) as [Hs | Hs], (Qltb_spec thr old) as [Ho | Ho];
        try (exfalso; lra);
        destruct (existsb _ m1), (existsb _ m2); reflexivity.
  - assert (Hout : ~ In cls (map fst m)).
    { intros H. apply map_has_In in H. congruence. }
    rewrite (map_set_absent cls sc m Hout), existsb_app. cbn [existsb fst snd].
    rewrite orb_false_r. reflexivity.
Qed.

Lemma fold_keepMax_detects (named : string -> bool) (thr : Q)
    (rs : list (string * Q)) :
  forall m : Map Q,
    existsb (fun kv => named (fst kv) && Qltb thr (snd kv))
            (fold_left keepMax rs m) =
    existsb (fun kv => named (fst kv) && Qltb thr (snd kv)) m
    || existsb (fun kv => named (fst kv) && Qltb thr (snd kv)) rs.
Proof.
  induction rs as [| item rs IH]; intros m; cbn [fold_left existsb].
  - rewrite orb_false_r. reflexivity.
  - rewrite IH, keepMax_detects, orb_assoc. reflexivity.
Qed.

(** X15.  De-duplication loses no detection.  After [addImageResult]
    the window holds a visual cat detection exactly when it held one
    before or some result of the list is one (a class name containing
    "cat", a score above the threshold), in whatever order and however
    often classes repeat; the same for [addAudioResult] and the cat
    sounds ("cat" or "meow").  Neither touches the other's window. *)
Theorem adding_results_never_loses_a_detection
    (rs : list (string * Q)) (c : t) :
  hasVisualCat (addImageResult rs c) =
    hasVisualCat c
    || existsb (fun item =>
                  includes (toLowerCase (fst item)) "cat" &&
                  Qltb (CAT_DETECTION_THRESHOLD (config c)) (snd item)) rs
  /\ hasCatSound (addAudioResult rs c) =
       hasCatSound c
       || existsb (fun item =>
                     (includes (toLowerCase (fst item)) "cat" ||
                      includes (toLowerCase (fst item)) "meow") &&
                     Qltb (CAT_SOUND_THRESHOLD (config c)) (snd item)) rs
  /\ hasCatSound (addImageResult rs c) = hasCatSound c
  /\ hasVisualCat (addAudioResult rs c) = hasVisualCat c.
Proof.
  unfold hasVisualCat, hasCatSound, addImageResult, addAudioResult.
  cbn [current_image current_audio config]. repeat split.
  - apply (fold_keepMax_detects
             (fun cls => includes (toLowerCase cls) "cat")).
  - apply (fold_keepMax_detects
             (fun cls => includes (toLowerCase cls) "cat" ||
                         includes (toLowerCase cls) "meow")).
Qed.

Lemma recent_contains_last {V : Type} (count : Z) (c : LRUCache.t V)
    (xs : list V) (x : V) :
  0 <= count -> getAllValues c = xs ++ [x] -> In x (recent count c).
Proof.
  intros Hc E. unfold recent, slice_from. rewrite E.
  rewrite length_app. cbn [length].
  set (k := if - count <? 0
            then Z.max (Z.of_nat (length xs + 1) + - count) 0
            else Z.min (- count) (Z.of_nat (length xs + 1))).
  assert (Hk : (Z.to_nat k <= length xs)%nat).
  { subst k. destruct (Z.ltb_spec (- count) 0); lia. }
  rewrite skipn_app.
  replace (Z.to_nat k - length xs)%nat with 0%nat by lia.
  apply in_or_app. right. left. reflexivity.
Qed.

(** X16.  Trust is armed by the class name alone.  A window whose only
    image class contains "cat" in its name goes into the trust cache
    flagged [isCat] whatever its score; so even when the score is at or
    below the detection threshold and the window's state is "idle", the
    tick reports the focus flag set, and the next evaluation of
    [updateState] takes [hasVisual] to be true by the override. *)
Theorem low_score_label_arms_trust
    (now nowLRU : Z) (c : t) (cls : string) (sc : Q) :
  current_image c = [(cls, sc)] ->
  includes (toLowerCase cls) "cat" = true ->
  0 <= LRU_TRUST_COUNT (config c) ->
  snd (snd (processWindow now nowLRU c)) = true
  /\ hasVisual (fst (processWindow now nowLRU c)) = true
  /\ ((sc <= CAT_DETECTION_THRESHOLD (config c))%Q ->
      fst (snd (processWindow now nowLRU c)) =
        determineState false (hasCatSound c)).
Proof.
  intros Hwin Hname Hcount.
  set (entry := {| class := cls; score := sc; timestamp := nowLRU;
                   isCat := includes (toLowerCase cls) "cat" |}).
  set (key := (cls ++ "_" ++ string_of_Z nowLRU)%string).
  assert (Hlru : image_lru (updateImageLRU nowLRU c) =
                 LRUCache.set key entry (image_lru c)).
  { unfold updateImageLRU. cbn [image_lru]. rewrite Hwin. reflexivity. }
  destruct (set_shape key entry (image_lru c)) as (kept & E & _).
  assert (Hvals : getAllValues (image_lru (updateImageLRU nowLRU c)) =
                  map snd kept ++ [entry]).
  { unfold getAllValues. rewrite Hlru, E, map_app. reflexivity. }
  assert (Hcat : isCat entry = true) by exact Hname.
  assert (Hin : forall count, 0 <= count ->
            (0 <? length (filter isCat
                            (recent count
                               (image_lru (updateImageLRU nowLRU c)))))%nat
            = true).
  { intros count Hc. apply some_cat_iff. exists entry. split; [| exact Hcat].
    exact (recent_contains_last count _ _ _ Hc Hvals). }
  unfold processWindow. cbn [fst snd]. repeat split.
  - unfold calculateTrustBasedFocus.
    destruct (determineState _ _); try reflexivity.
    apply Hin. exact Hcount.
  - unfold hasVisual, hasVisualCat, clearCurrentWindow.
    cbn [current_image image_lru existsb]. apply Hin. lia.
  - intros Hlow. f_equal.
    unfold hasVisualCat, updateImageLRU. cbn [current_image config].
    rewrite Hwin. cbn [existsb fst snd]. rewrite Hname. cbn [andb orb].
    destruct (Qltb_spec (CAT_DETECTION_THRESHOLD (config c)) sc);
      [exfalso; lra | reflexivity].
Qed.

Lemma low_score_label_arms_trust_witness :
  let c := addImageResult [("Tabby cat", 0.05%Q)] (create 20) in
  snd (snd (processWindow 1000 1000 c)) = true
  /\ hasVisual (fst (processWindow 1000 1000 c)) = true
  /\ fst (snd (processWindow 1000 1000 c)) = idle.
Proof.
  intros c.
  destruct (low_score_label_arms_trust 1000 1000 c "Tabby cat" 0.05%Q)
    as (H1 & H2 & H3); try reflexivity.
  - simpl. lia.
  - split; [exact H1 |]. split; [exact H2 |].
    apply H3. vm_compute. discriminate.
Defined.

End ContextManagerFacts.

Module DetectorFacts.
Import Js Debounce Emotions EmotionsFacts EmotionRules.

Lemma append_assoc (a b c : string) :
  ((a ++ b) ++ c = a ++ (b ++ c))%string.
Proof.
  induction a as [| x a IH]; simpl; [reflexivity |]. rewrite IH. reflexivity.
Qed.

Lemma prefix_append (sub : string) :
  forall s : string,
    String.prefix sub s = true <-> exists b, s = (sub ++ b)%string.
Proof.
  induction sub as [| x sub IH]; intros s.
  - destruct s; simpl; split; intros _; try reflexivity; eexists; reflexivity.
  - destruct s as [| y s]; simpl.
    + split; [discriminate | intros [b H]; discriminate].
    + destruct (ascii_dec x y) as [-> | Hne].
      * rewrite IH. split; intros [b H]; exists b; congruence.
      * split; [discriminate | intros [b H]; congruence].
Qed.

(** [s.includes(sub)] says that [sub] occurs somewhere in [s]. *)
Lemma includes_occurs (sub : string) :
  forall s : string,
    includes s sub = true <-> exists a b, s = (a ++ sub ++ b)%string.
Proof.
  intros s. split.
  - induction s as [| c s IH]; cbn [includes]; intros H.
    + rewrite orb_false_r in H. apply prefix_append in H.
      destruct H as [b H]. exists ""%string, b. exact H.
    + apply orb_true_iff in H. destruct H as [H | H].
      * apply prefix_append in H. destruct H as [b H].
        exists ""%string, b. exact H.
      * destruct (IH H) as (a & b & E). exists (String c a), b.
        simpl. rewrite E. reflexivity.
  - intros (a & b & E). revert s E.
    induction a as [| c a IH]; intros s E.
    + assert (Hp : String.prefix sub s = true)
        by (apply prefix_append; exists b; exact E).
      destruct s; cbn [includes]; rewrite Hp; reflexivity.
    + subst s. cbn [includes append]. rewrite (IH _ eq_refl).
      apply orb_true_r.
Qed.

(** A keyword that contains another one adds nothing. *)
Lemma includes_mono (big small s : string) :
  includes big small = true ->
  includes s big = true -> includes s small = true.
Proof.
  intros H1 H2. apply includes_occurs in H1. apply includes_occurs in H2.
  destruct H1 as (a' & b' & ->). destruct H2 as (a & b & ->).
  apply includes_occurs. exists (a ++ a')%string, (b' ++ b)%string.
  rewrite !append_assoc. reflexivity.
Qed.

(** Of two keywords, the longer one contains the shorter: whenever the
    longer is found the shorter is. *)
Ltac absorb s big small :=
  let Hb := fresh "Hb" in
  destruct (includes s big) eqn:Hb;
  [try (apply (includes_mono big small s eq_refl) in Hb; congruence) |].

(** X17.  The keyword lists say less than they list.  [isCatClass] is
    true exactly for the class names that contain "cat", "kitten" or
    "feline" (in any letter case): "cats", "domestic_cat" and the other
    breeds add nothing.  [isCatSoundClass] is true exactly for the names
    that contain "cat", "meow", "purr", "mew" or "feline", and the audio
    trigger's list accepts "kitten" besides. *)
Theorem keyword_lists_reduce (className : string) :
  let name := toLowerCase className in
  StateManager.isCatClass className =
    includes name "cat" || includes name "kitten" || includes name "feline"
  /\ StateManager.isCatSoundClass className =
       includes name "cat" || includes name "meow" || includes name "purr"
       || includes name "mew" || includes name "feline"
  /\ existsb (fun keyword => includes name keyword)
             AudioTrigger.catSoundKeywords =
       includes name "cat" || includes name "meow" || includes name "purr"
       || includes name "mew" || includes name "feline"
       || includes name "kitten".
Proof.
  intros name. unfold StateManager.isCatClass, StateManager.isCatSoundClass.
  cbv zeta. fold name.
  unfold StateManager.catKeywords, StateManager.catSoundKeywords,
    AudioTrigger.catSoundKeywords.
  cbn [existsb].
  repeat split.
  - destruct (includes name "cat") eqn:Hcat;
      absorb name "cats" "cat"; absorb name "domestic_cat" "cat";
      absorb name "persian_cat" "cat"; absorb name "siamese_cat" "cat";
      absorb name "tabby_cat" "cat";
      destruct (includes name "kitten"), (includes name "feline");
      reflexivity.
  - destruct (includes name "cat") eqn:Hcat;
      destruct (includes name "purr") eqn:Hpurr;
      destruct (includes name "mew") eqn:Hmew;
      absorb name "cat_vocalization" "cat"; absorb name "purring" "purr";
      absorb name "mewing" "mew";
      destruct (includes name "meow"), (includes name "feline");
      reflexivity.
  - destruct (includes name "cat") eqn:Hcat;
      destruct (includes name "purr") eqn:Hpurr;
      destruct (includes name "mew") eqn:Hmew;
      absorb name "cat_vocalization" "cat"; absorb name "purring" "purr";
      absorb name "mewing" "mew";
      destruct (includes name "meow"), (includes name "feline"),
        (includes name "kitten");
      reflexivity.
Qed.

(** A class name containing "cat" is a cat class for [StateManager]. *)
Lemma cat_name_is_cat_class (className : string) :
  includes (toLowerCase className) "cat" = true ->
  StateManager.isCatClass className = true.
Proof.
  intros H. unfold StateManager.isCatClass. cbv zeta.
  apply existsb_exists. exists "cat"%string. split; [left; reflexivity | exact H].
Qed.

Lemma cat_sound_name_is_cat_sound_class (className : string) :
  includes (toLowerCase className) "cat"
  || includes (toLowerCase className) "meow" = true ->
  StateManager.isCatSoundClass className = true.
Proof.
  intros H. unfold StateManager.isCatSoundClass. cbv zeta.
  apply existsb_exists. apply orb_true_iff in H. destruct H as [H | H].
  - exists "cat"%string. split; [left; reflexivity | exact H].
  - exists "meow"%string. split; [right; left; reflexivity | exact H].
Qed.

(** The audio trigger's keywords include those of [StateManager]. *)
Lemma cat_sound_class_is_trigger_sound (className : string) :
  StateManager.isCatSoundClass className = true ->
  existsb (fun keyword => includes (toLowerCase className) keyword)
          AudioTrigger.catSoundKeywords = true.
Proof.
  unfold StateManager.isCatSoundClass. cbv zeta. intros H.
  apply existsb_exists in H. destruct H as (kw & Hin & Hk).
  apply existsb_exists. exists kw. split; [| exact Hk].
  unfold StateManager.catSoundKeywords in Hin.
  unfold AudioTrigger.catSoundKeywords. simpl in Hin |- *. tauto.
Qed.

Lemma existsb_weaken {A : Type} (p q : A -> bool) (l : list A) :
  (forall x, p x = true -> q x = true) ->
  existsb p l = true ->
  existsb q l = true /\ (length l =? 0)%nat = false.
Proof.
  intros Hpq H. apply existsb_exists in H. destruct H as (x & Hin & Hx).
  split.
  - apply existsb_exists. exists x. auto.
  - destruct l; [contradiction | reflexivity].
Qed.

(** X18.  Three detectors, one inside the other.  On the same window
    and with the same thresholds, whatever [ContextManager] takes for a
    cat ([hasVisualCat], [hasCatSound]) [StateManager] takes for one
    too, and whatever [StateManager] takes for a cat sound the audio
    trigger does too.  The converse fails: a "Kitten" image is a cat for
    [StateManager] only, a "Purr" no cat sound for [ContextManager], a
    "Kitten" sound a cat sound for the audio trigger only. *)
Theorem detectors_nest :
  (forall (c : ContextManager.t) (cfg : StateManager.Config)
          (a : AudioTrigger.t),
     StateManager.CAT_DETECTION_THRESHOLD cfg =
       ContextManager.CAT_DETECTION_THRESHOLD (ContextManager.config c) ->
     StateManager.CAT_SOUND_THRESHOLD cfg =
       ContextManager.CAT_SOUND_THRESHOLD (ContextManager.config c) ->
     AudioTrigger.CAT_SOUND_THRESHOLD (AudioTrigger.config a) =
       ContextManager.CAT_SOUND_THRESHOLD (ContextManager.config c) ->
     (ContextManager.hasVisualCat c = true ->
      StateManager.hasVisualCat cfg
        (Some (ContextManager.current_image c)) = true)
     /\ (ContextManager.hasCatSound c = true ->
         StateManager.hasCatSound cfg
           (Some (ContextManager.current_audio c)) = true)
     /\ (StateManager.hasCatSound cfg
           (Some (ContextManager.current_audio c)) = true ->
         AudioTrigger.hasCatSound a
           (Some (ContextManager.current_audio c)) = true))
  /\ (let c := ContextManager.addAudioResult [("Purr", 0.9%Q)]
                 (ContextManager.addImageResult [("Kitten", 0.9%Q)]
                    (ContextManager.create 20)) in
      ContextManager.hasVisualCat c = false /\
      ContextManager.hasCatSound c = false /\
      StateManager.analyzeCurrentState (StateManager.create None None)
        (Some (ContextManager.current_image c))
        (Some (ContextManager.current_audio c)) = cat_both)
  /\ (StateManager.hasCatSound (StateManager.create None None)
        (Some [("Kitten", 0.9%Q)]) = false /\
      AudioTrigger.hasCatSound (AudioTrigger.create None None)
        (Some [("Kitten", 0.9%Q)]) = true).
Proof.
  split; [| split; [vm_compute; auto | vm_compute; auto]].
  intros c cfg a Hv Hs Ha.
  unfold ContextManager.hasVisualCat, ContextManager.hasCatSound,
    StateManager.hasVisualCat, StateManager.hasCatSound,
    AudioTrigger.hasCatSound.
  rewrite Hv, Hs, Ha. repeat split.
  - intros H.
    apply (existsb_weaken _
             (fun kv => StateManager.isCatClass (fst kv) &&
                        Qltb (ContextManager.CAT_DETECTION_THRESHOLD
                                (ContextManager.config c)) (snd kv))) in H.
    + destruct H as [Hq Hlen]. rewrite Hlen. exact Hq.
    + intros kv Hkv. apply andb_true_iff in Hkv.
      destruct Hkv as [Hname Hsc]. rewrite Hsc, andb_true_r.
      apply cat_name_is_cat_class. exact Hname.
  - intros H.
    apply (existsb_weaken _
             (fun kv => StateManager.isCatSoundClass (fst kv) &&
                        Qltb (ContextManager.CAT_SOUND_THRESHOLD
                                (ContextManager.config c)) (snd kv))) in H.
    + destruct H as [Hq Hlen]. rewrite Hlen. exact Hq.
    + intros kv Hkv. apply andb_true_iff in Hkv.
      destruct Hkv as [Hname Hsc]. rewrite Hsc, andb_true_r.
      apply cat_sound_name_is_cat_sound_class. exact Hname.
  - intros H.
    destruct (length (ContextManager.current_audio c) =? 0)%nat eqn:Hlen;
      [discriminate |].
    apply existsb_exists in H. destruct H as (kv & Hin & Hkv).
    apply existsb_exists. exists kv. split; [exact Hin |].
    apply andb_true_iff in Hkv. destruct Hkv as [Hname Hsc].
    rewrite Hsc, andb_true_r.
    apply cat_sound_class_is_trigger_sound. exact Hname.
Qed.

End DetectorFacts.

Module AudioTriggerFacts.
Import Js Emotions EmotionsFacts EmotionRules AudioTrigger.

(** The number of calls that returned a response. *)
Lemma triggerEmotionAnalysis_stats (extracted : option AudioFeatures)
    (n1 n2 : Z) (a : t) :
  let a' := fst (triggerEmotionAnalysis extracted n1 n2 a) in
  let r := snd (triggerEmotionAnalysis extracted n1 n2 a) in
  config a' = config a /\
  totalAudioProcessed (stats a') = totalAudioProcessed (stats a) /\
  catSoundDetected (stats a') = catSoundDetected (stats a) /\
  emotionTriggered (stats a') =
    emotionTriggered (stats a) + (if responded r then 1 else 0).
Proof.
  unfold triggerEmotionAnalysis.
  destruct extracted as [f |]; [| simpl; repeat split; lia].
  destruct (classifyEmotion f) as [res |]; [| simpl; repeat split; lia].
  destruct (Qltb (confidence res) (MIN_CONFIDENCE_FOR_EMOTION (config a)));
    simpl; repeat split; lia.
Qed.

Lemma processAudioResult_stats (i : Input) (a : t) :
  let a' := fst (processAudioResult i a) in
  let r := snd (processAudioResult i a) in
  config a' = config a /\
  totalAudioProcessed (stats a') = totalAudioProcessed (stats a) + 1 /\
  emotionTriggered (stats a') =
    emotionTriggered (stats a) + (if responded r then 1 else 0) /\
  catSoundDetected (stats a) <= catSoundDetected (stats a')
    <= catSoundDetected (stats a) + 1 /\
  (emotionTriggered (stats a') - emotionTriggered (stats a)
   <= catSoundDetected (stats a') - catSoundDetected (stats a)).
Proof.
  unfold processAudioResult.
  destruct (hasCatSound _ (audioResults i)); cbn [negb];
    [| simpl; repeat split; lia].
  destruct (bufferLength i) as [[| n] |];
    try (simpl; repeat split; lia).
  match goal with
  | |- context [triggerEmotionAnalysis ?e ?n1 ?n2 ?a2] =>
      pose proof (triggerEmotionAnalysis_stats e n1 n2 a2) as H;
      destruct (triggerEmotionAnalysis e n1 n2 a2) as [a' r]
  end.
  cbv zeta in H. cbn [fst snd config stats totalAudioProcessed
                      catSoundDetected emotionTriggered] in H |- *.
  destruct H as (H1 & H2 & H3 & H4).
  rewrite H1, H2, H3, H4. destruct r; cbn [responded]; repeat split; lia.
Qed.

Lemma processAll_stats (inputs : list Input) :
  forall a : t,
    let a' := fst (processAll inputs a) in
    let rs := snd (processAll inputs a) in
    config a' = config a /\
    length rs = length inputs /\
    totalAudioProcessed (stats a') =
      totalAudioProcessed (stats a) + Z.of_nat (length inputs) /\
    emotionTriggered (stats a') =
      emotionTriggered (stats a) +
      Z.of_nat (length (filter responded rs)) /\
    (emotionTriggered (stats a') - emotionTriggered (stats a)
     <= catSoundDetected (stats a') - catSoundDetected (stats a)
     <= Z.of_nat (length inputs)).
Proof.
  induction inputs as [| i rest IH]; intros a.
  - simpl. repeat split; lia.
  - cbn [processAll].
    pose proof (processAudioResult_stats i a) as H1. cbv zeta in H1.
    destruct (processAudioResult i a) as [a1 r]. cbn [fst snd] in H1.
    specialize (IH a1). cbv zeta in IH.
    destruct (processAll rest a1) as [a2 rs]. cbn [fst snd] in IH |- *.
    destruct H1 as (C1 & T1 & E1 & D1 & O1).
    destruct IH as (C2 & L2 & T2 & E2 & O2).
    cbn [length filter]. destruct r; cbn [responded length] in *;
      repeat split; try lia; try congruence.
Qed.

(** X19.  The trigger's counters stay in order.  After any calls of
    [processAudioResult] on a new trigger, [totalAudioProcessed] is the
    number of calls, [emotionTriggered] is the number of calls that
    returned a response, and [emotionTriggered <= catSoundDetected <=
    totalAudioProcessed]: the two rates of [getStats()] never pass
    100%.  The configuration is left alone. *)
Theorem trigger_counters_stay_ordered
    (catSoundThreshold minConfidenceForEmotion : option Q)
    (inputs : list Input) :
  let a0 := create catSoundThreshold minConfidenceForEmotion in
  let a := fst (processAll inputs a0) in
  let responses := snd (processAll inputs a0) in
  totalAudioProcessed (stats a) = Z.of_nat (length inputs)
  /\ emotionTriggered (stats a) =
       Z.of_nat (length (filter responded responses))
  /\ 0 <= emotionTriggered (stats a) <= catSoundDetected (stats a)
  /\ catSoundDetected (stats a) <= totalAudioProcessed (stats a)
  /\ config a = config a0.
Proof.
  intros a0 a responses.
  destruct (processAll_stats inputs a0) as (C & L & T & E & O).
  fold a in C, T, E, O. fold responses in L, E.
  change (totalAudioProcessed (stats a0)) with 0 in *.
  change (emotionTriggered (stats a0)) with 0 in *.
  change (catSoundDetected (stats a0)) with 0 in *.
  repeat split; try lia. exact C.
Qed.

(** X20.  The second confidence gate never closes.  When
    [MIN_CONFIDENCE_FOR_EMOTION] is at most 0.6 (0.5 unless configured),
    [triggerEmotionAnalysis] returns a response for every feature
    vector [classifyEmotion] classifies: null comes back only when the
    features are missing or no rule fires.  The response carries the
    classification and the features, and counts as one more trigger. *)
Theorem confidence_gate_never_closes
    (f : AudioFeatures) (nowTrigger nowResponse : Z) (a : t) :
  (MIN_CONFIDENCE_FOR_EMOTION (config a) <= 0.6)%Q ->
  match classifyEmotion f with
  | None => triggerEmotionAnalysis (Some f) nowTrigger nowResponse a = (a, None)
  | Some res =>
      exists (a' : t) (r : EmotionResponse),
        triggerEmotionAnalysis (Some f) nowTrigger nowResponse a
          = (a', Some r) /\
        responseEmotion r = emotion res /\
        responseCategory r = category res /\
        responseConfidence r = confidence res /\
        AudioTrigger.audioFeatures r = f /\
        emotionTriggered (stats a') = emotionTriggered (stats a) + 1 /\
        lastTriggerTime (stats a') = nowTrigger /\
        triggerStats r = stats a'
  end.
Proof.
  intros Hmin. unfold triggerEmotionAnalysis.
  destruct (classifyEmotion f) as [res |] eqn:E; [| reflexivity].
  destruct (classifyEmotion_inv f res E) as (i & r & Hi & _ & Hc & Hpos & _).
  destruct (rules_floor r (normalize f) (nth_error_In _ _ Hi)) as [H0 | H6];
    [lra |].
  rewrite <- Hc in H6.
  destruct (Qltb_spec (confidence res) (MIN_CONFIDENCE_FOR_EMOTION (config a)))
    as [Hlt | _]; [lra |].
  do 2 eexists. repeat split.
Qed.

Lemma confidence_gate_never_closes_witness :
  exists (a' : t) (r : EmotionResponse),
    triggerEmotionAnalysis (Some (EmotionCategory.sampleFor "curious"))
      5000 5001 (create None None) = (a', Some r) /\
    (responseConfidence r == 0.6)%Q /\
    emotionTriggered (stats a') = 1.
Proof.
  pose proof (confidence_gate_never_closes
                (EmotionCategory.sampleFor "curious") 5000 5001
                (create None None)) as H.
  assert (Hmin : (MIN_CONFIDENCE_FOR_EMOTION (config (create None None))
                  <= 0.6)%Q) by (vm_compute; discriminate).
  specialize (H Hmin).
  destruct (classifyEmotion (EmotionCategory.sampleFor "curious"))
    as [res |] eqn:E; [| vm_compute in E; discriminate E].
  destruct H as (a' & r & Hrun & _ & _ & Hconf & _ & Hcount & _).
  exists a', r. split; [exact Hrun |]. split; [| exact Hcount].
  rewrite Hconf. vm_compute in E. injection E as <-. reflexivity.
Defined.

End AudioTriggerFacts.

Module StateChangeFacts.
Import Js Debounce DebounceFacts StateChange.

Lemma chained_app (from : StateValue) (l1 l2 : list TransitionEvent) :
  chained from l1 -> chained (endState from l1) l2 -> chained from (l1 ++ l2).
Proof.
  revert from. induction l1 as [| e l1 IH]; intros from H1 H2; [exact H2 |].
  destruct H1 as (Ho & Hn & Hc). simpl. repeat split; auto.
Qed.

Lemma endState_app (from : StateValue) (l1 l2 : list TransitionEvent) :
  endState from (l1 ++ l2) = endState (endState from l1) l2.
Proof.
  unfold endState. apply fold_left_app.
Qed.

(** One update fires a chain of at most one transition, out of the
    stable state and into the new one. *)
Lemma debounce_chained (d : Z) (raw : StateValue) (now : Z) (s : EngineState) :
  stable s = lastStable s ->
  chained (stable s) (snd (debounce d raw now s)) /\
  endState (stable s) (snd (debounce d raw now s)) =
    stable (fst (debounce d raw now s)) /\
  stable (fst (debounce d raw now s)) = lastStable (fst (debounce d raw now s)).
Proof.
  intros Hag.
  destruct (debounce_step d raw now s Hag) as [[_ E] | [_ E]]; rewrite E;
    cbn [fst snd stable lastStable].
  - destruct (StateValue_eqb_spec raw (stable s)) as [-> | Hne]; simpl; auto.
  - simpl. auto.
Qed.

Lemma run_chained (d : Z) (updates : list (StateValue * Z)) :
  forall s : EngineState,
    stable s = lastStable s ->
    chained (stable s) (snd (run d s updates)) /\
    endState (stable s) (snd (run d s updates)) = stable (fst (run d s updates)).
Proof.
  induction updates as [| [raw now] rest IH]; intros s Hag; [simpl; auto |].
  cbn [run].
  destruct (debounce_chained d raw now s Hag) as (C1 & E1 & A1).
  destruct (debounce d raw now s) as [s1 fired1]. cbn [fst snd] in *.
  destruct (IH s1 A1) as (C2 & E2).
  destruct (run d s1 rest) as [s2 fired2]. cbn [fst snd] in *.
  split.
  - apply chained_app; [exact C1 | rewrite E1; exact C2].
  - rewrite endState_app, E1. exact E2.
Qed.

Lemma chained_alternates (events : list TransitionEvent) :
  forall from : StateValue,
    chained from events ->
    alternates (if isVisual from then CatLost else CatAppeared)
               (triggers events).
Proof.
  induction events as [| e rest IH]; intros from H; [exact I |].
  destruct H as (Ho & Hn & Hc). specialize (IH _ Hc).
  cbn [triggers]. unfold triggerOf. rewrite Ho.
  destruct (isVisual (newState e)), (isVisual from); cbn [andb negb];
    simpl; auto.
Qed.

(** X22.  The transitions that are fired tell one story.  Along any
    sequence of updates, from any state whose [stable] and [lastStable]
    agree (the constructor's in particular), every transition leaves
    the state the one before it entered, the first leaves the initial
    stable state, none goes from a state to itself, and the last enters
    the final stable state.  There are no more transitions than
    updates, and the state a transition enters is the raw state of one
    of the updates. *)
Theorem transitions_form_a_chain
    (d : Z) (s : EngineState) (updates : list (StateValue * Z)) :
  stable s = lastStable s ->
  chained (stable s) (snd (run d s updates))
  /\ endState (stable s) (snd (run d s updates)) = stable (fst (run d s updates))
  /\ (length (snd (run d s updates)) <= length updates)%nat
  /\ (forall e, In e (snd (run d s updates)) ->
        exists now, In (newState e, now) updates).
Proof.
  intros Hag. destruct (run_chained d updates s Hag) as [Hc He].
  split; [exact Hc |]. split; [exact He |]. clear Hc He.
  revert s Hag. induction updates as [| [raw now] rest IH]; intros s Hag.
  - simpl. split; [lia | intros e []].
  - cbn [run].
    destruct (debounce_chained d raw now s Hag) as (_ & _ & A1).
    assert (Hfired : snd (debounce d raw now s) = [] \/
                     snd (debounce d raw now s) =
                       [ {| newState := raw; oldState := stable s |} ]).
    { destruct (debounce_step d raw now s Hag) as [[_ E] | [_ E]]; rewrite E;
        cbn [snd]; [| left; reflexivity].
      destruct (StateValue_eqb raw (stable s)); auto. }
    destruct (debounce d raw now s) as [s1 fired1]. cbn [fst snd] in *.
    destruct (IH s1 A1) as [Hlen Hobs].
    destruct (run d s1 rest) as [s2 fired2]. cbn [fst snd] in *.
    split.
    + rewrite length_app. cbn [length].
      destruct Hfired as [-> | ->]; simpl; lia.
    + intros e Hin. apply in_app_or in Hin. destruct Hin as [Hin | Hin].
      * destruct Hfired as [-> | ->]; [contradiction |].
        destruct Hin as [<- | []]. exists now. left. reflexivity.
      * destruct (Hobs e Hin) as [t Ht]. exists t. right. exact Ht.
Qed.

Lemma transitions_form_a_chain_witness :
  let updates := [(cat_visual, 1000); (cat_visual, 3000); (cat_both, 3500);
                  (cat_both, 5600); (idle, 6000); (idle, 8000)] in
  snd (run 2000 initialState updates) =
    [ {| newState := cat_visual; oldState := idle |};
      {| newState := cat_both; oldState := cat_visual |};
      {| newState := idle; oldState := cat_both |} ]
  /\ chained idle (snd (run 2000 initialState updates))
  /\ endState idle (snd (run 2000 initialState updates)) =
       stable (fst (run 2000 initialState updates)).
Proof.
  intros updates. split; [reflexivity |].
  destruct (transitions_form_a_chain 2000 initialState updates eq_refl)
    as (Hc & He & _).
  split; [exact Hc | exact He].
Defined.

(** X23.  The deep analysis is asked for in turns.  Over the
    transitions of any run from the constructor's state, the requests
    "cat appeared" and "cat lost" alternate, starting with "cat
    appeared": a transition between two states with the same visual
    flag (idle and cat_audio, cat_visual and cat_both) asks for nothing,
    and there are never more requests than transitions. *)
Theorem vlm_requests_alternate (d : Z) (updates : list (StateValue * Z)) :
  let events := snd (run d initialState updates) in
  alternates CatAppeared (triggers events)
  /\ (length (triggers events) <= length events)%nat
  /\ (forall e, In e events ->
        isVisual (newState e) = isVisual (oldState e) -> triggerOf e = None).
Proof.
  intros events.
  destruct (run_chained d updates initialState eq_refl) as [Hc _].
  fold events in Hc. repeat split.
  - exact (chained_alternates events idle Hc).
  - clear Hc. induction events as [| e rest IH]; simpl; [lia |].
    destruct (triggerOf e); simpl; lia.
  - intros e _ Hsame. unfold triggerOf. rewrite Hsame.
    destruct (isVisual (oldState e)); reflexivity.
Qed.

Lemma finalText_not_empty (vlmText : option string) (s : StateValue) :
  VLMChannel.finalText vlmText s <> ""%string.
Proof.
  unfold VLMChannel.finalText, VLMChannel.truthyText.
  destruct vlmText as [txt |].
  - destruct (String.eqb_spec txt ""); simpl; [destruct s; discriminate |].
    assumption.
  - destruct s; discriminate.
Qed.

Lemma noRepeat_snoc (l : list string) (x : string) :
  noRepeat l -> last l ""%string <> x -> noRepeat (l ++ [x]).
Proof.
  induction l as [| a l IH]; intros Hn Hl; [exact I |].
  destruct l as [| b l]; simpl in *.
  - split; [exact Hl | exact I].
  - destruct Hn as [Hab Hn]. split; [exact Hab |]. apply IH; assumption.
Qed.

(** The invariant of the response de-duplication. *)
Lemma respond_invariant (vlmText : option string) (s : StateValue) (u : Ui) :
  noRepeat (notified u) -> last (notified u) ""%string = lastResponse u ->
  let u' := respond vlmText s u in
  lastResponse u' = VLMChannel.finalText vlmText s /\
  noRepeat (notified u') /\
  last (notified u') ""%string = lastResponse u' /\
  (notified u' = notified u \/
   notified u' = notified u ++ [VLMChannel.finalText vlmText s]).
Proof.
  intros Hn Hl. unfold respond. cbv zeta.
  pose proof (finalText_not_empty vlmText s) as Hne.
  destruct (String.eqb_spec (VLMChannel.finalText vlmText s) "") as [E | _];
    [contradiction |].
  cbn [negb andb].
  destruct (String.eqb_spec (VLMChannel.finalText vlmText s) (lastResponse u))
    as [E | Hdiff]; cbn [negb lastResponse notified].
  - repeat split; auto.
  - repeat split; auto.
    + apply noRepeat_snoc; [exact Hn |]. rewrite Hl. auto.
    + apply last_last.
Qed.

(** X24.  The UI always has the current text, once.  After any
    sequence of [updateState] calls, with whatever override text and
    stable state each of them saw, [lastResponse] is the final text of
    the latest call, the UI callback received exactly that text last,
    and it never received the same text twice in a row; the final text
    is never empty, so the first call always notifies. *)
Theorem ui_text_is_current
    (inputs : list (option string * StateValue))
    (vlmText : option string) (stableState : StateValue) :
  let u := respondAll (inputs ++ [(vlmText, stableState)]) initialUi in
  lastResponse u = VLMChannel.finalText vlmText stableState
  /\ last (notified u) ""%string = VLMChannel.finalText vlmText stableState
  /\ noRepeat (notified u)
  /\ VLMChannel.finalText vlmText stableState <> ""%string
  /\ notified (respond vlmText stableState initialUi) =
       [VLMChannel.finalText vlmText stableState].
Proof.
  intros u.
  assert (Hinv : forall (l : list (option string * StateValue)) (u0 : Ui),
            noRepeat (notified u0) ->
            last (notified u0) ""%string = lastResponse u0 ->
            noRepeat (notified (respondAll l u0)) /\
            last (notified (respondAll l u0)) ""%string =
              lastResponse (respondAll l u0)).
  { induction l as [| i l IH]; intros u0 Hn Hl; [auto |].
    unfold respondAll. cbn [fold_left].
    destruct (respond_invariant (fst i) (snd i) u0 Hn Hl) as (_ & Hn' & Hl' & _).
    apply IH; assumption. }
  destruct (Hinv inputs initialUi I eq_refl) as [Hn Hl].
  subst u. unfold respondAll in *. rewrite fold_left_app. cbn [fold_left fst snd].
  destruct (respond_invariant vlmText stableState _ Hn Hl)
    as (E & Hn' & Hl' & _).
  repeat split; auto.
  - rewrite Hl'. exact E.
  - apply finalText_not_empty.
  - unfold respond. cbv zeta. cbn [initialUi lastResponse notified].
    pose proof (finalText_not_empty vlmText stableState) as Hne.
    destruct (String.eqb_spec (VLMChannel.finalText vlmText stableState) "")
      as [E0 | _]; [contradiction | reflexivity].
Qed.

End StateChangeFacts.
